(** * WaveSolver: a shallow embedding of [src/services/waveSolver.ts]

    The solver owns four [Float32Array]s of [size * size] cells (row-major,
    [idx = y * size + x]) and advances a scalar wave field by an explicit
    finite-difference scheme.

    Numbers.  Cell values, material constants, the source parameters and
    the time are real numbers ([R]), as in the data model of the
    specification ("a mapping from linear cell index to a real value"):
    the rounding of IEEE doubles and of [Float32Array] stores is not
    modelled, and neither are NaN and the infinities.  Sizes, cell
    coordinates, loop counters, array indices and the brush size are
    integers ([Z]).  The maximum length of a typed array is not modelled
    either: see [Float32Array.safe_length].

    Objects.  A [Float32Array] is modelled by its contents.  The class
    never re-assigns its four array fields and only copies contents between
    arrays ([TypedArray.prototype.set]), so the four fields and the buffer
    allocated inside [stepOptimized] are always distinct objects. *)

From Stdlib Require Import ZArith Reals Lra Lia Psatz String.
From Stdlib Require Import Zfloor.
From stdpp Require Import base option list.

Local Open Scope Z_scope.

(** ** Typed arrays *)

Module Float32Array.

Abbreviation t := (list R) (only parsing).

(** [new Float32Array(n)]: a RangeError for a negative length, otherwise
    [n] zeros.  An engine also throws a RangeError for a length above its
    maximum typed-array length, or when memory runs out, which [make] does
    not do: [make] stands for the allocation at the lengths the engine
    allocates. *)
Definition make (n : Z) : option t :=
  if n <? 0 then None else Some (replicate (Z.to_nat n) 0%R).

(** A length within the maximum of every engine: [2^24] cells, a grid of
    4096 by 4096.  (The maximum length of a typed array depends on the
    engine and the platform; ECMAScript allows at most [2^53 - 1].)  What is
    stated of the constructor is stated for lengths up to [safe_length];
    [stepOptimized] only allocates a buffer as long as the arrays the
    solver holds. *)
Definition safe_length : Z := 2 ^ 24.

(** [a.length] *)
Definition length (a : t) : Z := Z.of_nat (List.length a).

(** [a[i]] read.  Out of range JavaScript yields [undefined]; the model
    yields 0 there, and the solver's loops never read out of range on a
    grid whose arrays have [size * size] cells. *)
Definition get (a : t) (i : Z) : R :=
  if 0 <=? i then default 0%R (a !! Z.to_nat i) else 0%R.

(** [a[i] = v].  A store outside [0 .. length-1] is silently ignored. *)
Definition put (a : t) (i : Z) (v : R) : t :=
  if 0 <=? i then <[Z.to_nat i := v]> a else a.

(** [target.set(src)]: copies [src] over the front of [target]; a
    RangeError when [src] is longer than [target]. *)
Definition set (target src : t) : option t :=
  if length src <=? length target
  then Some (src ++ drop (List.length src) target)
  else None.

End Float32Array.

Module F := Float32Array.

(** ** Counted loops

    [for_range lo hi body st] is [for (let i = lo; i < hi; i++) body],
    threading the loop's state. *)

Fixpoint iter_from {St : Type} (n : nat) (i : Z) (body : Z -> St -> St) (st : St) : St :=
  match n with
  | O => st
  | S n' => iter_from n' (i + 1) body (body i st)
  end.

Definition for_range {St : Type} (lo hi : Z) (body : Z -> St -> St) (st : St) : St :=
  iter_from (Z.to_nat (hi - lo)) lo body st.

(** ** Constants and types ([constants.ts], [types.ts]) *)

Inductive MaterialType := AIR | WATER | STEEL | CUSTOM.

Record MaterialProperties := {
  name : string;
  speedOfSound : R;
  density : R;
  color : string
}.

Definition MATERIALS (m : MaterialType) : MaterialProperties :=
  match m with
  | AIR => {| name := "Air"; speedOfSound := 343; density := 1.225; color := "#0f172a" |}
  | WATER => {| name := "Water"; speedOfSound := 1481; density := 997; color := "#0ea5e9" |}
  | STEEL => {| name := "Steel"; speedOfSound := 5960; density := 7850; color := "#94a3b8" |}
  | CUSTOM => {| name := "Metamaterial"; speedOfSound := 300; density := 1000; color := "#d946ef" |}
  end.

Definition GRID_SIZE : Z := 120.
Definition DX : R := 0.01.
Definition DT : R := 0.000005.

(** ** The solver's state *)

Record WaveSolver := {
  u : F.t;
  uPrev : F.t;
  velocityMap : F.t;
  dampingMap : F.t;
  size : Z
}.

Definition with_u (a : F.t) (this : WaveSolver) : WaveSolver :=
  {| u := a; uPrev := uPrev this; velocityMap := velocityMap this;
     dampingMap := dampingMap this; size := size this |}.

Definition with_uPrev (a : F.t) (this : WaveSolver) : WaveSolver :=
  {| u := u this; uPrev := a; velocityMap := velocityMap this;
     dampingMap := dampingMap this; size := size this |}.

Definition with_velocityMap (a : F.t) (this : WaveSolver) : WaveSolver :=
  {| u := u this; uPrev := uPrev this; velocityMap := a;
     dampingMap := dampingMap this; size := size this |}.

Definition with_dampingMap (a : F.t) (this : WaveSolver) : WaveSolver :=
  {| u := u this; uPrev := uPrev this; velocityMap := velocityMap this;
     dampingMap := a; size := size this |}.

(** ** Methods *)

(** [Math.min(a, b, c, d)] on integers. *)
Definition min4 (a b c d : Z) : Z := Z.min (Z.min (Z.min a b) c) d.

Definition applyBoundaries (this : WaveSolver) : WaveSolver :=
  let padding := 10 in
  for_range 0 (size this) (fun y this =>
    for_range 0 (size this) (fun x this =>
      if (x <? padding) || (x >=? size this - padding)
         || (y <? padding) || (y >=? size this - padding)
      then
        let idx := y * size this + x in
        let dist := min4 x (size this - 1 - x) y (size this - 1 - y) in
        let dampingFactor := (1.0 - 0.1 * (IZR (padding - dist) / IZR padding))%R in
        with_dampingMap (F.put (dampingMap this) idx (Rmax 0.8 dampingFactor)) this
      else this) this) this.

Definition resetMaterialMap (defaultMaterial : MaterialType) (this : WaveSolver) : WaveSolver :=
  let c := speedOfSound (MATERIALS defaultMaterial) in
  let c2 := (c * c)%R in
  let this :=
    for_range 0 (F.length (velocityMap this)) (fun i this =>
      let this := with_velocityMap (F.put (velocityMap this) i c2) this in
      with_dampingMap (F.put (dampingMap this) i 1.0%R) this) this in
  applyBoundaries this.

(** [new WaveSolver(size)]; [None] stands for an exception thrown by the
    constructor. *)
Definition constructor (size : Z) : option WaveSolver :=
  let totalPixels := size * size in
  u ← F.make totalPixels;
  uPrev ← F.make totalPixels;
  velocityMap ← F.make totalPixels;
  dampingMap ← F.make totalPixels;
  Some (resetMaterialMap AIR
          {| u := u; uPrev := uPrev; velocityMap := velocityMap;
             dampingMap := dampingMap; size := size |}).

(** [new WaveSolver()] takes the default size. *)
Definition constructor_default : option WaveSolver := constructor GRID_SIZE.

Definition updateMaterial (x y : Z) (material : MaterialType) (brushSize : Z)
    (this : WaveSolver) : WaveSolver :=
  let c := speedOfSound (MATERIALS material) in
  let c2 := (c * c)%R in
  let r := brushSize / 2 in
  for_range (- r) (r + 1) (fun dy this =>
    for_range (- r) (r + 1) (fun dx this =>
      let nx := x + dx in
      let ny := y + dy in
      if (nx >=? 0) && (nx <? size this) && (ny >=? 0) && (ny <? size this)
      then
        let idx := ny * size this + nx in
        with_velocityMap (F.put (velocityMap this) idx c2) this
      else this) this) this.

(** [step]: the loop computes [uNext] in a local variable of its body and
    stores it nowhere. *)
Definition step (sourceFreq sourceAmp sourceX sourceY time : R)
    (this : WaveSolver) : WaveSolver :=
  let s := size this in
  let sx := Zfloor (sourceX * IZR (s - 1)) in
  let sy := Zfloor (sourceY * IZR (s - 1)) in
  let sourceIdx := sy * s + sx in
  let this :=
    with_u (F.put (u this) sourceIdx
                  (sourceAmp * sin (2 * PI * sourceFreq * time))%R) this in
  let courrantNumberSq := ((DT * DT) / (DX * DX))%R in
  for_range 1 (s - 1) (fun y this =>
    let rowOffset := y * s in
    for_range 1 (s - 1) (fun x this =>
      let i := rowOffset + x in
      let uC := F.get (u this) i in
      let uP := F.get (uPrev this) i in
      let c2 := F.get (velocityMap this) i in
      let damp := F.get (dampingMap this) i in
      let laplacian :=
        (F.get (u this) (i + 1) + F.get (u this) (i - 1)
         + F.get (u this) (i + s) + F.get (u this) (i - s) - 4 * uC)%R in
      let uNext := (2 * uC - uP + c2 * courrantNumberSq * laplacian)%R in
      let uNext := (uNext * damp)%R in
      this) this) this.

(** The two loops of [stepOptimized]: the outer loop's state is the local
    buffer [uNext]; the inner loop also carries the running index [i].
    [this] is only read. *)
Definition sweep (this : WaveSolver) (uNext : F.t) : F.t :=
  let s := size this in
  let courrantConst := ((DT * DT) / (DX * DX))%R in
  for_range 1 (s - 1) (fun y uNext =>
    let i := y * s + 1 in
    snd (for_range 1 (s - 1) (fun x '(i, uNext) =>
      let c2 := F.get (velocityMap this) i in
      let val :=
        (2 * F.get (u this) i - F.get (uPrev this) i
         + c2 * courrantConst
           * (F.get (u this) (i + 1) + F.get (u this) (i - 1)
              + F.get (u this) (i + s) + F.get (u this) (i - s)
              - 4 * F.get (u this) i))%R in
      let uNext := F.put uNext i (val * F.get (dampingMap this) i)%R in
      (i + 1, uNext)) (i, uNext))) uNext.

(** [stepOptimized]; [None] stands for a thrown exception.  The returned
    array is the solver's own [u], so the result is the new state. *)
Definition stepOptimized (sourceFreq sourceAmp sourceX sourceY time : R)
    (this : WaveSolver) : option WaveSolver :=
  let s := size this in
  let sizeSq := s * s in
  uNext ← F.make sizeSq;
  let sx := Zfloor (sourceX * IZR (s - 1)) in
  let sy := Zfloor (sourceY * IZR (s - 1)) in
  let sourceIdx := sy * s + sx in
  let this :=
    with_u (F.put (u this) sourceIdx
                  (sourceAmp * sin (2 * PI * sourceFreq * time))%R) this in
  let uNext := sweep this uNext in
  uPrev' ← F.set (uPrev this) (u this);
  let this := with_uPrev uPrev' this in
  u' ← F.set (u this) uNext;
  Some (with_u u' this).

(** ** Vocabulary of the specification *)

(** The data-model invariant: the four arrays have [size * size] cells. *)
Definition well_formed (g : WaveSolver) : Prop :=
  F.length (u g) = size g * size g /\
  F.length (uPrev g) = size g * size g /\
  F.length (velocityMap g) = size g * size g /\
  F.length (dampingMap g) = size g * size g.

Definition in_grid (s x y : Z) : Prop := 0 <= x < s /\ 0 <= y < s.

(** Interior cells: both coordinates strictly between 0 and [s - 1]. *)
Definition interior (s x y : Z) : Prop := 0 < x < s - 1 /\ 0 < y < s - 1.

(** The outermost ring. *)
Definition edge (s x y : Z) : Prop :=
  in_grid s x y /\ (x = 0 \/ x = s - 1 \/ y = 0 \/ y = s - 1).

(** The cells a brush of half-width [r] centred at [(x, y)] covers, clipped
    to the grid. *)
Definition in_brush (s x y r cx cy : Z) : Prop :=
  in_grid s cx cy /\ Z.abs (cx - x) <= r /\ Z.abs (cy - y) <= r.

(** The indices of the brush cells. *)
Definition painted (s x y r j : Z) : Prop :=
  exists cx cy, in_brush s x y r cx cy /\ j = cy * s + cx.

(** The index of the source cell, as [step] and [stepOptimized] compute
    it. *)
Definition sourceIdx (s : Z) (sourceX sourceY : R) : Z :=
  let sx := Zfloor (sourceX * IZR (s - 1)) in
  let sy := Zfloor (sourceY * IZR (s - 1)) in
  sy * s + sx.

(** The value driven into the source cell. *)
Definition sourceValue (sourceFreq sourceAmp time : R) : R :=
  (sourceAmp * sin (2 * PI * sourceFreq * time))%R.

(** The solver after the store [this.u[sourceIdx] = ...]: the state the
    loops of [step] and [stepOptimized] read. *)
Definition injectSource (sourceFreq sourceAmp sourceX sourceY time : R)
    (this : WaveSolver) : WaveSolver :=
  with_u (F.put (u this) (sourceIdx (size this) sourceX sourceY)
                (sourceValue sourceFreq sourceAmp time)) this.

(** The update rule as the specification writes it, at linear index [i] of
    a grid [g]. *)
Definition next_value (g : WaveSolver) (i : Z) : R :=
  let s := size g in
  let laplacian :=
    (F.get (u g) (i + 1) + F.get (u g) (i - 1)
     + F.get (u g) (i + s) + F.get (u g) (i - s) - 4 * F.get (u g) i)%R in
  (F.get (dampingMap g) i
   * (2 * F.get (u g) i - F.get (uPrev g) i
      + F.get (velocityMap g) i * (DT / DX) ^ 2 * laplacian))%R.

(** Distance of a cell to the closest side of the grid. *)
Definition edge_distance (s x y : Z) : Z := min4 x (s - 1 - x) y (s - 1 - y).

(** The damping profile of the boundary layer as the specification writes
    it. *)
Definition damping_profile (padding d : Z) : R :=
  if d >=? padding then 1%R
  else Rmax 0.8 (1.0 - 0.1 * IZR (padding - d) / IZR padding)%R.

(** [k] is a grid coordinate nearest to the continuous coordinate [p]. *)
Definition nearest (s : Z) (p : R) (k : Z) : Prop :=
  0 <= k < s /\ forall k', 0 <= k' < s -> (Rabs (p - IZR k) <= Rabs (p - IZR k'))%R.

(** ** Loop invariants *)

(** The indices of the cells of a set [C] that a row-by-row scan has passed
    when it stands at row [ylim], column [xlim]. *)
Definition raster_before (s : Z) (C : Z -> Z -> Prop) (ylim xlim j : Z) : Prop :=
  exists cx cy, C cx cy /\ (cy < ylim \/ (cy = ylim /\ cx < xlim)) /\ j = cy * s + cx.

(** The indices of all cells of [C]. *)
Definition raster_all (s : Z) (C : Z -> Z -> Prop) (j : Z) : Prop :=
  exists cx cy, C cx cy /\ j = cy * s + cx.

(** [a] is [a0] with [f j] stored at the indices [j] of [V] (those that fall
    inside the array) and nothing else changed. *)
Definition written (a0 : F.t) (f : Z -> R) (V : Z -> Prop) (a : F.t) : Prop :=
  F.length a = F.length a0
  /\ (forall j, V j -> 0 <= j < F.length a0 -> F.get a j = f j)
  /\ (forall j, F.get a j = F.get a0 j \/ (V j /\ 0 <= j < F.length a0)).

(** What [updateMaterial] has done to the grid [g] when its loops stand at
    row [ylim], column [xlim]. *)
Definition paint_inv (x y r : Z) (c2 : R) (g : WaveSolver) (ylim xlim : Z)
    (this : WaveSolver) : Prop :=
  size this = size g /\ u this = u g /\ uPrev this = uPrev g
  /\ dampingMap this = dampingMap g
  /\ written (velocityMap g) (fun _ => c2)
       (raster_before (size g) (in_brush (size g) x y r) ylim xlim)
       (velocityMap this).

(** The value the sweep of [stepOptimized] stores at index [i] of the next
    buffer, [val * this.dampingMap[i]], as the code computes it. *)
Definition cell_update (this : WaveSolver) (i : Z) : R :=
  let s := size this in
  let courrantConst := ((DT * DT) / (DX * DX))%R in
  let c2 := F.get (velocityMap this) i in
  let val :=
    (2 * F.get (u this) i - F.get (uPrev this) i
     + c2 * courrantConst
       * (F.get (u this) (i + 1) + F.get (u this) (i - 1)
          + F.get (u this) (i + s) + F.get (u this) (i - s)
          - 4 * F.get (u this) i))%R in
  (val * F.get (dampingMap this) i)%R.

(** The state of the inner loop of the sweep at row [y], column [x]: the
    running index and the next buffer. *)
Definition sweep_inv (this : WaveSolver) (uNext0 : F.t) (y x : Z)
    (st : Z * F.t) : Prop :=
  fst st = y * size this + x
  /\ written uNext0 (cell_update this)
       (raster_before (size this) (interior (size this)) y x) (snd st).

(** The cells [applyBoundaries] rewrites: those its guard selects. *)
Definition in_layer (s padding x y : Z) : Prop :=
  in_grid s x y /\ edge_distance s x y < padding.

(** The value [applyBoundaries] stores at the cell of index [j], as the code
    computes it. *)
Definition layer_value (s padding j : Z) : R :=
  let dist := edge_distance s (j mod s) (j / s) in
  let dampingFactor := (1.0 - 0.1 * (IZR (padding - dist) / IZR padding))%R in
  Rmax 0.8 dampingFactor.

(** The first loop of [resetMaterialMap] at counter [i]. *)
Definition reset_inv (c2 : R) (g : WaveSolver) (i : Z) (this : WaveSolver) : Prop :=
  size this = size g /\ u this = u g /\ uPrev this = uPrev g
  /\ written (velocityMap g) (fun _ => c2) (fun j => 0 <= j < i) (velocityMap this)
  /\ written (dampingMap g) (fun _ => 1.0%R) (fun j => 0 <= j < i) (dampingMap this).

(** The loops of [applyBoundaries] at row [ylim], column [xlim]. *)
Definition boundary_inv (g : WaveSolver) (ylim xlim : Z) (this : WaveSolver) : Prop :=
  size this = size g /\ u this = u g /\ uPrev this = uPrev g
  /\ velocityMap this = velocityMap g
  /\ written (dampingMap g) (layer_value (size g) 10)
       (raster_before (size g) (in_layer (size g) 10) ylim xlim)
       (dampingMap this).

(** ** A sample grid

    Three by three cells of air at rest, with the damping the constructor
    gives such a grid (every cell lies in the boundary layer: distance 0 on
    the ring, distance 1 at the centre). *)
Definition sample_grid : WaveSolver :=
  {| u := replicate 9 0%R;
     uPrev := replicate 9 0%R;
     velocityMap := replicate 9 (343 * 343)%R;
     dampingMap := [0.9; 0.9; 0.9; 0.9; 0.91; 0.9; 0.9; 0.9; 0.9]%R;
     size := 3 |}.

(** The same grid with a value left in the corner cell of [u]. *)
Definition sample_grid_corner : WaveSolver :=
  with_u [5; 0; 0; 0; 0; 0; 0; 0; 0]%R sample_grid.

(** The same grid painted with steel everywhere. *)
Definition sample_grid_steel : WaveSolver :=
  with_velocityMap (replicate 9 (5960 * 5960)%R) sample_grid.

(** ** The callers of the solver ([App.tsx], [components/WaveSimulation.tsx]) *)

(** [a.fill(v)] *)
Definition Float32Array_fill (a : F.t) (v : R) : F.t := replicate (List.length a) v.

(** [handleClearFields]: [solver.u.fill(0); solver.uPrev.fill(0)]. *)
Definition handleClearFields (solver : WaveSolver) : WaveSolver :=
  let solver := with_u (Float32Array_fill (u solver) 0%R) solver in
  with_uPrev (Float32Array_fill (uPrev solver) 0%R) solver.

(** [handleReset], as far as the solver goes: the calls of [setConfig] and
    [updateTransmissionGraph] that follow only write React state. *)
Definition handleReset (solver : WaveSolver) : WaveSolver :=
  let solver := resetMaterialMap AIR solver in
  let solver := with_u (Float32Array_fill (u solver) 0%R) solver in
  with_uPrev (Float32Array_fill (uPrev solver) 0%R) solver.

Record SimulationConfig := {
  frequency : R;
  sourceAmplitude : R;
  sourceX : R;
  sourceY : R;
  simulationSpeed : R;
  damping : R;
  gridResolution : R
}.

(** The physics part of [renderLoop] (one animation frame): the state is
    the step counter [timeRef.current] and the solver; [None] stands for an
    exception thrown by [stepOptimized]. *)
Definition renderLoop_physics (config : SimulationConfig) (isRunning : bool)
    (st : Z * WaveSolver) : option (Z * WaveSolver) :=
  if isRunning then
    let stepsPerFrame := Zceil (simulationSpeed config * 5) in
    for_range 0 stepsPerFrame (fun i st =>
      '(timeRef, solver) ← st;
      let timeRef := timeRef + 1 in
      solver ← stepOptimized (frequency config) (sourceAmplitude config)
                 (sourceX config) (sourceY config)
                 (IZR timeRef * 0.000005)%R solver;
      Some (timeRef, solver)) (Some st)
  else Some st.

(** ** The editor ([components/UnitCellEditor.tsx]) and the palette ([App.tsx]) *)

(** [canvas.getBoundingClientRect()] *)
Record DOMRect := { left : R; top : R; width : R; height : R }.

(** [paintAt], as far as the solver goes ([renderMaterialMap], called last,
    only draws).  [canvas] is [None] when [canvasRef.current] is null.  With
    a rectangle of width or height 0 the divisions give infinities or NaN;
    [updateMaterial] then finds no neighbour inside the grid and stores
    nothing. *)
Definition paintAt (canvas : option DOMRect) (clientX clientY : R)
    (selectedMaterial : MaterialType) (brushSize : Z) (solver : WaveSolver) : WaveSolver :=
  match canvas with
  | None => solver
  | Some rect =>
      if Req_dec_T (width rect) 0 then solver
      else if Req_dec_T (height rect) 0 then solver
      else
        let x := Zfloor (((clientX - left rect) / width rect) * IZR (size solver)) in
        let y := Zfloor (((clientY - top rect) / height rect) * IZR (size solver)) in
        updateMaterial x y selectedMaterial brushSize solver
  end.

(** The calls [renderMaterialMap] makes on the 2D context. *)
Inductive CanvasCall :=
| clearRect (x y w h : R)
| fillRect (fillStyle : string) (x y w h : R).

(** [renderMaterialMap]: the calls made, in order.  [canvas] is [None] when
    there is no canvas or no context, otherwise its width and height. *)
Definition renderMaterialMap (canvas : option (R * R)) (solver : WaveSolver)
    : list CanvasCall :=
  match canvas with
  | None => []
  | Some (canvas_width, canvas_height) =>
      let size := size solver in
      let pixelSize := (canvas_width / IZR size)%R in
      let calls := [clearRect 0 0 canvas_width canvas_height] in
      for_range 0 size (fun y calls =>
        for_range 0 size (fun x calls =>
          let idx := y * size + x in
          let c2 := F.get (velocityMap solver) idx in
          let airC2 := (speedOfSound (MATERIALS AIR) ^ 2)%R in
          let waterC2 := (speedOfSound (MATERIALS WATER) ^ 2)%R in
          let steelC2 := (speedOfSound (MATERIALS STEEL) ^ 2)%R in
          let color :=
            if Rlt_dec (Rabs (c2 - waterC2)) 1000 then color (MATERIALS WATER)
            else if Rlt_dec (Rabs (c2 - steelC2)) 1000 then color (MATERIALS STEEL)
            else color (MATERIALS AIR) in
          calls ++ [fillRect color (IZR x * pixelSize) (IZR y * pixelSize)
                             pixelSize pixelSize]) calls) calls
  end.

(** The colour [renderMaterialMap] picks for a velocity-map value. *)
Definition cellColor (c2 : R) : string :=
  if Rlt_dec (Rabs (c2 - speedOfSound (MATERIALS WATER) ^ 2)) 1000
  then color (MATERIALS WATER)
  else if Rlt_dec (Rabs (c2 - speedOfSound (MATERIALS STEEL) ^ 2)) 1000
  then color (MATERIALS STEEL)
  else color (MATERIALS AIR).

(** The material whose colour is drawn for cells painted with [m]. *)
Definition drawn_as (m : MaterialType) : MaterialType :=
  match m with
  | WATER => WATER
  | STEEL => STEEL
  | AIR | CUSTOM => AIR
  end.

(** The string values of the enum [MaterialType]. *)
Definition MaterialType_value (m : MaterialType) : string :=
  match m with
  | AIR => "AIR"
  | WATER => "WATER"
  | STEEL => "STEEL"
  | CUSTOM => "CUSTOM"
  end.

(** [MATERIALS[key]] for an arbitrary string: [None] is [undefined]. *)
Definition MATERIALS_at (key : string) : option MaterialType :=
  if String.eqb key "AIR" then Some AIR
  else if String.eqb key "WATER" then Some WATER
  else if String.eqb key "STEEL" then Some STEEL
  else if String.eqb key "CUSTOM" then Some CUSTOM
  else None.

(** [s.toUpperCase()] on ASCII strings. *)
Definition toUpperCase_ascii (c : Ascii.ascii) : Ascii.ascii :=
  let n := Ascii.nat_of_ascii c in
  if (97 <=? n)%nat && (n <=? 122)%nat then Ascii.ascii_of_nat (n - 32) else c.

Fixpoint toUpperCase (s : string) : string :=
  match s with
  | EmptyString => EmptyString
  | String c s' => String (toUpperCase_ascii c) (toUpperCase s')
  end.

(** The key a palette button selects:
    [mat.name.toUpperCase() as MaterialType]. *)
Definition palette_key (mat : MaterialProperties) : string := toUpperCase (name mat).

(** [updateMaterial] as it runs, on whatever string the cast let through:
    reading [speedOfSound] of [undefined] throws a TypeError ([None]) before
    anything is stored. *)
Definition updateMaterial_untyped (x y : Z) (material : string) (brushSize : Z)
    (this : WaveSolver) : option WaveSolver :=
  m ← MATERIALS_at material;
  Some (updateMaterial x y m brushSize this).

(** The call [renderMaterialMap] makes for the cell [(cx, cy)]. *)
Definition cell_call (canvas_width : R) (solver : WaveSolver) (cx cy : Z) : CanvasCall :=
  let pixelSize := (canvas_width / IZR (size solver))%R in
  fillRect (cellColor (F.get (velocityMap solver) (cy * size solver + cx)))
           (IZR cx * pixelSize) (IZR cy * pixelSize) pixelSize pixelSize.

(** The calls made when the loops of [renderMaterialMap] stand at row [y],
    column [x]. *)
Definition render_inv (canvas_width : R) (solver : WaveSolver) (y x : Z)
    (calls : list CanvasCall) : Prop :=
  Z.of_nat (List.length calls) = 1 + y * size solver + x
  /\ forall cx cy,
       0 <= cx < size solver -> 0 <= cy ->
       cy < y \/ (cy = y /\ cx < x) ->
       calls !! Z.to_nat (1 + cy * size solver + cx)
       = Some (cell_call canvas_width solver cx cy).

(** The configuration [App] starts with. *)
Definition sample_config : SimulationConfig :=
  {| frequency := 2000; sourceAmplitude := 1.0; sourceX := 0.1; sourceY := 0.5;
     simulationSpeed := 0.5; damping := 0.98; gridResolution := 100 |}.

(** ** The field image ([components/WaveSimulation.tsx]) *)

(** The conversion of a number stored into a [Uint8ClampedArray]: clamped
    to 0..255 and rounded to the nearest integer, ties to the even one. *)
Definition ToUint8Clamp (number : R) : Z :=
  if Rle_dec number 0 then 0
  else if Rle_dec 255 number then 255
  else
    let f := Zfloor number in
    if Rlt_dec (IZR f + 0.5) number then f + 1
    else if Rlt_dec number (IZR f + 0.5) then f
    else if Z.even f then f else f + 1.

(** [data[i] = v] on a [Uint8ClampedArray], the value already converted; a
    store outside the array is ignored. *)
Definition Uint8ClampedArray_put (data : list Z) (i : Z) (v : Z) : list Z :=
  if 0 <=? i then <[Z.to_nat i := v]> data else data.

(** The pixel loop of [renderLoop] on the image data [data] (from
    [createImageData(size, size)]): four bytes per cell. *)
Definition renderLoop_pixels (solver : WaveSolver) (data : list Z) : list Z :=
  let size := size solver in
  let waveField := u solver in
  for_range 0 (size * size) (fun i data =>
    let val := F.get waveField i in
    let intensity := Rmin 255 (Rabs (val * 2000)) in
    let pixelIndex := i * 4 in
    if Rlt_dec 0 val then
      let data := Uint8ClampedArray_put data pixelIndex 255 in
      let data := Uint8ClampedArray_put data (pixelIndex + 1) 50 in
      let data := Uint8ClampedArray_put data (pixelIndex + 2) 50 in
      Uint8ClampedArray_put data (pixelIndex + 3) (ToUint8Clamp intensity)
    else
      let data := Uint8ClampedArray_put data pixelIndex 50 in
      let data := Uint8ClampedArray_put data (pixelIndex + 1) 100 in
      let data := Uint8ClampedArray_put data (pixelIndex + 2) 255 in
      Uint8ClampedArray_put data (pixelIndex + 3) (ToUint8Clamp intensity)) data.

(** The four bytes drawn for a field value. *)
Definition pixel_alpha (val : R) : Z := ToUint8Clamp (Rmin 255 (Rabs (val * 2000))).

Definition pixel_bytes (val : R) : list Z :=
  if Rlt_dec 0 val then [255; 50; 50; pixel_alpha val]
  else [50; 100; 255; pixel_alpha val].

(** The image data when the pixel loop stands at cell [i]. *)
Definition pixels_inv (solver : WaveSolver) (len : nat) (i : Z) (data : list Z) : Prop :=
  List.length data = len
  /\ forall i' k,
       0 <= i' < i -> (k < 4)%nat ->
       data !! (Z.to_nat (i' * 4) + k)%nat = pixel_bytes (F.get (u solver) i') !! k.

(** ** The transmission graph ([App.tsx]) *)

(** [for (let i = lo; i < hi; i += stride) body], for a positive stride. *)
Fixpoint iter_by {St : Type} (n : nat) (i stride : Z) (body : Z -> St -> St) (st : St) : St :=
  match n with
  | O => st
  | S n' => iter_by n' (i + stride) stride body (body i st)
  end.

Definition for_range_by {St : Type} (lo hi stride : Z) (body : Z -> St -> St) (st : St) : St :=
  iter_by (Z.to_nat ((hi - lo + stride - 1) / stride)) lo stride body st.

(** The accumulators of the scan of the velocity map; [None] stands for
    [Infinity] in [minC] and for [-Infinity] in [maxC]. *)
Record VelocityScan := {
  totalC : R;
  minC : option R;
  maxC : option R;
  nonAirPixels : Z;
  count : Z
}.

Record DataPoint := { freq : Z; db : R }.

(** [updateTransmissionGraph]: the data handed to [setTransmissionData].
    [random k] is the result of the call of [Math.random()] in the
    iteration number [k] of the frequency loop.  The velocities read are
    taken to be positive, as they are in every state the application
    reaches: JavaScript's NaN and infinities (square root of a negative
    entry, division by a zero [minC]) have no counterpart here.  With no
    sample at all JavaScript gets NaN for [avgC] and [fillingFraction], which
    fails every comparison of [hasBandgap] as the 0 computed here does. *)
Definition updateTransmissionGraph (random : nat -> R) (solver : WaveSolver)
    : list DataPoint :=
  let size := size solver in
  let stride := 4 in
  let airC := speedOfSound (MATERIALS AIR) in
  let scan :=
    for_range_by 0 (size * size) stride (fun i scan =>
      let c2 := F.get (velocityMap solver) i in
      let c := sqrt c2 in
      let totalC := (totalC scan + c)%R in
      let minC :=
        match minC scan with
        | None => Some c
        | Some m => if Rlt_dec c m then Some c else Some m
        end in
      let maxC :=
        match maxC scan with
        | None => Some c
        | Some m => if Rlt_dec m c then Some c else Some m
        end in
      let nonAirPixels :=
        if Rlt_dec 10 (Rabs (c - airC)) then nonAirPixels scan + 1
        else nonAirPixels scan in
      {| totalC := totalC; minC := minC; maxC := maxC;
         nonAirPixels := nonAirPixels; count := count scan + 1 |})
      {| totalC := 0; minC := None; maxC := None; nonAirPixels := 0; count := 0 |} in
  let avgC := (totalC scan / IZR (count scan))%R in
  let fillingFraction := (IZR (nonAirPixels scan) / IZR (count scan))%R in
  let safeMinC := match minC scan with None => 343%R | Some m => m end in
  let safeMaxC := match maxC scan with None => 343%R | Some m => m end in
  let contrast := (safeMaxC / safeMinC)%R in
  let hasBandgap :=
    if Rlt_dec 1.2 contrast
    then if Rlt_dec 0.05 fillingFraction
         then if Rlt_dec fillingFraction 0.95 then true else false
         else false
    else false in
  let centerFreq := (2500 * (avgC / 343))%R in
  let gapWidth :=
    if hasBandgap
    then (2000 * (ln contrast / ln 10 * 2)
          * (4 * fillingFraction * (1 - fillingFraction)))%R
    else 0%R in
  snd (for_range_by 200 5001 50 (fun f '(calls, newData) =>
    let db := (-2 - random calls * 2)%R in
    let db := (db - (IZR f / 5000) * 3)%R in
    let db :=
      if hasBandgap then
        let dist := Rabs (IZR f - centerFreq) in
        if Rlt_dec dist (gapWidth / 2) then
          let depth := (20 + contrast * 3)%R in
          let normalizedDist := (dist / (gapWidth / 2))%R in
          let shape := (1 - normalizedDist ^ 2)%R in
          (db - depth * shape)%R
        else db
      else db in
    (S calls, newData ++ [{| freq := f; db := db |}])) (O, [])).

(** The data point [updateTransmissionGraph] computes in the iteration
    number [k] of its frequency loop, from the quantities found before the
    loop. *)
Definition graph_point (random : nat -> R) (hasBandgap : bool)
    (contrast centerFreq gapWidth : R) (k : nat) : DataPoint :=
  let f := 200 + Z.of_nat k * 50 in
  let db := (-2 - random k * 2)%R in
  let db := (db - (IZR f / 5000) * 3)%R in
  let db :=
    if hasBandgap then
      let dist := Rabs (IZR f - centerFreq) in
      if Rlt_dec dist (gapWidth / 2) then
        let depth := (20 + contrast * 3)%R in
        let normalizedDist := (dist / (gapWidth / 2))%R in
        let shape := (1 - normalizedDist ^ 2)%R in
        (db - depth * shape)%R
      else db
    else db in
  {| freq := f; db := db |}.

(** The point of the curve without a band gap: insertion loss, noise and
    absorption. *)
Definition baseline_point (random : nat -> R) (k : nat) : DataPoint :=
  {| freq := 200 + Z.of_nat k * 50;
     db := (-2 - random k * 2 - (IZR (200 + Z.of_nat k * 50) / 5000) * 3)%R |}.

(** ** Vocabulary for the further properties *)

(** Both fields vanish at every cell of the grid more than [r] steps away
    from the cell [(sx, sy)], counting steps between 4-neighbours. *)
Definition at_rest_beyond (g : WaveSolver) (sx sy r : Z) : Prop :=
  forall cx cy,
    in_grid (size g) cx cy ->
    r < Z.abs (cx - sx) + Z.abs (cy - sy) ->
    F.get (u g) (cy * size g + cx) = 0%R
    /\ F.get (uPrev g) (cy * size g + cx) = 0%R.

(** The cell-wise combination [k1 * a1 + k2 * a2] of two arrays. *)
Definition superpose_arrays (k1 : R) (a1 : F.t) (k2 : R) (a2 : F.t) : F.t :=
  zip_with (fun v1 v2 => (k1 * v1 + k2 * v2)%R) a1 a2.

(** The combination of the fields of two solvers over the maps of the
    first. *)
Definition superpose (k1 : R) (g1 : WaveSolver) (k2 : R) (g2 : WaveSolver) : WaveSolver :=
  {| u := superpose_arrays k1 (u g1) k2 (u g2);
     uPrev := superpose_arrays k1 (uPrev g1) k2 (uPrev g2);
     velocityMap := velocityMap g1;
     dampingMap := dampingMap g1;
     size := size g1 |}.

(** The solver states the application reaches: it constructs a solver of
    size [n], then paints, steps, clears the fields and resets. *)
Inductive reachable (n : Z) : WaveSolver -> Prop :=
| reach_constructor g :
    constructor n = Some g -> reachable n g
| reach_updateMaterial g x y material brushSize :
    reachable n g -> reachable n (updateMaterial x y material brushSize g)
| reach_stepOptimized g g' sourceFreq sourceAmp sourceX sourceY time :
    reachable n g ->
    stepOptimized sourceFreq sourceAmp sourceX sourceY time g = Some g' ->
    reachable n g'
| reach_handleClearFields g :
    reachable n g -> reachable n (handleClearFields g)
| reach_handleReset g :
    reachable n g -> reachable n (handleReset g).

(** What holds of every reachable state. *)
Definition solver_invariant (n : Z) (g : WaveSolver) : Prop :=
  size g = n
  /\ well_formed g
  /\ (forall j, 0 <= j < n * n ->
        exists material,
          F.get (velocityMap g) j = (speedOfSound (MATERIALS material) ^ 2)%R)
  /\ (forall cx cy, in_grid n cx cy ->
        F.get (dampingMap g) (cy * n + cx) = damping_profile 10 (edge_distance n cx cy))
  /\ (forall cx cy, edge n cx cy -> F.get (u g) (cy * n + cx) = 0%R).

(** ** The boundary layer, before the clamp *)

(** The local [dampingFactor] of [applyBoundaries] at distance [dist] from
    the closest side: the second argument of [Math.max(0.8, ...)]. *)
Definition dampingFactor (padding dist : Z) : R :=
  (1.0 - 0.1 * (IZR (padding - dist) / IZR padding))%R.

(** ** Repeated steps *)

(** [n] successive calls of [stepOptimized] with one source, the call
    number [k] (counted from 0) at the time [time k]; [None] when one of
    the calls throws. *)
Fixpoint stepOptimized_iter (sourceFreq sourceAmp sourceX sourceY : R)
    (time : nat -> R) (n : nat) (this : WaveSolver) : option WaveSolver :=
  match n with
  | O => Some this
  | S n' =>
      this ← stepOptimized_iter sourceFreq sourceAmp sourceX sourceY time n' this;
      stepOptimized sourceFreq sourceAmp sourceX sourceY (time n') this
  end.

(** The times of the steps of an animation frame that starts with the
    step counter at [timeRef]. *)
Definition frame_time (timeRef : Z) (k : nat) : R :=
  (IZR (timeRef + Z.of_nat k + 1) * 0.000005)%R.

(** ** The discrete energy of the scheme

    Sums over the cells of the grid, by linear index. *)

Fixpoint sum_from (lo : Z) (n : nat) (f : Z -> R) : R :=
  match n with
  | O => 0%R
  | S n' => (f lo + sum_from (lo + 1) n' f)%R
  end.

Definition sum_range (lo hi : Z) (f : Z -> R) : R :=
  sum_from lo (Z.to_nat (hi - lo)) f.

Definition cells_sum (s : Z) (f : Z -> R) : R := sum_range 0 (s * s) f.

(** The indices between the first and the last interior cell of a grid of
    size [s]. *)
Definition inner_range (s i : Z) : Prop := 0 < s /\ s + 1 <= i < s * s - s - 1.

Definition supported (s : Z) (h : Z -> R) : Prop :=
  forall i, ~ inner_range s i -> h i = 0%R.

(** The undamped update of a cell with [r = c^2 * dt^2 / dx^2], without the
    previous field: [2 * a[i] + r * laplacian]. *)
Definition stencil (s : Z) (r : R) (a : Z -> R) (i : Z) : R :=
  ((2 - 4 * r) * a i
   + r * (a (i + 1)%Z + a (i - 1)%Z + a (i + s)%Z + a (i - s)%Z))%R.

(** The energy of two successive fields [a] (the later one) and [b], for
    the inverse damping [e]. *)
Definition energy (s : Z) (r : R) (e a b : Z -> R) : R :=
  cells_sum s (fun i => (e i + 1) / 2 * (a i ^ 2 + b i ^ 2) - b i * stencil s r a i)%R.

(** The free cells: the interior cells other than the source cell.  They
    are the cells whose value the sweep computes and the source store does
    not overwrite. *)
Definition freeb (s src i : Z) : bool :=
  (0 <? i mod s) && (i mod s <? s - 1) && (0 <? i / s) && (i / s <? s - 1)
  && negb (i =? src).

(** An array restricted to the free cells. *)
Definition free_field (s src : Z) (a : F.t) (i : Z) : R :=
  if freeb s src i then F.get a i else 0%R.

Definition at_source (src j : Z) : R := if j =? src then 1%R else 0%R.

(** How many of the four neighbours of a free cell are the source cell. *)
Definition source_coupling (s src i : Z) : R :=
  if freeb s src i
  then (at_source src (i + 1) + at_source src (i - 1)
        + at_source src (i + s) + at_source src (i - s))%R
  else 0%R.

(** The inverse of the damping at the free cells. *)
Definition inverse_damping (s src : Z) (d : F.t) (i : Z) : R :=
  if freeb s src i then (/ F.get d i)%R else 1%R.

(** The energy of a solver whose velocity map holds [v] everywhere, for the
    source cell [src]. *)
Definition solver_energy (src : Z) (v : R) (g : WaveSolver) : R :=
  energy (size g) (v * ((DT * DT) / (DX * DX)))
    (inverse_damping (size g) src (dampingMap g))
    (free_field (size g) src (u g))
    (free_field (size g) src (uPrev g)).

(** What [n] steps from rest keep on a grid of size [s] whose velocity
    map holds [v] everywhere and whose damping lies in (0, 1], for a source
    at the cell [src] whose values are bounded by [A]: the energy grows at
    most like [n^2], the free cells and the field at most like [n^2]. *)
Definition growth_inv (src : Z) (v A : R) (s : Z) (n : nat) (g : WaveSolver) : Prop :=
  let r := (v * ((DT * DT) / (DX * DX)))%R in
  well_formed g /\ size g = s
  /\ (forall j, 0 <= j < s * s -> F.get (velocityMap g) j = v)
  /\ (forall j, 0 <= j < s * s -> (0 < F.get (dampingMap g) j <= 1)%R)
  /\ (forall cx cy, edge s cx cy -> F.get (u g) (cy * s + cx) = 0%R)
  /\ (Rabs (F.get (uPrev g) src) <= A)%R
  /\ ((1 - 2 * r) * solver_energy src v g <= 2 * (4 * r ^ 2 * A ^ 2) * INR n ^ 2)%R
  /\ (forall i,
        (Rabs (free_field s src (u g) i) <= A * (INR n * (INR n + 1) / 20))%R)
  /\ (forall j, (Rabs (F.get (u g) j) <= A * (3 + INR n * (INR n + 1) / 20))%R).

(** ** Typed-array lemmas *)

Lemma F_length_put (a : F.t) (i : Z) (v : R) : F.length (F.put a i v) = F.length a.
Proof.
  unfold F.length, F.put. destruct (0 <=? i); [rewrite length_insert|]; reflexivity.
Qed.

Lemma F_get_put_eq (a : F.t) (i : Z) (v : R) :
  0 <= i < F.length a -> F.get (F.put a i v) i = v.
Proof.
  unfold F.length, F.get, F.put. intros [H0 H1].
  destruct (Z.leb_spec 0 i) as [_|]; [|lia].
  rewrite list_lookup_insert_eq by lia. reflexivity.
Qed.

Lemma F_get_put_ne (a : F.t) (i j : Z) (v : R) :
  i <> j -> F.get (F.put a i v) j = F.get a j.
Proof.
  unfold F.get, F.put. intros Hne.
  destruct (Z.leb_spec 0 i) as [Hi|]; [|reflexivity].
  destruct (Z.leb_spec 0 j) as [Hj|]; [|reflexivity].
  rewrite list_lookup_insert_ne by lia. reflexivity.
Qed.

Lemma F_get_put_out (a : F.t) (i j : Z) (v : R) :
  ~ (0 <= i < F.length a) -> F.get (F.put a i v) j = F.get a j.
Proof.
  unfold F.length, F.get, F.put. intros Hout.
  destruct (Z.leb_spec 0 i) as [Hi|]; [|reflexivity].
  rewrite list_insert_ge by lia. reflexivity.
Qed.

Lemma F_make_some (n : Z) : 0 <= n -> F.make n = Some (replicate (Z.to_nat n) 0%R).
Proof.
  intros Hn. unfold F.make. destruct (Z.ltb_spec n 0); [lia|reflexivity].
Qed.

Lemma F_length_zeros (n : Z) : 0 <= n -> F.length (replicate (Z.to_nat n) 0%R) = n.
Proof. intros Hn. unfold F.length. rewrite length_replicate. lia. Qed.

Lemma F_get_zeros (n : nat) (j : Z) : F.get (replicate n 0%R) j = 0%R.
Proof.
  unfold F.get. destruct (0 <=? j); [|reflexivity].
  destruct (replicate n 0%R !! Z.to_nat j) as [v|] eqn:E; [|reflexivity].
  apply lookup_replicate in E as [-> _]. reflexivity.
Qed.

Lemma F_set_same_length (target src : F.t) :
  F.length src = F.length target -> F.set target src = Some src.
Proof.
  intros Hlen. unfold F.set. rewrite Hlen, Z.leb_refl.
  unfold F.length in Hlen. rewrite drop_ge by lia. rewrite app_nil_r. reflexivity.
Qed.

Lemma F_ext (a b : F.t) :
  F.length a = F.length b ->
  (forall j, 0 <= j < F.length a -> F.get a j = F.get b j) ->
  a = b.
Proof.
  unfold F.length, F.get. intros Hlen Hget.
  apply list_eq. intros i.
  destruct (Nat.lt_ge_cases i (List.length a)) as [Hi|Hi].
  - specialize (Hget (Z.of_nat i) ltac:(lia)).
    destruct (Z.leb_spec 0 (Z.of_nat i)); [|lia].
    rewrite Nat2Z.id in Hget.
    destruct (lookup_lt_is_Some_2 a i Hi) as [va Ha].
    destruct (lookup_lt_is_Some_2 b i ltac:(lia)) as [vb Hb].
    rewrite Ha, Hb in *. simpl in Hget. congruence.
  - rewrite !lookup_ge_None_2 by lia. reflexivity.
Qed.

(** ** Loop lemmas *)

Lemma iter_from_ind {St : Type} (P : Z -> St -> Prop) (body : Z -> St -> St)
    (n : nat) (i : Z) (st : St) :
  P i st ->
  (forall k st, i <= k < i + Z.of_nat n -> P k st -> P (k + 1) (body k st)) ->
  P (i + Z.of_nat n) (iter_from n i body st).
Proof.
  revert i st. induction n as [|n IH]; intros i st H0 Hstep; simpl iter_from.
  - replace (i + Z.of_nat 0) with i by lia. exact H0.
  - replace (i + Z.of_nat (S n)) with ((i + 1) + Z.of_nat n) by lia.
    apply IH.
    + apply Hstep; [lia|exact H0].
    + intros k st' Hk. apply Hstep. lia.
Qed.

(** Invariant rule for a loop that runs: the invariant may mention the
    counter. *)
Lemma for_range_ind {St : Type} (P : Z -> St -> Prop) (lo hi : Z)
    (body : Z -> St -> St) (st : St) :
  lo <= hi ->
  P lo st ->
  (forall k st, lo <= k < hi -> P k st -> P (k + 1) (body k st)) ->
  P hi (for_range lo hi body st).
Proof.
  intros Hle H0 Hstep. unfold for_range.
  replace hi with (lo + Z.of_nat (Z.to_nat (hi - lo))) at 1 by lia.
  apply iter_from_ind; [exact H0|].
  intros k st' Hk. apply Hstep. lia.
Qed.

(** A loop whose range is empty does nothing. *)
Lemma for_range_empty {St : Type} (lo hi : Z) (body : Z -> St -> St) (st : St) :
  hi <= lo -> for_range lo hi body st = st.
Proof.
  intros Hle. unfold for_range.
  replace (Z.to_nat (hi - lo)) with O by lia. reflexivity.
Qed.

(** Invariant rule for a property that does not mention the counter. *)
Lemma for_range_inv {St : Type} (Q : St -> Prop) (lo hi : Z)
    (body : Z -> St -> St) (st : St) :
  Q st ->
  (forall k st, lo <= k < hi -> Q st -> Q (body k st)) ->
  Q (for_range lo hi body st).
Proof.
  intros H0 Hstep. destruct (Z.le_gt_cases lo hi) as [Hle|Hgt].
  - apply (for_range_ind (fun _ => Q)); assumption.
  - rewrite for_range_empty by lia. exact H0.
Qed.

(** ** Row-by-row array writes *)

Section Raster.

Variables (s : Z) (C : Z -> Z -> Prop) (a0 : F.t) (f : Z -> R).

Lemma written_iff (V V' : Z -> Prop) (a : F.t) :
  (forall j, V j <-> V' j) -> written a0 f V a -> written a0 f V' a.
Proof.
  intros Hiff (Hlen & HA & HB). repeat split; [exact Hlen| |].
  - intros j Hj. apply HA, Hiff, Hj.
  - intros j. destruct (HB j) as [Heq|[Hj Hr]]; [left; exact Heq|right].
    split; [apply Hiff, Hj|exact Hr].
Qed.

Lemma written_none (V : Z -> Prop) : (forall j, ~ V j) -> written a0 f V a0.
Proof.
  intros Hnone. repeat split.
  - intros j Hj. destruct (Hnone j Hj).
  - intros j. left. reflexivity.
Qed.

(** Storing [f k] at a further index [k]. *)
Lemma written_put (V : Z -> Prop) (a : F.t) (k : Z) :
  written a0 f V a -> written a0 f (fun j => V j \/ j = k) (F.put a k (f k)).
Proof.
  intros (Hlen & HA & HB). repeat split.
  - rewrite F_length_put. exact Hlen.
  - intros j Hj Hr. destruct (Z.eq_dec k j) as [->|Hne].
    + apply F_get_put_eq. rewrite Hlen. exact Hr.
    + rewrite F_get_put_ne by exact Hne.
      destruct Hj as [Hj|Hj]; [apply HA; assumption|congruence].
  - intros j. destruct (Z.eq_dec k j) as [<-|Hne].
    + assert (Hdec : 0 <= k < F.length a0 \/ ~ 0 <= k < F.length a0) by lia.
      destruct Hdec as [Hr|Hr].
      * right. split; [right; reflexivity|exact Hr].
      * rewrite F_get_put_out by (rewrite Hlen; exact Hr).
        destruct (HB k) as [Heq|[Hj Hr']]; [left; exact Heq|contradiction].
    + rewrite F_get_put_ne by exact Hne.
      destruct (HB j) as [Heq|[Hj Hr]]; [left; exact Heq|right].
      split; [left; exact Hj|exact Hr].
Qed.

(** The scan writes the cell it stands on. *)
Lemma written_cell (cx cy : Z) (a : F.t) :
  C cx cy ->
  written a0 f (raster_before s C cy cx) a ->
  written a0 f (raster_before s C cy (cx + 1)) (F.put a (cy * s + cx) (f (cy * s + cx))).
Proof.
  intros HC Hw. apply written_put with (k := cy * s + cx) in Hw.
  revert Hw. apply written_iff. intros j. split.
  - intros [(cx' & cy' & HC' & Hlt & Hj)|Hj].
    + exists cx', cy'. repeat split; [exact HC'|lia|exact Hj].
    + exists cx, cy. repeat split; [exact HC|lia|exact Hj].
  - intros (cx' & cy' & HC' & Hlt & Hj).
    destruct (Z.eq_dec cy' cy) as [Hcy|Hcy];
      [destruct (Z.eq_dec cx' cx) as [Hcx|Hcx]|].
    + right. subst. reflexivity.
    + left. exists cx', cy'. repeat split; [exact HC'|lia|exact Hj].
    + left. exists cx', cy'. repeat split; [exact HC'|lia|exact Hj].
Qed.

(** The scan passes over a cell outside [C]. *)
Lemma written_skip (cx cy : Z) (a : F.t) :
  ~ C cx cy ->
  written a0 f (raster_before s C cy cx) a ->
  written a0 f (raster_before s C cy (cx + 1)) a.
Proof.
  intros HC. apply written_iff. intros j.
  split; intros (cx' & cy' & HC' & Hlt & Hj); exists cx', cy';
    (repeat split; [exact HC'| |exact Hj]).
  - lia.
  - destruct (Z.eq_dec cy' cy) as [Hcy|Hcy];
      [destruct (Z.eq_dec cx' cx) as [Hcx|Hcx]|]; [subst; contradiction|lia|lia].
Qed.

(** Moving the scan between two positions with the same cells of [C]
    behind them: from the end of a row to the start of the next. *)
Lemma written_shift (ylim xlim ylim' xlim' : Z) (a : F.t) :
  (forall cx cy, C cx cy ->
     (cy < ylim \/ (cy = ylim /\ cx < xlim)) <->
     (cy < ylim' \/ (cy = ylim' /\ cx < xlim'))) ->
  written a0 f (raster_before s C ylim xlim) a ->
  written a0 f (raster_before s C ylim' xlim') a.
Proof.
  intros Hiff. apply written_iff. intros j.
  split; intros (cx & cy & HC & Hlt & Hj); exists cx, cy;
    (repeat split; [exact HC|apply (Hiff cx cy HC), Hlt|exact Hj]).
Qed.

Lemma written_first (ylim xlim : Z) :
  (forall cx cy, C cx cy -> ~ (cy < ylim \/ (cy = ylim /\ cx < xlim))) ->
  written a0 f (raster_before s C ylim xlim) a0.
Proof.
  intros Hnone. apply written_none.
  intros j (cx & cy & HC & Hlt & _). exact (Hnone cx cy HC Hlt).
Qed.

Lemma written_last (ylim xlim : Z) (a : F.t) :
  (forall cx cy, C cx cy -> cy < ylim \/ (cy = ylim /\ cx < xlim)) ->
  written a0 f (raster_before s C ylim xlim) a ->
  written a0 f (raster_all s C) a.
Proof.
  intros Hall. apply written_iff. intros j. split.
  - intros (cx & cy & HC & _ & Hj). exists cx, cy. auto.
  - intros (cx & cy & HC & Hj). exists cx, cy. auto.
Qed.

End Raster.

(** A cell of the grid is determined by its linear index. *)
Lemma cell_index_inj (s cx cy cx' cy' : Z) :
  0 <= cx < s -> 0 <= cx' < s -> cy * s + cx = cy' * s + cx' -> cx = cx' /\ cy = cy'.
Proof.
  intros Hx Hx' Heq.
  destruct (Z.lt_trichotomy cy cy') as [Hlt|[Heq'|Hgt]]; [exfalso; nia|subst; lia|exfalso; nia].
Qed.

Lemma cell_index_range (s cx cy : Z) : in_grid s cx cy -> 0 <= cy * s + cx < s * s.
Proof. unfold in_grid. nia. Qed.

(** The stencil of an interior cell stays inside the array: the sweep never
    reads out of range on a well-formed grid. *)
Lemma interior_stencil_in_range (s cx cy : Z) :
  interior s cx cy ->
  let i := cy * s + cx in
  0 <= i - s /\ 0 <= i - 1 /\ i + 1 < s * s /\ i + s < s * s.
Proof. unfold interior. intros [Hcx Hcy]. cbv zeta. nia. Qed.

Lemma WaveSolver_eq (a b : WaveSolver) :
  u a = u b -> uPrev a = uPrev b -> velocityMap a = velocityMap b ->
  dampingMap a = dampingMap b -> size a = size b -> a = b.
Proof.
  destruct a, b; simpl; intros; subst; reflexivity.
Qed.

(** ** Painting *)

Section Paint.

Variables (x y brushSize : Z) (material : MaterialType) (g : WaveSolver).

Let s := size g.
Let r := brushSize / 2.
Let c2 := (speedOfSound (MATERIALS material) * speedOfSound (MATERIALS material))%R.

Local Abbreviation Inv := (paint_inv x y r c2 g).

(** One iteration of the inner loop. *)
Lemma paint_inv_cell (dy dx : Z) (this : WaveSolver) :
  - r <= dy <= r -> - r <= dx <= r ->
  Inv (y + dy) (x + dx) this ->
  Inv (y + dy) (x + (dx + 1))
    (let nx := x + dx in
     let ny := y + dy in
     if (nx >=? 0) && (nx <? size this) && (ny >=? 0) && (ny <? size this)
     then with_velocityMap (F.put (velocityMap this) (ny * size this + nx) c2) this
     else this).
Proof.
  intros Hdy Hdx (Hs & Hu & Hp & Hd & Hw). cbv zeta. rewrite Hs. fold s in Hw |- *.
  replace (x + (dx + 1)) with (x + dx + 1) by lia.
  destruct ((x + dx >=? 0) && (x + dx <? s) && (y + dy >=? 0) && (y + dy <? s)) eqn:Hguard.
  - unfold paint_inv, with_velocityMap; simpl. fold s.
    do 4 (split; [assumption|]).
    apply (written_cell s (in_brush s x y r) (velocityMap g) (fun _ => c2));
      [|exact Hw].
    unfold in_brush, in_grid. lia.
  - do 4 (split; [assumption|]). fold s.
    apply written_skip; [|exact Hw].
    intros [[Hcx Hcy] _]. lia.
Qed.

(** One iteration of the outer loop: a whole row of the brush. *)
Lemma paint_inv_row (dy : Z) (this : WaveSolver) :
  - r <= dy <= r ->
  Inv (y + dy) (x - r) this ->
  Inv (y + (dy + 1)) (x - r)
    (for_range (- r) (r + 1) (fun dx this =>
       let nx := x + dx in
       let ny := y + dy in
       if (nx >=? 0) && (nx <? size this) && (ny >=? 0) && (ny <? size this)
       then with_velocityMap (F.put (velocityMap this) (ny * size this + nx) c2) this
       else this) this).
Proof.
  intros Hdy Hinv.
  assert (Hrow : Inv (y + dy) (x + (r + 1))
            (for_range (- r) (r + 1) (fun dx this =>
               let nx := x + dx in
               let ny := y + dy in
               if (nx >=? 0) && (nx <? size this) && (ny >=? 0) && (ny <? size this)
               then with_velocityMap (F.put (velocityMap this) (ny * size this + nx) c2) this
               else this) this)).
  { apply (for_range_ind (fun dx => Inv (y + dy) (x + dx))); [lia| |].
    - replace (x + - r) with (x - r) by lia. exact Hinv.
    - intros dx this' Hdx. apply paint_inv_cell; lia. }
  destruct Hrow as (Hs & Hu & Hp & Hd & Hw).
  do 4 (split; [assumption|]).
  revert Hw. apply written_shift. intros cx cy (_ & Hcx & Hcy). lia.
Qed.

Lemma updateMaterial_inv :
  size (updateMaterial x y material brushSize g) = size g
  /\ u (updateMaterial x y material brushSize g) = u g
  /\ uPrev (updateMaterial x y material brushSize g) = uPrev g
  /\ dampingMap (updateMaterial x y material brushSize g) = dampingMap g
  /\ written (velocityMap g) (fun _ => c2) (painted s x y r)
       (velocityMap (updateMaterial x y material brushSize g)).
Proof.
  assert (Hfirst : Inv (y + - r) (x - r) g).
  { do 4 (split; [reflexivity|]). apply written_first.
    intros cx cy (_ & Hcx & Hcy). lia. }
  assert (Hinv : Inv (y + (r + 1)) (x - r) (updateMaterial x y material brushSize g)).
  { unfold updateMaterial. fold r. fold c2.
    destruct (Z.le_gt_cases (- r) (r + 1)) as [Hle|Hgt].
    - apply (for_range_ind (fun dy => Inv (y + dy) (x - r))); [exact Hle|exact Hfirst|].
      intros dy this Hdy. apply paint_inv_row. lia.
    - rewrite for_range_empty by lia.
      destruct Hfirst as (Hs & Hu & Hp & Hd & Hw). do 4 (split; [assumption|]).
      revert Hw. apply written_shift. intros cx cy (_ & Hcx & Hcy). lia. }
  destruct Hinv as (Hs & Hu & Hp & Hd & Hw). do 4 (split; [assumption|]).
  apply (written_last _ _ _ _ (y + (r + 1)) (x - r)) in Hw; [exact Hw|].
  intros cx cy (_ & Hcx & Hcy). lia.
Qed.

End Paint.

(** C6.  [updateMaterial] (paint) sets [velocityMap[cy * size + cx]] to the
    square of the material's sound speed for exactly the cells [(cx, cy)] of
    the grid with [|cx - x| <= floor(brushSize / 2)] and
    [|cy - y| <= floor(brushSize / 2)]; neighbours outside the grid are
    skipped (the function is total: nothing throws); every other entry of
    [velocityMap] and the three other arrays are unchanged. *)
Theorem updateMaterial_paints_brush
    (x y brushSize : Z) (material : MaterialType) (g : WaveSolver) :
  F.length (velocityMap g) = size g * size g ->
  let g' := updateMaterial x y material brushSize g in
  let r := brushSize / 2 in
  (forall cx cy, in_brush (size g) x y r cx cy ->
     F.get (velocityMap g') (cy * size g + cx) = (speedOfSound (MATERIALS material) ^ 2)%R)
  /\ (forall j, ~ painted (size g) x y r j ->
        F.get (velocityMap g') j = F.get (velocityMap g) j)
  /\ F.length (velocityMap g') = F.length (velocityMap g)
  /\ u g' = u g /\ uPrev g' = uPrev g /\ dampingMap g' = dampingMap g
  /\ size g' = size g.
Proof.
  intros Hlen g' r.
  destruct (updateMaterial_inv x y brushSize material g)
    as (Hs & Hu & Hp & Hd & Hl & HA & HB).
  fold g' in Hs, Hu, Hp, Hd, Hl, HA, HB. fold r in HA, HB.
  repeat split; try assumption.
  - intros cx cy Hb. rewrite HA.
    + simpl. ring.
    + exists cx, cy. split; [exact Hb|reflexivity].
    + rewrite Hlen. apply cell_index_range, Hb.
  - intros j Hnot. destruct (HB j) as [Heq|[Hj _]]; [exact Heq|contradiction].
Qed.

(** C9.  [updateMaterial] is idempotent: painting twice with the same
    arguments leaves the grid (all four arrays and the size) as painting
    once does. *)
Theorem updateMaterial_idempotent
    (x y brushSize : Z) (material : MaterialType) (g : WaveSolver) :
  updateMaterial x y material brushSize (updateMaterial x y material brushSize g)
  = updateMaterial x y material brushSize g.
Proof.
  set (g1 := updateMaterial x y material brushSize g).
  destruct (updateMaterial_inv x y brushSize material g)
    as (Hs & Hu & Hp & Hd & Hl & HA & _).
  destruct (updateMaterial_inv x y brushSize material g1)
    as (Hs' & Hu' & Hp' & Hd' & Hl' & HA' & HB').
  fold g1 in Hs, Hu, Hp, Hd, Hl, HA.
  apply WaveSolver_eq; try assumption.
  apply F_ext; [exact Hl'|].
  intros j Hj. destruct (HB' j) as [Heq|[Hv Hr]]; [exact Heq|].
  rewrite (HA' j Hv Hr). symmetry.
  rewrite Hs in Hv. apply HA; [exact Hv|]. rewrite <- Hl. exact Hr.
Qed.

(** ** The sweep of [stepOptimized] *)

Section Sweep.

Variables (this : WaveSolver) (uNext0 : F.t).

Let s := size this.

Lemma sweep_inv_row (y : Z) (uNext : F.t) :
  1 <= y < s - 1 ->
  written uNext0 (cell_update this) (raster_before s (interior s) y 1) uNext ->
  sweep_inv this uNext0 y (s - 1)
    (for_range 1 (s - 1) (fun x '(i, uNext) =>
       (i + 1, F.put uNext i (cell_update this i))) (y * s + 1, uNext)).
Proof.
  intros Hy Hw.
  apply (for_range_ind (fun x => sweep_inv this uNext0 y x)); [lia| |].
  - split; [reflexivity|exact Hw].
  - intros x [i a] Hx [Hi Ha]. simpl in Hi, Ha. fold s in Hi, Ha. subst i.
    split; simpl; fold s; [lia|].
    apply written_cell; [|exact Ha]. unfold interior. lia.
Qed.

(** After the sweep the next buffer holds [cell_update this j] at the
    interior indices and is otherwise as allocated. *)
Lemma sweep_written :
  written uNext0 (cell_update this) (raster_all s (interior s)) (sweep this uNext0).
Proof.
  assert (Hfirst : written uNext0 (cell_update this)
                     (raster_before s (interior s) 1 1) uNext0).
  { apply written_first. intros cx cy [Hcx Hcy]. lia. }
  apply (written_last _ _ _ _ (s - 1) 1); [intros cx cy [Hcx Hcy]; lia|].
  unfold sweep. fold s.
  destruct (Z.le_gt_cases 1 (s - 1)) as [Hle|Hgt].
  - apply (for_range_ind
             (fun y => written uNext0 (cell_update this) (raster_before s (interior s) y 1)));
      [exact Hle|exact Hfirst|].
    intros y uNext Hy Hw.
    destruct (sweep_inv_row y uNext Hy Hw) as [_ Hrow].
    revert Hrow. apply written_shift. intros cx cy [Hcx Hcy]. lia.
  - rewrite for_range_empty by lia.
    revert Hfirst. apply written_shift. intros cx cy [Hcx Hcy]. lia.
Qed.

End Sweep.

(** On a well-formed grid [stepOptimized] throws nothing, and the new state
    is: [uPrev] the field the sweep read, [u] the swept buffer. *)
Lemma stepOptimized_spec (sourceFreq sourceAmp sourceX sourceY time : R)
    (g : WaveSolver) :
  well_formed g ->
  let g1 := injectSource sourceFreq sourceAmp sourceX sourceY time g in
  stepOptimized sourceFreq sourceAmp sourceX sourceY time g
  = Some {| u := sweep g1 (replicate (Z.to_nat (size g * size g)) 0%R);
            uPrev := u g1;
            velocityMap := velocityMap g;
            dampingMap := dampingMap g;
            size := size g |}.
Proof.
  intros (Hu & Hp & Hv & Hd). cbv zeta.
  assert (Hsq : 0 <= size g * size g) by nia.
  unfold stepOptimized, injectSource, sourceIdx, sourceValue. cbv zeta.
  rewrite (F_make_some _ Hsq). simpl.
  match goal with
  | |- context [sweep ?g1 ?zeros] => destruct (sweep_written g1 zeros) as (Hlen & _)
  end.
  rewrite F_length_zeros in Hlen by exact Hsq.
  rewrite F_set_same_length by (rewrite F_length_put; lia). simpl.
  rewrite F_set_same_length by (rewrite F_length_put; lia). simpl.
  reflexivity.
Qed.

Lemma DX_nonzero : DX <> 0%R.
Proof. unfold DX. lra. Qed.

(** The code's expression is the update rule of the specification. *)
Lemma cell_update_next_value (g : WaveSolver) (i : Z) : cell_update g i = next_value g i.
Proof.
  unfold cell_update, next_value. cbv zeta. pose proof DX_nonzero. field. assumption.
Qed.

Lemma injectSource_well_formed (sourceFreq sourceAmp sourceX sourceY time : R)
    (g : WaveSolver) :
  well_formed g ->
  well_formed (injectSource sourceFreq sourceAmp sourceX sourceY time g).
Proof.
  intros (Hu & Hp & Hv & Hd). unfold well_formed, injectSource; simpl.
  rewrite F_length_put. auto.
Qed.

(** An edge cell is none of the cells the sweep writes. *)
Lemma edge_not_swept (s cx cy : Z) :
  edge s cx cy -> ~ raster_all s (interior s) (cy * s + cx).
Proof.
  intros [[Hcx Hcy] Hedge] (cx' & cy' & [Hx' Hy'] & Heq).
  apply cell_index_inj in Heq; [|lia..]. lia.
Qed.

(** C1.  One call of [stepOptimized] on a grid whose arrays have
    [size * size] cells sets [u] at every interior cell [i] to
    [dampingMap[i] * (2*u[i] - uPrev[i] + velocityMap[i] * (DT/DX)^2 *
    (u[i+1] + u[i-1] + u[i+size] + u[i-size] - 4*u[i]))], where the [u] read
    is the field after the source value was stored and [uPrev] is the
    previous field as it was before the call. *)
Theorem stepOptimized_interior_update
    (sourceFreq sourceAmp sourceX sourceY time : R) (g : WaveSolver) (cx cy : Z) :
  well_formed g ->
  interior (size g) cx cy ->
  let presweep :=
    {| u := F.put (u g) (sourceIdx (size g) sourceX sourceY)
                  (sourceAmp * sin (2 * PI * sourceFreq * time))%R;
       uPrev := uPrev g;
       velocityMap := velocityMap g;
       dampingMap := dampingMap g;
       size := size g |} in
  exists g',
    stepOptimized sourceFreq sourceAmp sourceX sourceY time g = Some g'
    /\ F.get (u g') (cy * size g + cx) = next_value presweep (cy * size g + cx).
Proof.
  intros Hwf Hint presweep.
  eexists. split; [apply stepOptimized_spec; exact Hwf|]. simpl.
  change (injectSource sourceFreq sourceAmp sourceX sourceY time g) with presweep.
  rewrite <- cell_update_next_value.
  destruct (sweep_written presweep (replicate (Z.to_nat (size g * size g)) 0%R))
    as (_ & HA & _).
  apply HA.
  - exists cx, cy. split; [exact Hint|reflexivity].
  - rewrite F_length_zeros by nia.
    apply cell_index_range. unfold interior in Hint. unfold in_grid. lia.
Qed.

(** C3.  [stepOptimized] cycles three buffers.  After a call on a
    well-formed grid, [uPrev] is the field the sweep read (the old [u] with
    the source value stored), cell by cell, and [u] is the next buffer the
    sweep filled, starting from a fresh array of zeros.  The sweep only
    reads the two fields: what it stores at a cell is a function of the
    fields before the sweep, whatever the next buffer holds, so no cell sees
    a neighbour's new value. *)
Theorem stepOptimized_cycles_buffers
    (sourceFreq sourceAmp sourceX sourceY time : R) (g : WaveSolver) :
  well_formed g ->
  let presweep := injectSource sourceFreq sourceAmp sourceX sourceY time g in
  exists g',
    stepOptimized sourceFreq sourceAmp sourceX sourceY time g = Some g'
    /\ uPrev g' = u presweep
    /\ (forall i, F.get (uPrev g') i = F.get (u presweep) i)
    /\ u g' = sweep presweep (replicate (Z.to_nat (size g * size g)) 0%R)
    /\ (forall (uNext0 : F.t) cx cy,
          interior (size g) cx cy ->
          cy * size g + cx < F.length uNext0 ->
          F.get (sweep presweep uNext0) (cy * size g + cx)
          = cell_update presweep (cy * size g + cx))
    /\ velocityMap g' = velocityMap g /\ dampingMap g' = dampingMap g
    /\ size g' = size g /\ well_formed g'.
Proof.
  intros Hwf presweep.
  eexists. split; [apply stepOptimized_spec; exact Hwf|]. simpl.
  fold presweep.
  assert (Hsq : 0 <= size g * size g) by nia.
  pose proof (injectSource_well_formed sourceFreq sourceAmp sourceX sourceY time g Hwf)
    as (Hu1 & _).
  fold presweep in Hu1. change (size presweep) with (size g) in Hu1.
  do 3 (split; [reflexivity|]). split.
  { intros uNext0 cx cy Hint Hlt.
    destruct (sweep_written presweep uNext0) as (_ & HA & _).
    apply HA.
    + exists cx, cy. split; [exact Hint|reflexivity].
    + split; [|exact Hlt]. unfold interior in Hint.
      change (size presweep) with (size g). nia. }
  do 3 (split; [reflexivity|]).
  destruct Hwf as (Hu & Hp & Hv & Hd).
  unfold well_formed; simpl. repeat split; try assumption.
  destruct (sweep_written presweep (replicate (Z.to_nat (size g * size g)) 0%R))
    as (Hlen & _).
  rewrite Hlen. apply F_length_zeros, Hsq.
Qed.

Lemma sweep_edge_zero (this : WaveSolver) (n : nat) (cx cy : Z) :
  edge (size this) cx cy ->
  F.get (sweep this (replicate n 0%R)) (cy * size this + cx) = 0%R.
Proof.
  intros Hedge.
  destruct (sweep_written this (replicate n 0%R)) as (_ & _ & HB).
  destruct (HB (cy * size this + cx)) as [Heq|[Hv _]].
  - rewrite Heq. apply F_get_zeros.
  - exfalso. revert Hv. apply edge_not_swept. exact Hedge.
Qed.

(** C4, as the code has it.  After a call of [stepOptimized] on a
    well-formed grid every edge cell of [u] is 0: the sweep does not write
    the edge cells of the next buffer, which was allocated as zeros and
    then replaces [u].  [uPrev] at an edge cell becomes what [u] held there
    during the sweep: the old [u], or the source value when the source cell
    is that edge cell.  So an edge cell other than the source cell at which
    [u] was 0 before the call keeps [u] = 0, and [uPrev] is 0 there after the
    call. *)
Theorem stepOptimized_edge_cells
    (sourceFreq sourceAmp sourceX sourceY time : R) (g : WaveSolver) (cx cy : Z) :
  well_formed g ->
  edge (size g) cx cy ->
  let i := cy * size g + cx in
  exists g',
    stepOptimized sourceFreq sourceAmp sourceX sourceY time g = Some g'
    /\ F.get (u g') i = 0%R
    /\ F.get (uPrev g') i
       = F.get (F.put (u g) (sourceIdx (size g) sourceX sourceY)
                      (sourceAmp * sin (2 * PI * sourceFreq * time))%R) i
    /\ (i <> sourceIdx (size g) sourceX sourceY ->
        F.get (uPrev g') i = F.get (u g) i)
    /\ (i <> sourceIdx (size g) sourceX sourceY -> F.get (u g) i = 0%R ->
        F.get (u g') i = F.get (u g) i /\ F.get (uPrev g') i = 0%R).
Proof.
  intros Hwf Hedge i.
  eexists. split; [apply stepOptimized_spec; exact Hwf|]. simpl.
  set (presweep := injectSource sourceFreq sourceAmp sourceX sourceY time g).
  assert (Hzero : F.get (sweep presweep (replicate (Z.to_nat (size g * size g)) 0%R)) i = 0%R).
  { apply (sweep_edge_zero presweep). exact Hedge. }
  split; [exact Hzero|]. split; [reflexivity|]. split.
  - intros Hne. apply F_get_put_ne. congruence.
  - intros Hne H0. split; [congruence|].
    unfold sourceValue. rewrite F_get_put_ne by congruence. exact H0.
Qed.

(** ** The boundary layer *)

Lemma cell_index_div (s cx cy : Z) : 0 <= cx < s -> (cy * s + cx) / s = cy.
Proof.
  intros Hcx. rewrite Z.div_add_l by lia. rewrite Z.div_small by lia. lia.
Qed.

Lemma cell_index_mod (s cx cy : Z) : 0 <= cx < s -> (cy * s + cx) mod s = cx.
Proof.
  intros Hcx. rewrite Z.add_comm, Z.mod_add by lia. apply Z.mod_small. lia.
Qed.

Lemma boundary_guard (s x y : Z) :
  (x <? 10) || (x >=? s - 10) || (y <? 10) || (y >=? s - 10) = true
  <-> edge_distance s x y < 10.
Proof.
  unfold edge_distance, min4.
  rewrite !orb_true_iff, !Z.ltb_lt, !Z.geb_le. lia.
Qed.

Section Boundary.

Variable g : WaveSolver.

Let s := size g.

Lemma boundary_inv_cell (y x : Z) (this : WaveSolver) :
  0 <= y < s -> 0 <= x < s ->
  boundary_inv g y x this ->
  boundary_inv g y (x + 1)
    (let padding := 10 in
     if (x <? padding) || (x >=? size this - padding)
        || (y <? padding) || (y >=? size this - padding)
     then
       let idx := y * size this + x in
       let dist := min4 x (size this - 1 - x) y (size this - 1 - y) in
       let dampingFactor := (1.0 - 0.1 * (IZR (padding - dist) / IZR padding))%R in
       with_dampingMap (F.put (dampingMap this) idx (Rmax 0.8 dampingFactor)) this
     else this).
Proof.
  intros Hy Hx (Hs & Hu & Hp & Hv & Hw). cbv zeta. rewrite Hs. fold s in Hw |- *.
  destruct ((x <? 10) || (x >=? s - 10) || (y <? 10) || (y >=? s - 10)) eqn:Hguard.
  - apply boundary_guard in Hguard.
    unfold boundary_inv, with_dampingMap; simpl. fold s.
    do 4 (split; [assumption|]).
    replace (Rmax 0.8 (1.0 - 0.1 * (IZR (10 - min4 x (s - 1 - x) y (s - 1 - y)) / IZR 10)))
      with (layer_value s 10 (y * s + x)).
    + apply written_cell; [|exact Hw]. split; [split; assumption|exact Hguard].
    + unfold layer_value. cbv zeta.
      rewrite cell_index_div, cell_index_mod by exact Hx. reflexivity.
  - do 4 (split; [assumption|]). fold s.
    apply written_skip; [|exact Hw].
    intros [_ Hd]. apply boundary_guard in Hd. congruence.
Qed.

Lemma applyBoundaries_inv :
  size (applyBoundaries g) = size g
  /\ u (applyBoundaries g) = u g
  /\ uPrev (applyBoundaries g) = uPrev g
  /\ velocityMap (applyBoundaries g) = velocityMap g
  /\ written (dampingMap g) (layer_value s 10) (raster_all s (in_layer s 10))
       (dampingMap (applyBoundaries g)).
Proof.
  assert (Hfirst : boundary_inv g 0 0 g).
  { do 4 (split; [reflexivity|]). apply written_first.
    intros cx cy [[Hcx Hcy] _]. lia. }
  assert (Hinv : boundary_inv g s 0 (applyBoundaries g)).
  { unfold applyBoundaries. fold s.
    destruct (Z.le_gt_cases 0 s) as [Hle|Hgt].
    - apply (for_range_ind (fun y => boundary_inv g y 0)); [exact Hle|exact Hfirst|].
      intros y this Hy Hrow.
      assert (Hsz : size this = s) by apply Hrow.
      assert (Hend : boundary_inv g y s
                (for_range 0 (size this) (fun x this =>
                   if (x <? 10) || (x >=? size this - 10)
                      || (y <? 10) || (y >=? size this - 10)
                   then
                     let idx := y * size this + x in
                     let dist := min4 x (size this - 1 - x) y (size this - 1 - y) in
                     let dampingFactor := (1.0 - 0.1 * (IZR (10 - dist) / IZR 10))%R in
                     with_dampingMap (F.put (dampingMap this) idx (Rmax 0.8 dampingFactor)) this
                   else this) this)).
      { rewrite Hsz.
        apply (for_range_ind (fun x => boundary_inv g y x)); [lia|exact Hrow|].
        intros x this' Hx. apply boundary_inv_cell; lia. }
      destruct Hend as (Hs & Hu & Hp & Hv & Hw).
      do 4 (split; [assumption|]).
      revert Hw. apply written_shift. intros cx cy [[Hcx Hcy] _]. lia.
    - rewrite for_range_empty by lia.
      destruct Hfirst as (Hs & Hu & Hp & Hv & Hw).
      do 4 (split; [assumption|]).
      revert Hw. apply written_shift. intros cx cy [[Hcx Hcy] _]. lia. }
  destruct Hinv as (Hs & Hu & Hp & Hv & Hw).
  do 4 (split; [assumption|]).
  apply (written_last _ _ _ _ s 0) in Hw; [exact Hw|].
  intros cx cy [[Hcx Hcy] _]. lia.
Qed.

End Boundary.

Section Reset.

Variables (defaultMaterial : MaterialType) (g : WaveSolver).

Let c2 := (speedOfSound (MATERIALS defaultMaterial)
           * speedOfSound (MATERIALS defaultMaterial))%R.

Lemma reset_inv_step (i : Z) (this : WaveSolver) :
  0 <= i ->
  reset_inv c2 g i this ->
  reset_inv c2 g (i + 1)
    (let this := with_velocityMap (F.put (velocityMap this) i c2) this in
     with_dampingMap (F.put (dampingMap this) i 1.0%R) this).
Proof.
  intros Hi (Hs & Hu & Hp & Hv & Hd). cbv zeta.
  unfold reset_inv, with_dampingMap, with_velocityMap; simpl.
  do 3 (split; [assumption|]). split.
  - apply (written_put _ (fun _ => c2) _ _ i) in Hv.
    revert Hv. apply written_iff. intros j. lia.
  - apply (written_put _ (fun _ => 1.0%R) _ _ i) in Hd.
    revert Hd. apply written_iff. intros j. lia.
Qed.

(** [resetMaterialMap] on any grid: the fields are kept, every cell of
    [velocityMap] is the material's squared speed, and [dampingMap] is 1
    overwritten by the boundary layer. *)
Lemma resetMaterialMap_inv :
  exists damp1 : F.t,
    size (resetMaterialMap defaultMaterial g) = size g
    /\ u (resetMaterialMap defaultMaterial g) = u g
    /\ uPrev (resetMaterialMap defaultMaterial g) = uPrev g
    /\ written (velocityMap g) (fun _ => c2)
         (fun j => 0 <= j < F.length (velocityMap g))
         (velocityMap (resetMaterialMap defaultMaterial g))
    /\ written (dampingMap g) (fun _ => 1.0%R)
         (fun j => 0 <= j < F.length (velocityMap g)) damp1
    /\ written damp1 (layer_value (size g) 10)
         (raster_all (size g) (in_layer (size g) 10))
         (dampingMap (resetMaterialMap defaultMaterial g)).
Proof.
  unfold resetMaterialMap. fold c2.
  set (g1 := for_range 0 (F.length (velocityMap g)) _ g).
  assert (Hg1 : reset_inv c2 g (F.length (velocityMap g)) g1).
  { apply (for_range_ind (fun i => reset_inv c2 g i)).
    - unfold F.length. lia.
    - do 3 (split; [reflexivity|]). split; apply written_none; intros j; lia.
    - intros i this Hi. apply reset_inv_step. lia. }
  destruct Hg1 as (Hs & Hu & Hp & Hv & Hd).
  destruct (applyBoundaries_inv g1) as (Hs' & Hu' & Hp' & Hv' & Hd').
  exists (dampingMap g1).
  rewrite Hs', Hu', Hp', Hv'. rewrite Hs in Hd'.
  repeat (split; [assumption|]). exact Hd'.
Qed.

End Reset.

(** The distance to the closest side is not negative inside the grid. *)
Lemma edge_distance_nonneg (s x y : Z) : in_grid s x y -> 0 <= edge_distance s x y.
Proof. unfold in_grid, edge_distance, min4. lia. Qed.

Lemma damping_profile_layer (d : Z) :
  d < 10 ->
  damping_profile 10 d = Rmax 0.8 (1.0 - 0.1 * (IZR (10 - d) / IZR 10))%R.
Proof.
  intros Hd. unfold damping_profile.
  destruct (Z.geb_spec d 10) as [|_]; [lia|].
  f_equal. lra.
Qed.

Lemma damping_profile_bounds (d : Z) :
  0 <= d < 10 -> (0.8 <= damping_profile 10 d < 1)%R.
Proof.
  intros [Hd0 Hd]. rewrite damping_profile_layer by exact Hd.
  rewrite minus_IZR. apply IZR_le in Hd0. apply IZR_lt in Hd.
  unfold Rmax. destruct (Rle_dec 0.8 _); lra.
Qed.

Lemma damping_profile_mono (d1 d2 : Z) :
  0 <= d1 <= d2 -> (damping_profile 10 d1 <= damping_profile 10 d2)%R.
Proof.
  intros [Hd0 Hle].
  destruct (Z.lt_ge_cases d2 10) as [Hd2|Hd2].
  - rewrite !damping_profile_layer by lia. rewrite !minus_IZR.
    apply IZR_le in Hle.
    apply Rmax_case; [apply Rmax_l|].
    eapply Rle_trans; [|apply Rmax_r]. lra.
  - destruct (Z.lt_ge_cases d1 10) as [Hd1|Hd1].
    + pose proof (damping_profile_bounds d1 ltac:(lia)) as Hb.
      unfold damping_profile at 2. destruct (Z.geb_spec d2 10); [lra|lia].
    + unfold damping_profile.
      destruct (Z.geb_spec d1 10); [|lia]. destruct (Z.geb_spec d2 10); [lra|lia].
Qed.

(** The damping of one cell after [resetMaterialMap]. *)
Lemma resetMaterialMap_damping_cell
    (defaultMaterial : MaterialType) (g : WaveSolver) (cx cy : Z) :
  F.length (velocityMap g) = size g * size g ->
  F.length (dampingMap g) = size g * size g ->
  in_grid (size g) cx cy ->
  F.get (dampingMap (resetMaterialMap defaultMaterial g)) (cy * size g + cx)
  = damping_profile 10 (edge_distance (size g) cx cy).
Proof.
  intros Hlv Hld Hin.
  destruct (resetMaterialMap_inv defaultMaterial g)
    as (damp1 & _ & _ & _ & _ & (Hl1 & HA1 & _) & (Hl2 & HA2 & HB2)).
  pose proof (cell_index_range _ _ _ Hin) as Hr.
  destruct (Z.lt_ge_cases (edge_distance (size g) cx cy) 10) as [Hd|Hd].
  - rewrite HA2.
    + rewrite damping_profile_layer by exact Hd.
      unfold layer_value. cbv zeta.
      rewrite cell_index_div, cell_index_mod by apply Hin. reflexivity.
    + exists cx, cy. split; [split; assumption|reflexivity].
    + rewrite Hl1, Hld. exact Hr.
  - destruct (HB2 (cy * size g + cx)) as [Heq|[(cx' & cy' & [Hin' Hd'] & Hj) _]].
    + rewrite Heq, HA1 by (rewrite ?Hlv, ?Hld; exact Hr).
      unfold damping_profile. destruct (Z.geb_spec (edge_distance (size g) cx cy) 10); [lra|lia].
    + apply cell_index_inj in Hj; [|apply Hin|apply Hin'].
      destruct Hj; subst. lia.
Qed.

(** C5.  After [resetMaterialMap] (which ends with [applyBoundaries],
    padding 10) on a grid whose maps have [size * size] cells, the damping
    of a cell at distance [d] from the closest side is 1 when [d >= 10] and
    [max(0.8, 1 - 0.1 * (10 - d) / 10)] otherwise; in the layer it is below
    1 and at least 0.8, and a cell that is no closer to the sides than
    another is damped no more. *)
Theorem resetMaterialMap_damping
    (defaultMaterial : MaterialType) (g : WaveSolver) (cx cy : Z) :
  F.length (velocityMap g) = size g * size g ->
  F.length (dampingMap g) = size g * size g ->
  in_grid (size g) cx cy ->
  let damping := dampingMap (resetMaterialMap defaultMaterial g) in
  let d := edge_distance (size g) cx cy in
  let v := F.get damping (cy * size g + cx) in
  (10 <= d -> v = 1%R)
  /\ (d < 10 ->
      v = Rmax 0.8 (1.0 - 0.1 * IZR (10 - d) / IZR 10)%R /\ (0.8 <= v < 1)%R)
  /\ (forall cx' cy', in_grid (size g) cx' cy' ->
        d <= edge_distance (size g) cx' cy' ->
        (v <= F.get damping (cy' * size g + cx'))%R).
Proof.
  intros Hlv Hld Hin damping d v.
  assert (Hv : v = damping_profile 10 d)
    by (apply resetMaterialMap_damping_cell; assumption).
  pose proof (edge_distance_nonneg _ _ _ Hin) as Hd0. fold d in Hd0.
  repeat split.
  - intros Hd. rewrite Hv. unfold damping_profile.
    destruct (Z.geb_spec d 10); [reflexivity|lia].
  - rewrite Hv. unfold damping_profile. destruct (Z.geb_spec d 10); [lia|reflexivity].
  - rewrite Hv. apply damping_profile_bounds. lia.
  - rewrite Hv. apply damping_profile_bounds. lia.
  - intros cx' cy' Hin' Hle. rewrite Hv.
    unfold damping. rewrite resetMaterialMap_damping_cell by assumption.
    apply damping_profile_mono. lia.
Qed.

(** ** Construction *)

Lemma constructor_spec (size : Z) :
  constructor size
  = Some (resetMaterialMap AIR
            {| u := replicate (Z.to_nat (size * size)) 0%R;
               uPrev := replicate (Z.to_nat (size * size)) 0%R;
               velocityMap := replicate (Z.to_nat (size * size)) 0%R;
               dampingMap := replicate (Z.to_nat (size * size)) 0%R;
               size := size |}).
Proof.
  unfold constructor. rewrite F_make_some by nia. reflexivity.
Qed.

Lemma constructor_returns (n : Z) :
  exists g,
    constructor n = Some g
    /\ size g = n
    /\ well_formed g
    /\ (forall j, F.get (u g) j = 0%R)
    /\ (forall j, F.get (uPrev g) j = 0%R).
Proof.
  eexists. split; [apply constructor_spec|].
  assert (Hsq : 0 <= n * n) by nia.
  match goal with
  | |- context [resetMaterialMap AIR ?g0] =>
      destruct (resetMaterialMap_inv AIR g0)
        as (damp1 & Hs & Hu & Hp & (Hlv & _) & (Hl1 & _) & (Hl2 & _))
  end.
  simpl in Hs, Hu, Hp, Hlv, Hl1.
  rewrite F_length_zeros in Hlv, Hl1 by exact Hsq.
  split; [exact Hs|]. split.
  - unfold well_formed. rewrite Hs, Hu, Hp, Hlv, Hl2, Hl1.
    rewrite F_length_zeros by exact Hsq. auto.
  - rewrite Hu, Hp. split; intros j; apply F_get_zeros.
Qed.

(** C8, as the code has it.  The constructor does not validate [size]: for
    every integer [size], positive or not, whose square is a length every
    engine allocates ([size * size <= Float32Array.safe_length]), it returns
    a solver of that size whose four arrays have [size * size] cells, with
    both fields zero. *)
Theorem constructor_total (n : Z) :
  n * n <= F.safe_length ->
  exists g,
    constructor n = Some g
    /\ size g = n
    /\ well_formed g
    /\ (forall j, F.get (u g) j = 0%R)
    /\ (forall j, F.get (uPrev g) j = 0%R).
Proof. intros _. exact (constructor_returns n). Qed.

(** C8 for the size -3: nine cells. *)
Lemma constructor_total_witness :
  (-3) * (-3) <= F.safe_length
  /\ exists g,
       constructor (-3) = Some g /\ size g = -3
       /\ F.length (u g) = 9 /\ F.get (u g) 4 = 0%R.
Proof.
  assert (H : (-3) * (-3) <= F.safe_length) by (vm_compute; discriminate).
  split; [exact H|].
  destruct (constructor_total (-3) H) as (g & Hg & Hs & (Hu & _) & H0 & _).
  exists g. rewrite Hs in Hu. auto.
Defined.

(** C8 fails as stated: [new WaveSolver(0)] and [new WaveSolver(-1)] return
    solvers, the first with empty arrays, the second with one-cell arrays
    and size -1. *)
Lemma constructor_nonpositive_size_returns :
  constructor 0
  = Some {| u := []; uPrev := []; velocityMap := []; dampingMap := []; size := 0 |}
  /\ constructor (-1)
     = Some {| u := [0%R]; uPrev := [0%R]; velocityMap := [(343 * 343)%R];
               dampingMap := [1.0%R]; size := -1 |}.
Proof. split; reflexivity. Qed.

(** ** The source *)

Lemma source_coordinate_range (s : Z) (p : R) :
  0 < s -> (0 <= p <= 1)%R -> 0 <= Zfloor (p * IZR (s - 1)) < s.
Proof.
  intros Hs [Hp0 Hp1].
  assert (Hs1 : (0 <= IZR (s - 1))%R) by (apply IZR_le; lia).
  split.
  - apply Zfloor_lub. simpl. nra.
  - assert (Hle : Zfloor (p * IZR (s - 1)) <= Zfloor (IZR (s - 1)))
      by (apply Zfloor_le; nra).
    rewrite ZfloorZ in Hle. lia.
Qed.

Lemma sin_quarter_turn : sin (2 * PI * 1 * (1 / 4)) = 1%R.
Proof.
  replace (2 * PI * 1 * (1 / 4))%R with (PI / 2)%R by lra. apply sin_PI2.
Qed.

(** C2, as the code has it.  On a well-formed grid with at least one cell
    and a normalized position in the unit square, the source cell has the
    coordinates [floor(sourceX * (size - 1))], [floor(sourceY * (size - 1))];
    before the sweep [u] at that cell is overwritten with
    [sourceAmp * sin(2 * PI * sourceFreq * time)], whatever the fields held,
    no other cell of [u] is touched, and the sweep reads this field. *)
Theorem stepOptimized_hard_source
    (sourceFreq sourceAmp sourceX sourceY time : R) (g : WaveSolver) :
  well_formed g ->
  0 < size g ->
  (0 <= sourceX <= 1)%R ->
  (0 <= sourceY <= 1)%R ->
  let sx := Zfloor (sourceX * IZR (size g - 1)) in
  let sy := Zfloor (sourceY * IZR (size g - 1)) in
  let presweep := injectSource sourceFreq sourceAmp sourceX sourceY time g in
  in_grid (size g) sx sy
  /\ F.get (u presweep) (sy * size g + sx)
     = (sourceAmp * sin (2 * PI * sourceFreq * time))%R
  /\ (forall j, j <> sy * size g + sx -> F.get (u presweep) j = F.get (u g) j)
  /\ exists g',
       stepOptimized sourceFreq sourceAmp sourceX sourceY time g = Some g'
       /\ uPrev g' = u presweep
       /\ u g' = sweep presweep (replicate (Z.to_nat (size g * size g)) 0%R).
Proof.
  intros Hwf Hs Hx Hy sx sy presweep.
  assert (Hin : in_grid (size g) sx sy).
  { split; apply source_coordinate_range; assumption. }
  split; [exact Hin|]. split; [|split].
  - unfold presweep, injectSource, sourceIdx, sourceValue; simpl. fold sx sy.
    apply F_get_put_eq. destruct Hwf as (Hu & _). rewrite Hu.
    apply cell_index_range, Hin.
  - intros j Hne. unfold presweep, injectSource, sourceIdx; simpl. fold sx sy.
    apply F_get_put_ne. congruence.
  - eexists. split; [apply stepOptimized_spec; exact Hwf|].
    split; reflexivity.
Qed.

(** C2 fails as stated: on a grid of three by three cells the position
    (0.99, 0) has the continuous column coordinate 1.98, whose nearest
    column is 2, but the source cell is column 1; with amplitude 1 at a
    quarter period the cell nearest the position (index 2) still holds 0
    before the sweep, not the source value 1. *)
Lemma source_cell_is_not_the_nearest :
  nearest 3 (0.99 * IZR (3 - 1)) 2
  /\ ~ nearest 3 (0.99 * IZR (3 - 1)) 1
  /\ sourceIdx 3 0.99 0 = 1
  /\ (1 * sin (2 * PI * 1 * (1 / 4)))%R = 1%R
  /\ F.get (u (injectSource 1 1 0.99 0 (1 / 4) sample_grid)) 2 = 0%R.
Proof.
  assert (Hidx : sourceIdx 3 0.99 0 = 1).
  { unfold sourceIdx. cbv zeta. change (IZR (3 - 1)) with 2%R.
    rewrite (Zfloor_eq 1 (0.99 * 2)) by lra.
    rewrite (Zfloor_eq 0 (0 * 2)) by lra. reflexivity. }
  split; [|split; [|split; [|split]]].
  - split; [lia|]. intros k' Hk'.
    assert (Hcases : k' = 0 \/ k' = 1 \/ k' = 2) by lia.
    change (IZR (3 - 1)) with 2%R.
    destruct Hcases as [-> | [-> | ->]];
      unfold Rabs; repeat destruct Rcase_abs; lra.
  - intros [_ Hnear]. specialize (Hnear 2 ltac:(lia)). revert Hnear.
    change (IZR (3 - 1)) with 2%R.
    unfold Rabs; repeat destruct Rcase_abs; lra.
  - exact Hidx.
  - rewrite sin_quarter_turn. lra.
  - unfold injectSource. simpl u. change (size sample_grid) with 3. rewrite Hidx.
    rewrite F_get_put_ne by lia. exact (F_get_zeros 9 2).
Qed.

(** ** [step] *)

(** C10.  [step] only stores the source value: the result is the grid with
    [u[sourceIdx]] overwritten by [sourceAmp * sin(2 * PI * sourceFreq * time)]
    (a store that is ignored when the index is outside the array); every
    other entry of [u], and [uPrev], [velocityMap], [dampingMap] and [size]
    are unchanged, since the loop stores nothing. *)
Theorem step_only_drives_source
    (sourceFreq sourceAmp sourceX sourceY time : R) (g : WaveSolver) :
  let g' := step sourceFreq sourceAmp sourceX sourceY time g in
  let i := sourceIdx (size g) sourceX sourceY in
  u g' = F.put (u g) i (sourceAmp * sin (2 * PI * sourceFreq * time))%R
  /\ (0 <= i < F.length (u g) ->
      F.get (u g') i = (sourceAmp * sin (2 * PI * sourceFreq * time))%R)
  /\ (forall j, j <> i -> F.get (u g') j = F.get (u g) j)
  /\ uPrev g' = uPrev g /\ velocityMap g' = velocityMap g
  /\ dampingMap g' = dampingMap g /\ size g' = size g.
Proof.
  intros g' i.
  assert (Hstep : g' = injectSource sourceFreq sourceAmp sourceX sourceY time g).
  { unfold g', step. cbv zeta.
    apply (for_range_inv
             (fun this => this = injectSource sourceFreq sourceAmp sourceX sourceY time g)).
    - reflexivity.
    - intros y this _ ->. apply for_range_inv; [reflexivity|].
      intros x this _ ->. reflexivity. }
  rewrite Hstep. unfold injectSource, sourceValue; simpl. fold i.
  split; [reflexivity|]. split; [|split].
  - intros Hi. apply F_get_put_eq. exact Hi.
  - intros j Hne. apply F_get_put_ne. congruence.
  - auto.
Qed.

(** ** Edge cells, on concrete grids *)

Lemma sample_grid_corner_well_formed : well_formed sample_grid_corner.
Proof. repeat split; reflexivity. Qed.

Lemma sourceIdx_origin (s : Z) : sourceIdx s 0 0 = 0.
Proof.
  unfold sourceIdx. cbv zeta.
  rewrite (Zfloor_eq 0 (0 * IZR (s - 1))) by lra. lia.
Qed.

Lemma sourceIdx_centre : sourceIdx 3 0.5 0.5 = 4.
Proof.
  unfold sourceIdx. cbv zeta. change (IZR (3 - 1)) with 2%R.
  rewrite (Zfloor_eq 1 (0.5 * 2)) by lra. reflexivity.
Qed.

(** C4 fails as stated, at the corner cell (0, 0) of a grid of three by
    three cells.  On the grid the constructor returns, a call with the
    source at position (0, 0), amplitude 1, a quarter period, changes
    [uPrev] at the corner from 0 to 1.  On a grid with 5 in the corner of
    [u] and the source at the centre cell, the call leaves 0 in the
    corner. *)
Lemma edge_cells_are_rewritten :
  edge 3 0 0
  /\ (exists g g',
        constructor 3 = Some g
        /\ stepOptimized 1 1 0 0 (1 / 4) g = Some g'
        /\ F.get (uPrev g) (0 * 3 + 0) = 0%R
        /\ F.get (uPrev g') (0 * 3 + 0) = 1%R)
  /\ (exists g',
        stepOptimized 0 0 0.5 0.5 0 sample_grid_corner = Some g'
        /\ 0 * 3 + 0 <> sourceIdx 3 0.5 0.5
        /\ F.get (u sample_grid_corner) (0 * 3 + 0) = 5%R
        /\ F.get (u g') (0 * 3 + 0) = 0%R).
Proof.
  assert (Hedge : edge 3 0 0) by (unfold edge, in_grid; lia).
  split; [exact Hedge|]. split.
  - destruct (constructor_returns 3) as (g & Hg & Hs & Hwf & Hu & Hp).
    exists g. eexists. split; [exact Hg|].
    split; [apply stepOptimized_spec; exact Hwf|]. split; [apply Hp|].
    simpl. rewrite Hs, sourceIdx_origin.
    rewrite F_get_put_eq.
    + unfold sourceValue. rewrite sin_quarter_turn. lra.
    + destruct Hwf as (Hlen & _). rewrite Hlen, Hs. lia.
  - eexists. split; [apply stepOptimized_spec; exact sample_grid_corner_well_formed|].
    split; [rewrite sourceIdx_centre; lia|]. split; [reflexivity|].
    simpl u.
    exact (sweep_edge_zero
             (injectSource 0 0 0.5 0.5 0 sample_grid_corner) 9 0 0 Hedge).
Qed.

(** ** The theorems at the sample grid *)

(** C1 at the centre cell of the sample grid. *)
Lemma stepOptimized_interior_update_witness :
  well_formed sample_grid /\ interior 3 1 1
  /\ exists g',
       stepOptimized 1000 1 0.5 0.5 0 sample_grid = Some g'
       /\ F.get (u g') (1 * 3 + 1)
          = next_value
              {| u := F.put (u sample_grid) (sourceIdx 3 0.5 0.5)
                            (1 * sin (2 * PI * 1000 * 0))%R;
                 uPrev := uPrev sample_grid;
                 velocityMap := velocityMap sample_grid;
                 dampingMap := dampingMap sample_grid;
                 size := 3 |} (1 * 3 + 1).
Proof.
  assert (Hwf : well_formed sample_grid) by (repeat split; reflexivity).
  assert (Hint : interior 3 1 1) by (unfold interior; lia).
  split; [exact Hwf|]. split; [exact Hint|].
  exact (stepOptimized_interior_update 1000 1 0.5 0.5 0 sample_grid 1 1 Hwf Hint).
Defined.

(** C2 at the sample grid, source at the centre. *)
Lemma stepOptimized_hard_source_witness :
  well_formed sample_grid
  /\ F.get (u (injectSource 1000 1 0.5 0.5 0 sample_grid))
           (Zfloor (0.5 * IZR (3 - 1)) * 3 + Zfloor (0.5 * IZR (3 - 1)))
     = (1 * sin (2 * PI * 1000 * 0))%R.
Proof.
  assert (Hwf : well_formed sample_grid) by (repeat split; reflexivity).
  assert (Hs : 0 < size sample_grid) by (simpl; lia).
  assert (Hx : (0 <= 0.5 <= 1)%R) by lra.
  split; [exact Hwf|].
  exact (proj1 (proj2 (stepOptimized_hard_source 1000 1 0.5 0.5 0 sample_grid
                         Hwf Hs Hx Hx))).
Defined.

(** C3 at the sample grid. *)
Lemma stepOptimized_cycles_buffers_witness :
  well_formed sample_grid
  /\ exists g',
       stepOptimized 1000 1 0.5 0.5 0 sample_grid = Some g'
       /\ uPrev g' = u (injectSource 1000 1 0.5 0.5 0 sample_grid).
Proof.
  assert (Hwf : well_formed sample_grid) by (repeat split; reflexivity).
  split; [exact Hwf|].
  destruct (stepOptimized_cycles_buffers 1000 1 0.5 0.5 0 sample_grid Hwf)
    as (g' & Hstep & Hprev & _).
  exists g'. split; [exact Hstep|exact Hprev].
Defined.

(** C4 at the corner of the sample grid with a value in that corner. *)
Lemma stepOptimized_edge_cells_witness :
  well_formed sample_grid_corner /\ edge 3 0 0
  /\ exists g',
       stepOptimized 1000 1 0.5 0.5 0 sample_grid_corner = Some g'
       /\ F.get (u g') (0 * 3 + 0) = 0%R.
Proof.
  assert (Hwf : well_formed sample_grid_corner) by (repeat split; reflexivity).
  assert (Hedge : edge 3 0 0) by (unfold edge, in_grid; lia).
  split; [exact Hwf|]. split; [exact Hedge|].
  destruct (stepOptimized_edge_cells 1000 1 0.5 0.5 0 sample_grid_corner 0 0 Hwf Hedge)
    as (g' & Hstep & Hzero & _).
  exists g'. split; [exact Hstep|exact Hzero].
Defined.

(** C5 at the centre cell of the sample grid, at distance 1 from the sides. *)
Lemma resetMaterialMap_damping_witness :
  in_grid 3 1 1
  /\ (F.get (dampingMap (resetMaterialMap AIR sample_grid)) (1 * 3 + 1)
      = Rmax 0.8 (1.0 - 0.1 * IZR (10 - 1) / IZR 10))%R.
Proof.
  assert (Hin : in_grid 3 1 1) by (unfold in_grid; lia).
  split; [exact Hin|].
  destruct (resetMaterialMap_damping AIR sample_grid 1 1 eq_refl eq_refl Hin)
    as (_ & Hlayer & _).
  apply Hlayer. vm_compute. reflexivity.
Defined.

(** C6: a brush of size 3 at the corner (2, 2) of the sample grid covers
    the cell (2, 1). *)
Lemma updateMaterial_paints_brush_witness :
  in_brush 3 2 2 (3 / 2) 2 1
  /\ F.get (velocityMap (updateMaterial 2 2 WATER 3 sample_grid)) (1 * 3 + 2)
     = (1481 ^ 2)%R.
Proof.
  assert (Hin : in_brush 3 2 2 (3 / 2) 2 1).
  { unfold in_brush, in_grid. change (3 / 2) with 1. simpl. lia. }
  split; [exact Hin|].
  destruct (updateMaterial_paints_brush 2 2 3 WATER sample_grid eq_refl)
    as (Hset & _).
  exact (Hset 2 1 Hin).
Defined.

(** ** Running the model on the sample grid *)

(** A brush of size 3 at the corner (0, 0) paints the four cells of the
    grid it covers. *)
Example updateMaterial_sample :
  velocityMap (updateMaterial 0 0 WATER 3 sample_grid)
  = [1481 * 1481; 1481 * 1481; 343 * 343;
     1481 * 1481; 1481 * 1481; 343 * 343;
     343 * 343; 343 * 343; 343 * 343]%R.
Proof. reflexivity. Qed.

(** [step] with the source at the position (1, 0): cell (2, 0). *)
Example step_sample :
  u (step 1000 2 1 0 0 sample_grid)
  = [0; 0; 2 * sin (2 * PI * 1000 * 0); 0; 0; 0; 0; 0; 0]%R.
Proof.
  unfold step. cbv zeta. change (size sample_grid) with 3.
  change (IZR (3 - 1)) with 2%R.
  rewrite (Zfloor_eq 2 (1 * 2)) by lra. rewrite (Zfloor_eq 0 (0 * 2)) by lra.
  reflexivity.
Qed.

(** [stepOptimized] with the same source: the ring of [u] is zero, the
    centre holds the stencil value, [uPrev] holds the driven field. *)
Example stepOptimized_sample :
  stepOptimized 1000 2 1 0 0 sample_grid
  = Some {| u := [0; 0; 0; 0;
                  cell_update (injectSource 1000 2 1 0 0 sample_grid) 4;
                  0; 0; 0; 0]%R;
            uPrev := [0; 0; 2 * sin (2 * PI * 1000 * 0); 0; 0; 0; 0; 0; 0]%R;
            velocityMap := velocityMap sample_grid;
            dampingMap := dampingMap sample_grid;
            size := 3 |}.
Proof.
  unfold stepOptimized, cell_update, injectSource, sourceIdx, sourceValue. cbv zeta.
  change (size sample_grid) with 3. change (IZR (3 - 1)) with 2%R.
  rewrite (Zfloor_eq 2 (1 * 2)) by lra. rewrite (Zfloor_eq 0 (0 * 2)) by lra.
  reflexivity.
Qed.

(** * Further properties of the solver *)

(** ** Composing array writes *)

(** The write set and the stored values determine the result. *)
Lemma written_unique (a0 : F.t) (f : Z -> R) (V : Z -> Prop) (a a' : F.t) :
  written a0 f V a -> written a0 f V a' -> a = a'.
Proof.
  intros (Hl & HA & HB) (Hl' & HA' & HB').
  apply F_ext; [congruence|].
  intros j Hj. rewrite Hl in Hj.
  destruct (HB j) as [Heq|[Hv _]].
  - destruct (HB' j) as [Heq'|[Hv' _]]; [congruence|].
    rewrite (HA j Hv' Hj), (HA' j Hv' Hj). reflexivity.
  - rewrite (HA j Hv Hj), (HA' j Hv Hj). reflexivity.
Qed.

(** Two rounds of writes of the same values amount to one round over the
    union of the write sets. *)
Lemma written_compose (a0 : F.t) (f : Z -> R) (V W : Z -> Prop) (a1 a2 : F.t) :
  written a0 f V a1 -> written a1 f W a2 ->
  written a0 f (fun j => V j \/ W j) a2.
Proof.
  intros (Hl1 & HA1 & HB1) (Hl2 & HA2 & HB2).
  split; [congruence|]. split.
  - intros j Hvw Hj. destruct (HB2 j) as [Heq|[Hw _]].
    + destruct Hvw as [Hv|Hw].
      * rewrite Heq. apply HA1; assumption.
      * apply HA2; [assumption|]. rewrite Hl1. exact Hj.
    + apply HA2; [assumption|]. rewrite Hl1. exact Hj.
  - intros j. destruct (HB2 j) as [Heq|[Hw Hj]].
    + destruct (HB1 j) as [Heq1|[Hv Hj]].
      * left. congruence.
      * right. split; [left; exact Hv|exact Hj].
    + right. split; [right; exact Hw|]. rewrite <- Hl1. exact Hj.
Qed.

(** Writing other values over the same set hides the first round. *)
Lemma written_overwrite (a0 : F.t) (f h : Z -> R) (V : Z -> Prop) (a1 a2 : F.t) :
  written a0 f V a1 -> written a1 h V a2 -> written a0 h V a2.
Proof.
  intros (Hl1 & HA1 & HB1) (Hl2 & HA2 & HB2).
  split; [congruence|]. split.
  - intros j Hv Hj. apply HA2; [assumption|]. rewrite Hl1. exact Hj.
  - intros j. destruct (HB2 j) as [Heq|[Hv Hj]].
    + destruct (HB1 j) as [Heq1|[Hv Hj]].
      * left. congruence.
      * right. split; assumption.
    + right. split; [exact Hv|]. rewrite <- Hl1. exact Hj.
Qed.

(** Writing over an empty set changes nothing. *)
Lemma written_nothing (a0 : F.t) (f : Z -> R) (V : Z -> Prop) (a : F.t) :
  (forall j, ~ V j) -> written a0 f V a -> a = a0.
Proof.
  intros Hnone Hw. symmetry. apply (written_unique a0 f V); [|exact Hw].
  apply written_none. exact Hnone.
Qed.

(** ** More on painting *)

(** X1.  When no cell of the grid lies under the brush, in particular for a
    negative brush size, [updateMaterial] returns the solver unchanged. *)
Theorem updateMaterial_misses_grid
    (x y brushSize : Z) (material : MaterialType) (g : WaveSolver) :
  (forall cx cy, ~ in_brush (size g) x y (brushSize / 2) cx cy) ->
  updateMaterial x y material brushSize g = g.
Proof.
  intros Hmiss.
  destruct (updateMaterial_inv x y brushSize material g) as (Hs & Hu & Hp & Hd & Hw).
  apply WaveSolver_eq; try assumption.
  apply written_nothing in Hw; [exact Hw|].
  intros j (cx & cy & Hb & _). exact (Hmiss cx cy Hb).
Qed.

Lemma negative_brush_misses (s x y brushSize cx cy : Z) :
  brushSize < 0 -> ~ in_brush s x y (brushSize / 2) cx cy.
Proof.
  intros Hneg (_ & Hcx & _).
  assert (brushSize / 2 < 0) by (apply Z.div_lt_upper_bound; lia). lia.
Qed.

(** X1 for a brush of size -1 on the sample grid. *)
Lemma updateMaterial_misses_grid_witness :
  updateMaterial 1 1 STEEL (-1) sample_grid = sample_grid.
Proof.
  apply (updateMaterial_misses_grid 1 1 (-1) STEEL sample_grid).
  intros cx cy. apply negative_brush_misses. lia.
Defined.

(** X2.  Painting the same brush again with another material leaves the
    grid as painting it with the second material alone does: the later
    paint wins on every cell. *)
Theorem updateMaterial_repaint
    (x y brushSize : Z) (m1 m2 : MaterialType) (g : WaveSolver) :
  updateMaterial x y m2 brushSize (updateMaterial x y m1 brushSize g)
  = updateMaterial x y m2 brushSize g.
Proof.
  set (g1 := updateMaterial x y m1 brushSize g).
  destruct (updateMaterial_inv x y brushSize m1 g) as (Hs1 & Hu1 & Hp1 & Hd1 & Hw1).
  destruct (updateMaterial_inv x y brushSize m2 g1) as (Hs2 & Hu2 & Hp2 & Hd2 & Hw2).
  destruct (updateMaterial_inv x y brushSize m2 g) as (Hs & Hu & Hp & Hd & Hw).
  fold g1 in Hs1, Hu1, Hp1, Hd1, Hw1.
  apply WaveSolver_eq; try congruence.
  rewrite Hs1 in Hw2.
  eapply written_unique; [|exact Hw].
  eapply written_overwrite; [exact Hw1|exact Hw2].
Qed.

(** X3.  Two strokes with the same material commute, wherever their
    brushes lie and whatever their sizes. *)
Theorem updateMaterial_same_material_commute
    (x1 y1 b1 x2 y2 b2 : Z) (material : MaterialType) (g : WaveSolver) :
  updateMaterial x2 y2 material b2 (updateMaterial x1 y1 material b1 g)
  = updateMaterial x1 y1 material b1 (updateMaterial x2 y2 material b2 g).
Proof.
  set (ga := updateMaterial x1 y1 material b1 g).
  set (gb := updateMaterial x2 y2 material b2 g).
  destruct (updateMaterial_inv x1 y1 b1 material g) as (Hsa & Hua & Hpa & Hda & Hwa).
  destruct (updateMaterial_inv x2 y2 b2 material g) as (Hsb & Hub & Hpb & Hdb & Hwb).
  destruct (updateMaterial_inv x2 y2 b2 material ga) as (Hs1 & Hu1 & Hp1 & Hd1 & Hw1).
  destruct (updateMaterial_inv x1 y1 b1 material gb) as (Hs2 & Hu2 & Hp2 & Hd2 & Hw2).
  fold ga in Hsa, Hua, Hpa, Hda, Hwa. fold gb in Hsb, Hub, Hpb, Hdb, Hwb.
  apply WaveSolver_eq; try congruence.
  rewrite Hsa in Hw1. rewrite Hsb in Hw2.
  pose proof (written_compose _ _ _ _ _ _ Hwa Hw1) as H12.
  pose proof (written_compose _ _ _ _ _ _ Hwb Hw2) as H21.
  eapply written_unique; [exact H12|].
  revert H21. apply written_iff. intros j. tauto.
Qed.

(** X4.  A brush of size 0 or 1 paints exactly its centre cell: one store
    at [y * size + x] when the centre is a cell of the grid, nothing
    otherwise. *)
Theorem updateMaterial_single_cell
    (x y brushSize : Z) (material : MaterialType) (g : WaveSolver) :
  0 <= brushSize <= 1 ->
  updateMaterial x y material brushSize g
  = if (x >=? 0) && (x <? size g) && (y >=? 0) && (y <? size g)
    then with_velocityMap
           (F.put (velocityMap g) (y * size g + x)
                  (speedOfSound (MATERIALS material) * speedOfSound (MATERIALS material))%R) g
    else g.
Proof.
  intros Hb. unfold updateMaterial. cbv zeta.
  replace (brushSize / 2) with 0 by (symmetry; apply Z.div_small; lia).
  unfold for_range. simpl. rewrite !Z.add_0_r. reflexivity.
Qed.

(** X4 for a brush of size 1 at the centre of the sample grid. *)
Lemma updateMaterial_single_cell_witness :
  velocityMap (updateMaterial 1 1 STEEL 1 sample_grid)
  = F.put (velocityMap sample_grid) 4 (5960 * 5960)%R.
Proof.
  rewrite (updateMaterial_single_cell 1 1 1 STEEL sample_grid) by lia.
  reflexivity.
Defined.

(** ** More on the material reset and the boundary layer *)

(** Two rounds of two layers of writes: the second round changes nothing. *)
Lemma written_two_layers (a0 : F.t) (f h : Z -> R) (W V : Z -> Prop)
    (a1 a2 b1 b2 : F.t) :
  written a0 f W a1 -> written a1 h V a2 ->
  written a2 f W b1 -> written b1 h V b2 ->
  b2 = a2.
Proof.
  intros (Hl1 & HA1 & HB1) (Hl2 & HA2 & HB2) (Hl3 & HA3 & HB3) (Hl4 & HA4 & HB4).
  apply F_ext; [congruence|].
  intros j Hj. assert (Hj0 : 0 <= j < F.length a0) by congruence.
  assert (HV : V j -> F.get b2 j = F.get a2 j).
  { intros Hv. rewrite HA4, HA2; congruence. }
  destruct (HB4 j) as [Heq4|[Hv _]]; [|exact (HV Hv)].
  destruct (HB3 j) as [Heq3|[Hw _]]; [congruence|].
  destruct (HB2 j) as [Heq2|[Hv _]]; [|exact (HV Hv)].
  rewrite Heq4, HA3, Heq2, HA1; congruence.
Qed.

(** X5.  [resetMaterialMap] makes the velocity map uniform: every cell of
    [velocityMap] holds the square of the material's sound speed; the two
    fields and the size are left as they are. *)
Theorem resetMaterialMap_uniform_velocity (defaultMaterial : MaterialType) (g : WaveSolver) :
  let g' := resetMaterialMap defaultMaterial g in
  F.length (velocityMap g') = F.length (velocityMap g)
  /\ (forall j, 0 <= j < F.length (velocityMap g) ->
        F.get (velocityMap g') j = (speedOfSound (MATERIALS defaultMaterial) ^ 2)%R)
  /\ F.length (dampingMap g') = F.length (dampingMap g)
  /\ u g' = u g /\ uPrev g' = uPrev g /\ size g' = size g.
Proof.
  intros g'.
  destruct (resetMaterialMap_inv defaultMaterial g)
    as (damp1 & Hs & Hu & Hp & (Hlv & HAv & _) & (Hl1 & _) & (Hl2 & _)).
  fold g' in Hs, Hu, Hp, Hlv, HAv, Hl2.
  split; [exact Hlv|]. split.
  - intros j Hj. rewrite HAv by assumption. simpl. ring.
  - repeat split; congruence.
Qed.

(** X6.  The lower clamp of [applyBoundaries] never applies.  After
    [resetMaterialMap] on a grid whose maps have [size * size] cells, a cell
    at distance [d < 10] from the closest side holds [dampingFactor] itself,
    the second argument of [Math.max(0.8, ...)]: that argument is the larger
    one, by a margin (it is above 0.89) that no rounding closes.  Every cell
    of the grid has a damping above 0.89 and at most 1. *)
Theorem boundary_clamp_inactive
    (defaultMaterial : MaterialType) (g : WaveSolver) (cx cy : Z) :
  F.length (velocityMap g) = size g * size g ->
  F.length (dampingMap g) = size g * size g ->
  in_grid (size g) cx cy ->
  let v := F.get (dampingMap (resetMaterialMap defaultMaterial g)) (cy * size g + cx) in
  let d := edge_distance (size g) cx cy in
  (d < 10 ->
   v = dampingFactor 10 d
   /\ Rmax 0.8 (dampingFactor 10 d) = dampingFactor 10 d
   /\ (0.89 < dampingFactor 10 d)%R)
  /\ (0.89 < v <= 1)%R.
Proof.
  intros Hlv Hld Hin v d.
  assert (Hv : v = damping_profile 10 d)
    by (apply resetMaterialMap_damping_cell; assumption).
  pose proof (edge_distance_nonneg _ _ _ Hin) as Hd0. fold d in Hd0.
  assert (Hfactor : d < 10 -> (0.9 <= dampingFactor 10 d <= 1)%R).
  { intros Hd. unfold dampingFactor. rewrite minus_IZR.
    apply IZR_le in Hd0. apply IZR_lt in Hd. lra. }
  assert (Hlayer : d < 10 -> v = dampingFactor 10 d).
  { intros Hd. rewrite Hv, damping_profile_layer by exact Hd.
    specialize (Hfactor Hd). unfold dampingFactor in *.
    rewrite Rmax_right; lra. }
  split.
  - intros Hd. specialize (Hfactor Hd). split; [exact (Hlayer Hd)|].
    split; [apply Rmax_right|]; lra.
  - destruct (Z.lt_ge_cases d 10) as [Hd|Hd].
    + rewrite (Hlayer Hd). specialize (Hfactor Hd). lra.
    + rewrite Hv. unfold damping_profile. destruct (Z.geb_spec d 10); [lra|lia].
Qed.

(** X6 at the centre of the sample grid, at distance 1 from the sides. *)
Lemma boundary_clamp_inactive_witness :
  in_grid 3 1 1
  /\ F.get (dampingMap (resetMaterialMap AIR sample_grid)) (1 * 3 + 1)
     = dampingFactor 10 (edge_distance 3 1 1).
Proof.
  assert (Hin : in_grid 3 1 1) by (unfold in_grid; lia).
  split; [exact Hin|].
  apply (boundary_clamp_inactive AIR sample_grid 1 1 eq_refl eq_refl Hin).
  vm_compute. reflexivity.
Defined.

(** [resetMaterialMap] only depends on the fields, the size, the damping
    map and the length of the velocity map. *)
Lemma resetMaterialMap_forgets_velocity (m : MaterialType) (g1 g2 : WaveSolver) :
  size g1 = size g2 -> u g1 = u g2 -> uPrev g1 = uPrev g2 ->
  dampingMap g1 = dampingMap g2 ->
  F.length (velocityMap g1) = F.length (velocityMap g2) ->
  resetMaterialMap m g1 = resetMaterialMap m g2.
Proof.
  intros Hs Hu Hp Hd Hl.
  destruct (resetMaterialMap_inv m g1)
    as (d1 & Hs1 & Hu1 & Hp1 & Hv1 & Hw1 & Hb1).
  destruct (resetMaterialMap_inv m g2)
    as (d2 & Hs2 & Hu2 & Hp2 & Hv2 & Hw2 & Hb2).
  apply WaveSolver_eq; try congruence.
  - destruct Hv1 as (Hl1 & HA1 & _), Hv2 as (Hl2 & HA2 & _).
    apply F_ext; [congruence|].
    intros j Hj. rewrite HA1, HA2; congruence.
  - rewrite Hd, Hl in Hw1. rewrite Hs in Hb1.
    assert (d1 = d2) by (eapply written_unique; eassumption). subst d2.
    eapply written_unique; eassumption.
Qed.

(** X7.  [resetMaterialMap] erases every stroke: resetting a painted grid
    gives the same solver as resetting the grid before the stroke. *)
Theorem resetMaterialMap_erases_paint
    (m material : MaterialType) (x y brushSize : Z) (g : WaveSolver) :
  resetMaterialMap m (updateMaterial x y material brushSize g)
  = resetMaterialMap m g.
Proof.
  destruct (updateMaterial_inv x y brushSize material g)
    as (Hs & Hu & Hp & Hd & (Hl & _)).
  apply resetMaterialMap_forgets_velocity; assumption.
Qed.

(** X8.  [resetMaterialMap] is idempotent, on every solver state. *)
Theorem resetMaterialMap_idempotent (m : MaterialType) (g : WaveSolver) :
  resetMaterialMap m (resetMaterialMap m g) = resetMaterialMap m g.
Proof.
  set (g1 := resetMaterialMap m g).
  destruct (resetMaterialMap_inv m g)
    as (d1 & Hs1 & Hu1 & Hp1 & Hv1 & Hw1 & Hb1).
  destruct (resetMaterialMap_inv m g1)
    as (d2 & Hs2 & Hu2 & Hp2 & Hv2 & Hw2 & Hb2).
  fold g1 in Hs1, Hu1, Hp1, Hv1, Hb1.
  assert (Hlv : F.length (velocityMap g1) = F.length (velocityMap g)) by apply Hv1.
  apply WaveSolver_eq; try assumption.
  - rewrite Hlv in Hv2.
    pose proof (written_compose _ _ _ _ _ _ Hv1 Hv2) as H12.
    eapply written_unique; [|exact Hv1].
    revert H12. apply written_iff. intros j. tauto.
  - rewrite Hlv in Hw2. rewrite Hs1 in Hb2.
    exact (written_two_layers _ _ _ _ _ _ _ _ _ Hw1 Hb1 Hw2 Hb2).
Qed.

(** X9.  [applyBoundaries] is idempotent and only writes the damping map:
    the fields, the velocity map and the size are unchanged. *)
Theorem applyBoundaries_idempotent (g : WaveSolver) :
  applyBoundaries (applyBoundaries g) = applyBoundaries g
  /\ u (applyBoundaries g) = u g /\ uPrev (applyBoundaries g) = uPrev g
  /\ velocityMap (applyBoundaries g) = velocityMap g
  /\ size (applyBoundaries g) = size g.
Proof.
  destruct (applyBoundaries_inv g) as (Hs & Hu & Hp & Hv & Hw).
  destruct (applyBoundaries_inv (applyBoundaries g)) as (Hs' & Hu' & Hp' & Hv' & Hw').
  split; [|auto].
  apply WaveSolver_eq; try assumption.
  rewrite Hs in Hw'.
  pose proof (written_compose _ _ _ _ _ _ Hw Hw') as H12.
  eapply written_unique; [|exact Hw].
  revert H12. apply written_iff. intros j. tauto.
Qed.

(** ** How far a step carries the field *)

Lemma source_cell_in_grid (s : Z) (X Y : R) :
  0 < s -> (0 <= X <= 1)%R -> (0 <= Y <= 1)%R ->
  in_grid s (Zfloor (X * IZR (s - 1))) (Zfloor (Y * IZR (s - 1))).
Proof. intros Hs HX HY. split; apply source_coordinate_range; assumption. Qed.

Lemma step_carries_one_cell
    (sourceFreq sourceAmp X Y time : R) (g : WaveSolver) (r : Z) :
  well_formed g ->
  0 < size g ->
  (0 <= X <= 1)%R ->
  (0 <= Y <= 1)%R ->
  0 <= r ->
  let sx := Zfloor (X * IZR (size g - 1)) in
  let sy := Zfloor (Y * IZR (size g - 1)) in
  at_rest_beyond g sx sy r ->
  exists g',
    stepOptimized sourceFreq sourceAmp X Y time g = Some g'
    /\ well_formed g' /\ size g' = size g
    /\ at_rest_beyond g' sx sy (r + 1).
Proof.
  intros Hwf Hs HX HY Hr sx sy Hrest.
  pose proof (source_cell_in_grid (size g) X Y Hs HX HY) as Hsrc. fold sx sy in Hsrc.
  set (presweep := injectSource sourceFreq sourceAmp X Y time g).
  assert (Hquiet : forall cx cy, in_grid (size g) cx cy ->
            r < Z.abs (cx - sx) + Z.abs (cy - sy) ->
            F.get (u presweep) (cy * size g + cx) = 0%R).
  { intros cx cy Hin Hfar. unfold presweep, injectSource, sourceIdx; simpl.
    fold sx sy. rewrite F_get_put_ne.
    - apply Hrest; assumption.
    - intros Heq. apply cell_index_inj in Heq; [lia|apply Hsrc|apply Hin]. }
  eexists. split; [apply stepOptimized_spec; exact Hwf|]. fold presweep.
  assert (Hsq : 0 <= size g * size g) by nia.
  destruct (sweep_written presweep (replicate (Z.to_nat (size g * size g)) 0%R))
    as (Hlen & HA & HB).
  rewrite F_length_zeros in Hlen, HA, HB by exact Hsq.
  pose proof (injectSource_well_formed sourceFreq sourceAmp X Y time g Hwf)
    as (Hu1 & Hp1 & Hv1 & Hd1).
  fold presweep in Hu1, Hp1, Hv1, Hd1.
  change (size presweep) with (size g) in *.
  split; [|split; [reflexivity|]].
  { unfold well_formed; simpl. destruct Hwf as (_ & _ & Hv & Hd). auto. }
  intros cx cy Hin Hfar. simpl in Hin |- *. split.
  - destruct (HB (cy * size g + cx)) as [Heq|[(cx' & cy' & Hint & Hj) Hrange]].
    + rewrite Heq. apply F_get_zeros.
    + assert (Hint' : interior (size g) cx' cy') by exact Hint.
      apply cell_index_inj in Hj;
        [|apply Hin|unfold interior in Hint'; lia].
      destruct Hj as [<- <-].
      rewrite HA
        by first [exact Hrange | exists cx, cy; split; [exact Hint|reflexivity]].
      unfold cell_update. cbv zeta. change (size presweep) with (size g).
      unfold interior in Hint'.
      rewrite (Hquiet cx cy) by first [exact Hin | lia].
      replace (cy * size g + cx + 1) with (cy * size g + (cx + 1)) by lia.
      replace (cy * size g + cx - 1) with (cy * size g + (cx - 1)) by lia.
      replace (cy * size g + cx + size g) with ((cy + 1) * size g + cx) by lia.
      replace (cy * size g + cx - size g) with ((cy - 1) * size g + cx) by lia.
      rewrite (Hquiet (cx + 1) cy) by (unfold in_grid; lia).
      rewrite (Hquiet (cx - 1) cy) by (unfold in_grid; lia).
      rewrite (Hquiet cx (cy + 1)) by (unfold in_grid; lia).
      rewrite (Hquiet cx (cy - 1)) by (unfold in_grid; lia).
      replace (F.get (uPrev presweep) (cy * size g + cx)) with 0%R.
      * ring.
      * symmetry. apply Hrest; [exact Hin|lia].
  - apply Hquiet; [exact Hin|lia].
Qed.

(** X10.  A step carries the field by at most one cell.  On a well-formed
    grid with the source position in the unit square, if both fields vanish
    farther than [r >= 0] steps from the source cell, then after
    [stepOptimized] they vanish farther than [r + 1] steps from it. *)
Theorem stepOptimized_propagates_one_cell
    (sourceFreq sourceAmp X Y time : R) (g : WaveSolver) (r : Z) :
  well_formed g ->
  0 < size g ->
  (0 <= X <= 1)%R ->
  (0 <= Y <= 1)%R ->
  0 <= r ->
  let sx := Zfloor (X * IZR (size g - 1)) in
  let sy := Zfloor (Y * IZR (size g - 1)) in
  at_rest_beyond g sx sy r ->
  exists g',
    stepOptimized sourceFreq sourceAmp X Y time g = Some g'
    /\ well_formed g' /\ size g' = size g
    /\ at_rest_beyond g' sx sy (r + 1).
Proof. exact (step_carries_one_cell sourceFreq sourceAmp X Y time g r). Qed.

(** ** Animation frames *)

Lemma Zceil_nonpositive (x : R) : (x <= 0)%R -> Zceil x <= 0.
Proof.
  intros Hx. replace 0 with (Zceil 0) by (apply Zceil_eq; simpl; lra).
  apply Zceil_le. exact Hx.
Qed.

(** A property every step keeps, counted up by one per step, holds after a
    running frame, counted up by the number of steps of the frame. *)
Lemma renderLoop_physics_inv (config : SimulationConfig)
    (I : Z -> WaveSolver -> Prop) (timeRef k : Z) (solver : WaveSolver) :
  (forall k g time,
     I k g ->
     exists g',
       stepOptimized (frequency config) (sourceAmplitude config)
         (sourceX config) (sourceY config) time g = Some g'
       /\ I (k + 1) g') ->
  I k solver ->
  let n := Z.max 0 (Zceil (simulationSpeed config * 5)) in
  exists solver',
    renderLoop_physics config true (timeRef, solver) = Some (timeRef + n, solver')
    /\ I (k + n) solver'.
Proof.
  intros Hstep H0 n. unfold renderLoop_physics. cbv zeta.
  destruct (Z.le_gt_cases 0 (Zceil (simulationSpeed config * 5))) as [Hle|Hgt].
  - replace n with (Zceil (simulationSpeed config * 5)) by lia.
    apply (for_range_ind
             (fun i st => exists solver',
                st = Some (timeRef + i, solver') /\ I (k + i) solver'));
      [exact Hle| |].
    + exists solver. rewrite !Z.add_0_r. split; [reflexivity|exact H0].
    + intros i st Hi (solver' & -> & HI). simpl.
      destruct (Hstep (k + i) solver' (IZR (timeRef + i + 1) * 0.000005)%R HI)
        as (g' & Hg' & HI').
      rewrite Hg'. simpl. exists g'.
      rewrite !Z.add_assoc. split; [reflexivity|exact HI'].
  - rewrite for_range_empty by lia. replace n with 0 by lia.
    exists solver. rewrite !Z.add_0_r. split; [reflexivity|exact H0].
Qed.

(** X11.  A frame changes nothing when the simulation is paused, and
    nothing when the speed multiplier is not positive, even while
    running. *)
Theorem renderLoop_physics_frozen (config : SimulationConfig) (isRunning : bool)
    (timeRef : Z) (solver : WaveSolver) :
  isRunning = false \/ (simulationSpeed config <= 0)%R ->
  renderLoop_physics config isRunning (timeRef, solver) = Some (timeRef, solver).
Proof.
  intros [->|Hspeed]; [reflexivity|].
  unfold renderLoop_physics. destruct isRunning; [|reflexivity]. cbv zeta.
  rewrite for_range_empty; [reflexivity|].
  apply Zceil_nonpositive. lra.
Qed.

(** Successive steps on a well-formed solver throw nothing and keep the
    maps; after at least one step [uPrev] holds at the source cell the
    value driven in the last step. *)
Lemma stepOptimized_iter_spec (sourceFreq sourceAmp sourceX sourceY : R)
    (time : nat -> R) (g : WaveSolver) (n : nat) :
  well_formed g ->
  exists g',
    stepOptimized_iter sourceFreq sourceAmp sourceX sourceY time n g = Some g'
    /\ well_formed g'
    /\ velocityMap g' = velocityMap g
    /\ dampingMap g' = dampingMap g
    /\ size g' = size g
    /\ ((0 < n)%nat ->
        0 <= sourceIdx (size g) sourceX sourceY < size g * size g ->
        F.get (uPrev g') (sourceIdx (size g) sourceX sourceY)
        = sourceValue sourceFreq sourceAmp (time (Nat.pred n))).
Proof.
  intros Hwf. induction n as [|n (g' & Hrun & Hwf' & Hv & Hd & Hs & _)].
  - exists g. split; [reflexivity|]. split; [exact Hwf|].
    do 3 (split; [reflexivity|]). intros H. lia.
  - cbn [stepOptimized_iter]. rewrite Hrun. cbn [mbind option_bind].
    eexists. split; [apply stepOptimized_spec; exact Hwf'|].
    cbn [u uPrev velocityMap dampingMap size].
    destruct (sweep_written
                (injectSource sourceFreq sourceAmp sourceX sourceY (time n) g')
                (replicate (Z.to_nat (size g' * size g')) 0%R)) as (Hlen & _).
    rewrite F_length_zeros in Hlen by nia.
    destruct (injectSource_well_formed sourceFreq sourceAmp sourceX sourceY (time n) g' Hwf')
      as (Hu1 & _).
    pose proof Hwf' as (Hgu & _ & Hgv & Hgd).
    split; [unfold well_formed; cbn [u uPrev velocityMap dampingMap size]; auto|].
    do 3 (split; [assumption|]).
    intros _ Hsrc. unfold injectSource. cbn [u with_u Nat.pred].
    rewrite Hs. apply F_get_put_eq. rewrite Hgu, Hs. exact Hsrc.
Qed.

(** A running frame is [ceil(simulationSpeed * 5)] successive steps at the
    times [frame_time]. *)
Lemma renderLoop_physics_steps (config : SimulationConfig)
    (timeRef : Z) (solver : WaveSolver) :
  well_formed solver ->
  let n := Z.max 0 (Zceil (simulationSpeed config * 5)) in
  forall solver',
    stepOptimized_iter (frequency config) (sourceAmplitude config)
      (sourceX config) (sourceY config) (frame_time timeRef) (Z.to_nat n) solver
    = Some solver' ->
    renderLoop_physics config true (timeRef, solver) = Some (timeRef + n, solver').
Proof.
  intros Hwf n. unfold renderLoop_physics. cbv zeta.
  destruct (Z.le_gt_cases 0 (Zceil (simulationSpeed config * 5))) as [Hle|Hgt].
  - replace n with (Zceil (simulationSpeed config * 5)) by lia.
    intros solver' Hrun'.
    match goal with
    | |- ?loop = _ =>
        assert (Hloop : exists g,
                  loop = Some (timeRef + Zceil (simulationSpeed config * 5), g)
                  /\ stepOptimized_iter (frequency config) (sourceAmplitude config)
                       (sourceX config) (sourceY config) (frame_time timeRef)
                       (Z.to_nat (Zceil (simulationSpeed config * 5))) solver
                     = Some g)
    end.
    { apply (for_range_ind
               (fun i st => exists g,
                  st = Some (timeRef + i, g)
                  /\ stepOptimized_iter (frequency config) (sourceAmplitude config)
                       (sourceX config) (sourceY config) (frame_time timeRef)
                       (Z.to_nat i) solver
                     = Some g));
        [exact Hle| |].
      - exists solver. rewrite Z.add_0_r. split; reflexivity.
      - intros i st Hi (g & -> & Hrun). cbn [mbind option_bind].
        destruct (stepOptimized_iter_spec (frequency config) (sourceAmplitude config)
                    (sourceX config) (sourceY config) (frame_time timeRef) solver
                    (Z.to_nat i) Hwf) as (g0 & Hrun0 & Hwf0 & _).
        assert (g0 = g) by congruence. subst g0.
        pose proof (stepOptimized_spec (frequency config) (sourceAmplitude config)
                      (sourceX config) (sourceY config)
                      (IZR (timeRef + i + 1) * 0.000005)%R g Hwf0) as Hstep.
        cbv zeta in Hstep. rewrite Hstep. cbn [mbind option_bind].
        eexists. split; [rewrite Z.add_assoc; reflexivity|].
        replace (Z.to_nat (i + 1)) with (S (Z.to_nat i)) by lia.
        cbn [stepOptimized_iter]. rewrite Hrun. cbn [mbind option_bind].
        unfold frame_time. rewrite Z2Nat.id by lia. exact Hstep. }
    destruct Hloop as (g & Hfor & Hrun).
    assert (g = solver') by congruence. subst g. exact Hfor.
  - rewrite for_range_empty by lia. replace n with 0 by lia.
    intros solver' Hrun'. change (Some solver = Some solver') in Hrun'.
    rewrite Z.add_0_r. congruence.
Qed.

(** X12.  A running frame on a well-formed solver throws nothing and is
    [n = ceil(simulationSpeed * 5)] successive calls of [stepOptimized] (none
    when that is negative) with the source of the configuration, the call
    number [k] at the time [(timeRef + k + 1) * 0.000005].  It advances the
    step counter by [n] and leaves the solver well formed with its maps and
    size unchanged.  After a frame of at least one step, [uPrev] holds at
    the source cell (when it lies in the grid) the value driven at the
    frame's last time, [(timeRef + n) * 0.000005]. *)
Theorem renderLoop_physics_advances (config : SimulationConfig)
    (timeRef : Z) (solver : WaveSolver) :
  well_formed solver ->
  let n := Z.max 0 (Zceil (simulationSpeed config * 5)) in
  let src := sourceIdx (size solver) (sourceX config) (sourceY config) in
  exists solver',
    renderLoop_physics config true (timeRef, solver) = Some (timeRef + n, solver')
    /\ stepOptimized_iter (frequency config) (sourceAmplitude config)
         (sourceX config) (sourceY config) (frame_time timeRef) (Z.to_nat n) solver
       = Some solver'
    /\ well_formed solver'
    /\ velocityMap solver' = velocityMap solver
    /\ dampingMap solver' = dampingMap solver
    /\ size solver' = size solver
    /\ (0 < n -> 0 <= src < size solver * size solver ->
        F.get (uPrev solver') src
        = sourceValue (frequency config) (sourceAmplitude config)
            (IZR (timeRef + n) * 0.000005)%R).
Proof.
  intros Hwf n src.
  destruct (stepOptimized_iter_spec (frequency config) (sourceAmplitude config)
              (sourceX config) (sourceY config) (frame_time timeRef) solver
              (Z.to_nat n) Hwf) as (solver' & Hrun & Hwf' & Hv & Hd & Hs & Hlast).
  exists solver'.
  split; [apply renderLoop_physics_steps; assumption|].
  split; [exact Hrun|]. do 4 (split; [assumption|]).
  intros Hn Hsrc. unfold src in *. rewrite (Hlast ltac:(lia) Hsrc).
  unfold frame_time.
  replace (timeRef + Z.of_nat (Nat.pred (Z.to_nat n)) + 1) with (timeRef + n) by lia.
  reflexivity.
Qed.

(** X13.  The wave front moves at most one cell per step.  On a
    well-formed solver with the source position in the unit square, if
    both fields vanish farther than [r >= 0] steps from the source cell,
    then after a running frame of [n] steps they vanish farther than
    [r + n] steps from it. *)
Theorem renderLoop_physics_wave_front (config : SimulationConfig)
    (timeRef : Z) (solver : WaveSolver) (r : Z) :
  well_formed solver ->
  0 < size solver ->
  (0 <= sourceX config <= 1)%R ->
  (0 <= sourceY config <= 1)%R ->
  0 <= r ->
  let sx := Zfloor (sourceX config * IZR (size solver - 1)) in
  let sy := Zfloor (sourceY config * IZR (size solver - 1)) in
  let n := Z.max 0 (Zceil (simulationSpeed config * 5)) in
  at_rest_beyond solver sx sy r ->
  exists solver',
    renderLoop_physics config true (timeRef, solver) = Some (timeRef + n, solver')
    /\ size solver' = size solver
    /\ at_rest_beyond solver' sx sy (r + n).
Proof.
  intros Hwf Hs HX HY Hr sx sy n Hrest.
  destruct (renderLoop_physics_inv config
              (fun k g => well_formed g /\ size g = size solver /\ 0 <= k
                          /\ at_rest_beyond g sx sy k)
              timeRef r solver) as (solver' & Hrun & HI).
  - intros k g time (Hg & Hsz & Hk & Hq).
    destruct (step_carries_one_cell
                (frequency config) (sourceAmplitude config)
                (sourceX config) (sourceY config) time g k Hg
                ltac:(lia) HX HY Hk) as (g' & Hg' & Hwf' & Hs' & Hq').
    { rewrite Hsz. exact Hq. }
    exists g'. split; [exact Hg'|]. rewrite Hsz in Hq'.
    split; [exact Hwf'|]. split; [congruence|]. split; [lia|exact Hq'].
  - auto.
  - exists solver'. split; [exact Hrun|]. split; apply HI.
Qed.

(** ** The rest state and superposition *)

Lemma F_get_put (a : F.t) (i j : Z) (v : R) :
  F.get (F.put a i v) j
  = F.get a j \/ (j = i /\ 0 <= i < F.length a /\ F.get (F.put a i v) j = v).
Proof.
  destruct (Z.eq_dec i j) as [->|Hne].
  - assert (Hdec : 0 <= j < F.length a \/ ~ 0 <= j < F.length a) by lia.
    destruct Hdec as [Hr|Hr].
    + right. split; [reflexivity|]. split; [exact Hr|]. apply F_get_put_eq, Hr.
    + left. apply F_get_put_out, Hr.
  - left. apply F_get_put_ne, Hne.
Qed.

Lemma stepOptimized_rest_state
    (sourceFreq sourceAmp X Y time : R) (g : WaveSolver) :
  well_formed g ->
  (forall j, F.get (u g) j = 0%R) ->
  (forall j, F.get (uPrev g) j = 0%R) ->
  (sourceAmp * sin (2 * PI * sourceFreq * time))%R = 0%R ->
  stepOptimized sourceFreq sourceAmp X Y time g = Some g.
Proof.
  intros Hwf Hu0 Hp0 Hsilent.
  rewrite stepOptimized_spec by exact Hwf. cbv zeta.
  set (presweep := injectSource sourceFreq sourceAmp X Y time g).
  assert (Hquiet : forall j, F.get (u presweep) j = 0%R).
  { intros j. unfold presweep, injectSource, sourceValue; simpl.
    destruct (F_get_put (u g) (sourceIdx (size g) X Y) j
                (sourceAmp * sin (2 * PI * sourceFreq * time))%R)
      as [->|(_ & _ & ->)]; [apply Hu0|exact Hsilent]. }
  pose proof (injectSource_well_formed sourceFreq sourceAmp X Y time g Hwf)
    as (Hu1 & _).
  fold presweep in Hu1. change (size presweep) with (size g) in Hu1.
  destruct Hwf as (Hlu & Hlp & _).
  f_equal. apply WaveSolver_eq; simpl; try reflexivity.
  - destruct (sweep_written presweep (replicate (Z.to_nat (size g * size g)) 0%R))
      as (Hlen & HA & HB).
    rewrite F_length_zeros in Hlen, HA by nia.
    apply F_ext; [congruence|].
    intros j Hj. rewrite Hu0.
    destruct (HB j) as [Heq|[Hv _]].
    + rewrite Heq. apply F_get_zeros.
    + rewrite HA by (try exact Hv; lia).
      unfold cell_update. cbv zeta. rewrite !Hquiet.
      change (uPrev presweep) with (uPrev g). rewrite Hp0. ring.
  - apply F_ext; [rewrite F_length_put; congruence|].
    intros j _. rewrite Hp0. exact (Hquiet j).
Qed.

(** X14.  The rest state is a fixed point of the silent step: when both
    fields of a well-formed solver are zero and the driven value
    [sourceAmp * sin(2 * PI * sourceFreq * time)] is 0 (zero amplitude, zero
    frequency, or a zero of the sine), [stepOptimized] returns the solver
    unchanged. *)
Theorem stepOptimized_rest
    (sourceFreq sourceAmp X Y time : R) (g : WaveSolver) :
  well_formed g ->
  (forall j, F.get (u g) j = 0%R) ->
  (forall j, F.get (uPrev g) j = 0%R) ->
  (sourceAmp * sin (2 * PI * sourceFreq * time))%R = 0%R ->
  stepOptimized sourceFreq sourceAmp X Y time g = Some g.
Proof. exact (stepOptimized_rest_state sourceFreq sourceAmp X Y time g). Qed.

(** X14 at the sample grid with amplitude 0. *)
Lemma stepOptimized_rest_witness :
  stepOptimized 1000 0 0.5 0.5 0.001 sample_grid = Some sample_grid.
Proof.
  apply (stepOptimized_rest 1000 0 0.5 0.5 0.001 sample_grid).
  - repeat split; reflexivity.
  - intros j. exact (F_get_zeros 9 j).
  - intros j. exact (F_get_zeros 9 j).
  - lra.
Defined.

Lemma F_length_superpose (k1 k2 : R) (a1 a2 : F.t) :
  F.length a1 = F.length a2 ->
  F.length (superpose_arrays k1 a1 k2 a2) = F.length a1.
Proof.
  unfold F.length, superpose_arrays. intros Hl.
  rewrite length_zip_with_l_eq by lia. reflexivity.
Qed.

Lemma F_get_superpose (k1 k2 : R) (a1 a2 : F.t) (j : Z) :
  F.length a1 = F.length a2 ->
  F.get (superpose_arrays k1 a1 k2 a2) j = (k1 * F.get a1 j + k2 * F.get a2 j)%R.
Proof.
  unfold F.length, F.get, superpose_arrays. intros Hl.
  destruct (0 <=? j); [|ring].
  rewrite lookup_zip_with.
  destruct (a1 !! Z.to_nat j) as [v1|] eqn:E1;
    destruct (a2 !! Z.to_nat j) as [v2|] eqn:E2; simpl; try ring.
  - apply lookup_lt_Some in E1. apply lookup_ge_None in E2. lia.
  - apply lookup_ge_None in E1. apply lookup_lt_Some in E2. lia.
Qed.

Lemma superpose_put (k1 k2 : R) (a1 a2 : F.t) (i : Z) (v1 v2 : R) :
  F.length a1 = F.length a2 ->
  F.put (superpose_arrays k1 a1 k2 a2) i (k1 * v1 + k2 * v2)%R
  = superpose_arrays k1 (F.put a1 i v1) k2 (F.put a2 i v2).
Proof.
  intros Hl.
  assert (Hl' : F.length (F.put a1 i v1) = F.length (F.put a2 i v2))
    by (rewrite !F_length_put; exact Hl).
  apply F_ext.
  - rewrite F_length_put, !F_length_superpose, F_length_put by assumption.
    reflexivity.
  - rewrite F_length_put, F_length_superpose by assumption.
    intros j Hj. rewrite F_get_superpose by exact Hl'.
    destruct (Z.eq_dec i j) as [->|Hne].
    + rewrite (F_get_put_eq (superpose_arrays k1 a1 k2 a2))
        by (rewrite F_length_superpose by exact Hl; exact Hj).
      rewrite (F_get_put_eq a1) by exact Hj.
      rewrite (F_get_put_eq a2) by (rewrite <- Hl; exact Hj).
      reflexivity.
    + rewrite !F_get_put_ne by exact Hne. apply F_get_superpose, Hl.
Qed.

(** X15.  [stepOptimized] is linear in the fields and the amplitude.  For
    two well-formed solvers over the same maps, stepping the combination
    [k1 * fields1 + k2 * fields2] with the amplitude [k1 * amp1 + k2 * amp2]
    gives the same combination of the two stepped solvers. *)
Theorem stepOptimized_superposition
    (sourceFreq amp1 amp2 k1 k2 X Y time : R) (g1 g2 : WaveSolver) :
  well_formed g1 -> well_formed g2 ->
  size g1 = size g2 ->
  velocityMap g1 = velocityMap g2 ->
  dampingMap g1 = dampingMap g2 ->
  exists g1' g2',
    stepOptimized sourceFreq amp1 X Y time g1 = Some g1'
    /\ stepOptimized sourceFreq amp2 X Y time g2 = Some g2'
    /\ stepOptimized sourceFreq (k1 * amp1 + k2 * amp2)%R X Y time
         (superpose k1 g1 k2 g2)
       = Some (superpose k1 g1' k2 g2').
Proof.
  intros Hwf1 Hwf2 Hs Hv Hd.
  assert (Hwf : well_formed (superpose k1 g1 k2 g2)).
  { destruct Hwf1 as (Hu1 & Hp1 & Hv1 & Hd1), Hwf2 as (Hu2 & Hp2 & _).
    unfold well_formed, superpose; simpl.
    rewrite !F_length_superpose by congruence. auto. }
  eexists. eexists.
  split; [apply stepOptimized_spec; exact Hwf1|].
  split; [apply stepOptimized_spec; exact Hwf2|].
  rewrite stepOptimized_spec by exact Hwf. cbv zeta.
  set (p1 := injectSource sourceFreq amp1 X Y time g1).
  set (p2 := injectSource sourceFreq amp2 X Y time g2).
  set (ps := injectSource sourceFreq (k1 * amp1 + k2 * amp2)%R X Y time
               (superpose k1 g1 k2 g2)).
  pose proof (injectSource_well_formed sourceFreq amp1 X Y time g1 Hwf1)
    as (Hlu1 & Hlp1 & _).
  pose proof (injectSource_well_formed sourceFreq amp2 X Y time g2 Hwf2)
    as (Hlu2 & Hlp2 & _).
  fold p1 in Hlu1, Hlp1. fold p2 in Hlu2, Hlp2.
  change (size p1) with (size g1) in *. change (size p2) with (size g2) in *.
  assert (Hups : u ps = superpose_arrays k1 (u p1) k2 (u p2)).
  { unfold ps, p1, p2, injectSource, sourceValue; simpl. rewrite <- Hs.
    rewrite <- superpose_put.
    - f_equal. ring.
    - destruct Hwf1 as (Hu1 & _), Hwf2 as (Hu2 & _). congruence. }
  assert (Hgu : forall i, F.get (u ps) i
                          = (k1 * F.get (u p1) i + k2 * F.get (u p2) i)%R).
  { intros i. rewrite Hups. apply F_get_superpose. congruence. }
  assert (Hgp : forall i, F.get (uPrev ps) i
                          = (k1 * F.get (uPrev p1) i + k2 * F.get (uPrev p2) i)%R).
  { intros i. apply F_get_superpose. congruence. }
  assert (Hcell : forall j, cell_update ps j
                            = (k1 * cell_update p1 j + k2 * cell_update p2 j)%R).
  { intros j. unfold cell_update. cbv zeta. rewrite !Hgu, Hgp.
    change (size ps) with (size g1). change (size p1) with (size g1).
    change (size p2) with (size g2). rewrite <- Hs.
    change (velocityMap ps) with (velocityMap g1).
    change (velocityMap p1) with (velocityMap g1).
    change (velocityMap p2) with (velocityMap g2).
    change (dampingMap ps) with (dampingMap g1).
    change (dampingMap p1) with (dampingMap g1).
    change (dampingMap p2) with (dampingMap g2).
    rewrite <- Hv, <- Hd. ring. }
  change (size (superpose k1 g1 k2 g2)) with (size g1).
  rewrite <- Hs.
  set (zeros := replicate (Z.to_nat (size g1 * size g1)) 0%R).
  destruct (sweep_written p1 zeros) as (Hl1 & HA1 & HB1).
  destruct (sweep_written p2 zeros) as (Hl2 & HA2 & HB2).
  destruct (sweep_written ps zeros) as (Hl3 & HA3 & HB3).
  change (size ps) with (size g1) in *. change (size p1) with (size g1) in *.
  change (size p2) with (size g2) in *. rewrite <- Hs in *.
  f_equal. apply WaveSolver_eq; simpl; try reflexivity; [|exact Hups].
  apply F_ext.
  - rewrite F_length_superpose; congruence.
  - intros j Hj. rewrite F_get_superpose by congruence.
    rewrite Hl3 in Hj.
    assert (Hin : raster_all (size g1) (interior (size g1)) j ->
                  F.get (sweep ps zeros) j
                  = (k1 * F.get (sweep p1 zeros) j + k2 * F.get (sweep p2 zeros) j)%R).
    { intros Hvj. rewrite HA1, HA2, HA3 by assumption. apply Hcell. }
    destruct (HB3 j) as [Heq3|[Hvj _]]; [|exact (Hin Hvj)].
    destruct (HB1 j) as [Heq1|[Hvj _]]; [|exact (Hin Hvj)].
    destruct (HB2 j) as [Heq2|[Hvj _]]; [|exact (Hin Hvj)].
    rewrite Heq1, Heq2, Heq3. unfold zeros. rewrite F_get_zeros. ring.
Qed.

(** ** Clearing and resetting from the application *)

(** Writes that cover the whole array leave no trace of what it held. *)
Lemma written_full (a0 a0' : F.t) (f : Z -> R) (W : Z -> Prop) (a a' : F.t) :
  (forall j, 0 <= j < F.length a0 -> W j) ->
  F.length a0 = F.length a0' ->
  written a0 f W a -> written a0' f W a' -> a = a'.
Proof.
  intros Hfull Hl (Hl1 & HA1 & _) (Hl2 & HA2 & _).
  apply F_ext; [congruence|].
  intros j Hj. rewrite Hl1 in Hj.
  rewrite HA1, HA2; auto; congruence.
Qed.

(** With a damping map no longer than the velocity map, the maps after
    [resetMaterialMap] depend on the lengths and the size only. *)
Lemma resetMaterialMap_maps_determined (m : MaterialType) (g1 g2 : WaveSolver) :
  size g1 = size g2 ->
  F.length (velocityMap g1) = F.length (velocityMap g2) ->
  F.length (dampingMap g1) = F.length (dampingMap g2) ->
  F.length (dampingMap g1) <= F.length (velocityMap g1) ->
  velocityMap (resetMaterialMap m g1) = velocityMap (resetMaterialMap m g2)
  /\ dampingMap (resetMaterialMap m g1) = dampingMap (resetMaterialMap m g2).
Proof.
  intros Hs Hlv Hld Hle.
  destruct (resetMaterialMap_inv m g1) as (d1 & _ & _ & _ & Hv1 & Hw1 & Hb1).
  destruct (resetMaterialMap_inv m g2) as (d2 & _ & _ & _ & Hv2 & Hw2 & Hb2).
  rewrite <- Hlv in Hv2, Hw2. rewrite <- Hs in Hb2.
  split.
  - eapply written_full; [|exact Hlv|exact Hv1|exact Hv2].
    intros j Hj. exact Hj.
  - assert (d1 = d2).
    { eapply written_full; [|exact Hld|exact Hw1|exact Hw2].
      intros j Hj. simpl. lia. }
    subst d2. eapply written_unique; eassumption.
Qed.

Lemma Float32Array_fill_zeros (a : F.t) (n : Z) :
  F.length a = n -> Float32Array_fill a 0%R = replicate (Z.to_nat n) 0%R.
Proof.
  unfold F.length, Float32Array_fill. intros <-. rewrite Nat2Z.id. reflexivity.
Qed.

Lemma handleReset_constructor (g : WaveSolver) :
  well_formed g -> constructor (size g) = Some (handleReset g).
Proof.
  intros (Hu & Hp & Hv & Hd).
  rewrite constructor_spec. f_equal.
  set (fresh := {| u := replicate (Z.to_nat (size g * size g)) 0%R;
                   uPrev := replicate (Z.to_nat (size g * size g)) 0%R;
                   velocityMap := replicate (Z.to_nat (size g * size g)) 0%R;
                   dampingMap := replicate (Z.to_nat (size g * size g)) 0%R;
                   size := size g |}).
  assert (Hsq : 0 <= size g * size g) by nia.
  destruct (resetMaterialMap_inv AIR fresh) as (_ & Hs1 & Hu1 & Hp1 & _).
  destruct (resetMaterialMap_inv AIR g) as (_ & Hs2 & Hu2 & Hp2 & _).
  destruct (resetMaterialMap_maps_determined AIR fresh g) as (Hvel & Hdamp);
    simpl; rewrite ?F_length_zeros by exact Hsq; try congruence; try lia.
  unfold handleReset. cbv zeta.
  apply WaveSolver_eq; simpl; try assumption.
  - rewrite Hu1, Hu2. simpl. symmetry. apply Float32Array_fill_zeros, Hu.
  - rewrite Hp1, Hp2. simpl. symmetry. apply Float32Array_fill_zeros, Hp.
  - rewrite Hs1, Hs2. reflexivity.
Qed.

(** X16.  [handleReset] brings a well-formed solver back to the state the
    constructor returns for its size, whatever was painted and however far
    the simulation ran. *)
Theorem handleReset_restores_constructor (g : WaveSolver) :
  well_formed g -> constructor (size g) = Some (handleReset g).
Proof. exact (handleReset_constructor g). Qed.

(** X16 at the sample grid with a value in the corner. *)
Lemma handleReset_restores_constructor_witness :
  constructor 3 = Some (handleReset sample_grid_corner).
Proof.
  apply (handleReset_restores_constructor sample_grid_corner).
  repeat split; reflexivity.
Defined.

(** X17.  [handleClearFields] puts the solver at rest and keeps the
    material: both fields are zero everywhere, the maps and the size are
    unchanged, and a silent step ([sourceAmp = 0]) then changes nothing. *)
Theorem handleClearFields_rest
    (sourceFreq X Y time : R) (g : WaveSolver) :
  well_formed g ->
  let g' := handleClearFields g in
  (forall j, F.get (u g') j = 0%R)
  /\ (forall j, F.get (uPrev g') j = 0%R)
  /\ velocityMap g' = velocityMap g /\ dampingMap g' = dampingMap g
  /\ size g' = size g
  /\ well_formed g'
  /\ stepOptimized sourceFreq 0 X Y time g' = Some g'.
Proof.
  intros (Hu & Hp & Hv & Hd) g'.
  assert (Hu0 : forall j, F.get (u g') j = 0%R) by (intros j; apply F_get_zeros).
  assert (Hp0 : forall j, F.get (uPrev g') j = 0%R) by (intros j; apply F_get_zeros).
  assert (Hwf : well_formed g').
  { unfold well_formed, g', handleClearFields, Float32Array_fill, F.length; simpl.
    rewrite !length_replicate. auto. }
  do 5 (split; [auto; reflexivity|]). split; [exact Hwf|].
  apply stepOptimized_rest_state; try assumption. lra.
Qed.

(** ** What the application's operations keep *)

Lemma invariant_constructor (n : Z) (g : WaveSolver) :
  constructor n = Some g -> solver_invariant n g.
Proof.
  rewrite constructor_spec. intros Hg. injection Hg as <-.
  set (fresh := {| u := replicate (Z.to_nat (n * n)) 0%R;
                   uPrev := replicate (Z.to_nat (n * n)) 0%R;
                   velocityMap := replicate (Z.to_nat (n * n)) 0%R;
                   dampingMap := replicate (Z.to_nat (n * n)) 0%R;
                   size := n |}).
  assert (Hsq : 0 <= n * n) by nia.
  assert (Hlen : F.length (replicate (Z.to_nat (n * n)) 0%R) = n * n)
    by (apply F_length_zeros, Hsq).
  destruct (resetMaterialMap_inv AIR fresh)
    as (d1 & Hs & Hu & Hp & (Hlv & HAv & _) & (Hl1 & _) & (Hl2 & _)).
  simpl in Hs, Hu, Hp, Hlv, HAv, Hl1. rewrite Hlen in Hlv, HAv, Hl1.
  split; [exact Hs|]. split; [|split; [|split]].
  - unfold well_formed. rewrite Hs, Hu, Hp, Hlv, Hl2, Hl1, Hlen. auto.
  - intros j Hj. exists AIR. rewrite HAv by assumption. simpl. ring.
  - intros cx cy Hin.
    apply (resetMaterialMap_damping_cell AIR fresh cx cy); simpl; assumption.
  - intros cx cy _. rewrite Hu. apply F_get_zeros.
Qed.

Lemma invariant_updateMaterial (n x y brushSize : Z) (material : MaterialType)
    (g : WaveSolver) :
  solver_invariant n g ->
  solver_invariant n (updateMaterial x y material brushSize g).
Proof.
  intros (Hn & (Hlu & Hlp & Hlv & Hld) & Hvel & Hdamp & Hedge).
  destruct (updateMaterial_inv x y brushSize material g)
    as (Hs & Hu & Hp & Hd & (Hl & HA & HB)).
  split; [congruence|]. split; [|split; [|split]].
  - unfold well_formed. rewrite Hs, Hu, Hp, Hd, Hl. auto.
  - intros j Hj. destruct (HB j) as [Heq|[Hv Hr]].
    + rewrite Heq. apply Hvel, Hj.
    + exists material. rewrite HA by assumption. simpl. ring.
  - intros cx cy Hin. rewrite Hd. apply Hdamp, Hin.
  - intros cx cy He. rewrite Hu. apply Hedge, He.
Qed.

Lemma invariant_stepOptimized (n : Z) (sourceFreq sourceAmp X Y time : R)
    (g g' : WaveSolver) :
  solver_invariant n g ->
  stepOptimized sourceFreq sourceAmp X Y time g = Some g' ->
  solver_invariant n g'.
Proof.
  intros (Hn & Hwf & Hvel & Hdamp & Hedge) Hstep.
  rewrite stepOptimized_spec in Hstep by exact Hwf. cbv zeta in Hstep.
  injection Hstep as <-.
  set (presweep := injectSource sourceFreq sourceAmp X Y time g).
  pose proof (injectSource_well_formed sourceFreq sourceAmp X Y time g Hwf)
    as (Hu1 & _).
  fold presweep in Hu1. change (size presweep) with (size g) in Hu1.
  destruct (sweep_written presweep (replicate (Z.to_nat (size g * size g)) 0%R))
    as (Hlen & _).
  rewrite F_length_zeros in Hlen by nia.
  destruct Hwf as (_ & _ & Hlv & Hld).
  split; [exact Hn|]. split; [|split; [|split]]; simpl.
  - unfold well_formed; simpl. auto.
  - exact Hvel.
  - exact Hdamp.
  - intros cx cy He. rewrite <- Hn in He |- *.
    apply (sweep_edge_zero presweep). exact He.
Qed.

Lemma invariant_handleClearFields (n : Z) (g : WaveSolver) :
  solver_invariant n g -> solver_invariant n (handleClearFields g).
Proof.
  intros (Hn & (Hlu & Hlp & Hlv & Hld) & Hvel & Hdamp & Hedge).
  split; [exact Hn|]. split; [|split; [|split]]; simpl; try assumption.
  - unfold well_formed, handleClearFields, Float32Array_fill, F.length; simpl.
    rewrite !length_replicate. auto.
  - intros cx cy _. apply F_get_zeros.
Qed.

Lemma invariant_handleReset (n : Z) (g : WaveSolver) :
  solver_invariant n g -> solver_invariant n (handleReset g).
Proof.
  intros (Hn & Hwf & _). apply invariant_constructor.
  rewrite <- Hn. apply handleReset_constructor, Hwf.
Qed.

Lemma reachable_keeps_invariant (n : Z) (g : WaveSolver) :
  reachable n g -> solver_invariant n g.
Proof.
  induction 1 as [g Hg|g x y material brushSize _ IH
                 |g g' sourceFreq sourceAmp X Y time _ IH Hstep
                 |g _ IH|g _ IH].
  - apply invariant_constructor, Hg.
  - apply invariant_updateMaterial, IH.
  - eapply invariant_stepOptimized; eassumption.
  - apply invariant_handleClearFields, IH.
  - apply invariant_handleReset, IH.
Qed.

(** X18.  In every state the application reaches from the constructor by
    painting, stepping, clearing the fields and resetting, for every size:
    the four arrays have [size * size] cells, every cell of the velocity
    map is the squared sound speed of a material of the catalogue (so it is
    positive), the damping map is the boundary profile the constructor laid
    (no operation but the reset rewrites it), every edge cell of [u] is 0,
    and [stepOptimized] throws nothing. *)
Theorem reachable_states (n : Z) (g : WaveSolver) :
  reachable n g ->
  solver_invariant n g
  /\ (forall j, 0 <= j < n * n -> (0 < F.get (velocityMap g) j)%R)
  /\ (forall sourceFreq sourceAmp X Y time,
        exists g', stepOptimized sourceFreq sourceAmp X Y time g = Some g').
Proof.
  intros Hreach. pose proof (reachable_keeps_invariant n g Hreach) as Hinv.
  split; [exact Hinv|]. destruct Hinv as (_ & Hwf & Hvel & _). split.
  - intros j Hj. destruct (Hvel j Hj) as (material & ->).
    destruct material; simpl; lra.
  - intros sourceFreq sourceAmp X Y time.
    eexists. apply stepOptimized_spec, Hwf.
Qed.

(** X18 for a stroke on the solver the constructor returns for size 3. *)
Lemma reachable_states_witness :
  exists g,
    reachable 3 (updateMaterial 1 1 STEEL 1 g)
    /\ solver_invariant 3 (updateMaterial 1 1 STEEL 1 g).
Proof.
  destruct (constructor_returns 3) as (g & Hg & _).
  exists g.
  assert (Hreach : reachable 3 (updateMaterial 1 1 STEEL 1 g)).
  { apply reach_updateMaterial, reach_constructor, Hg. }
  split; [exact Hreach|].
  exact (proj1 (reachable_states 3 (updateMaterial 1 1 STEEL 1 g) Hreach)).
Defined.

(** ** The editor *)

Lemma pointer_coordinate_range (s : Z) (p origin extent : R) :
  0 < s -> (0 < extent)%R -> (origin <= p < origin + extent)%R ->
  0 <= Zfloor (((p - origin) / extent) * IZR s) < s.
Proof.
  intros Hs Hext Hp.
  set (q := ((p - origin) / extent)%R).
  assert (Hq : (q * extent = p - origin)%R) by (unfold q; field; lra).
  assert (Hq01 : (0 <= q < 1)%R) by (split; nra).
  assert (HsR : (0 < IZR s)%R) by (apply IZR_lt; exact Hs).
  pose proof (Zfloor_bound (q * IZR s)) as [Hlo Hhi].
  split.
  - apply Zfloor_lub. simpl. nra.
  - apply lt_IZR. nra.
Qed.

(** X19.  A pointer inside the canvas paints the cell under it.  With a
    canvas rectangle of positive width and height, a pointer position inside
    it, a grid with at least one cell and a brush size that is not negative,
    [paintAt] computes a cell of the grid and stores the selected material's
    squared speed there; the fields and the damping map are untouched. *)
Theorem paintAt_paints_cell_under_pointer
    (rect : DOMRect) (clientX clientY : R) (selectedMaterial : MaterialType)
    (brushSize : Z) (solver : WaveSolver) :
  (0 < width rect)%R -> (0 < height rect)%R ->
  (left rect <= clientX < left rect + width rect)%R ->
  (top rect <= clientY < top rect + height rect)%R ->
  0 < size solver ->
  0 <= brushSize ->
  F.length (velocityMap solver) = size solver * size solver ->
  let x := Zfloor (((clientX - left rect) / width rect) * IZR (size solver)) in
  let y := Zfloor (((clientY - top rect) / height rect) * IZR (size solver)) in
  let solver' := paintAt (Some rect) clientX clientY selectedMaterial brushSize solver in
  in_grid (size solver) x y
  /\ F.get (velocityMap solver') (y * size solver + x)
     = (speedOfSound (MATERIALS selectedMaterial) ^ 2)%R
  /\ u solver' = u solver /\ uPrev solver' = uPrev solver
  /\ dampingMap solver' = dampingMap solver.
Proof.
  intros Hw Hh HX HY Hs Hb Hlen x y solver'.
  assert (Hin : in_grid (size solver) x y).
  { split; apply pointer_coordinate_range; assumption. }
  assert (Hpaint : solver' = updateMaterial x y selectedMaterial brushSize solver).
  { unfold solver', paintAt.
    destruct (Req_dec_T (width rect) 0); [lra|].
    destruct (Req_dec_T (height rect) 0); [lra|]. reflexivity. }
  rewrite Hpaint.
  destruct (updateMaterial_inv x y brushSize selectedMaterial solver)
    as (_ & Hu & Hp & Hd & (_ & HA & _)).
  split; [exact Hin|]. split; [|auto].
  rewrite HA.
  - simpl. ring.
  - exists x, y. split; [|reflexivity].
    assert (0 <= brushSize / 2) by (apply Z.div_pos; lia).
    split; [exact Hin|]. lia.
  - rewrite Hlen. apply cell_index_range, Hin.
Qed.

(** X19 on the sample grid: a canvas of 600 by 600 at the origin, the
    pointer at (300, 300), the centre cell. *)
Lemma paintAt_paints_cell_under_pointer_witness :
  F.get (velocityMap
           (paintAt (Some {| left := 0; top := 0; width := 600; height := 600 |})
                    300 300 STEEL 1 sample_grid))
        (Zfloor ((300 - 0) / 600 * IZR 3) * 3 + Zfloor ((300 - 0) / 600 * IZR 3))
  = (5960 ^ 2)%R.
Proof.
  refine (proj1 (proj2 (paintAt_paints_cell_under_pointer
            {| left := 0; top := 0; width := 600; height := 600 |}
            300 300 STEEL 1 sample_grid _ _ _ _ _ _ _)));
    simpl; try lra; try lia; reflexivity.
Defined.

(** ** The palette *)

(** X20.  The palette only selects three of the four materials.  For Air,
    Water and Steel the key a palette button selects is the material's key
    of [MATERIALS], and painting with it paints that material; for the
    fourth entry the key is "METAMATERIAL", which [MATERIALS] does not have,
    and painting with it throws whatever the solver and the stroke. *)
Theorem palette_selects_three_materials :
  (forall m, m <> CUSTOM ->
     palette_key (MATERIALS m) = MaterialType_value m
     /\ forall x y brushSize this,
          updateMaterial_untyped x y (palette_key (MATERIALS m)) brushSize this
          = Some (updateMaterial x y m brushSize this))
  /\ palette_key (MATERIALS CUSTOM) = "METAMATERIAL"%string
  /\ MATERIALS_at (palette_key (MATERIALS CUSTOM)) = None
  /\ (forall x y brushSize this,
        updateMaterial_untyped x y (palette_key (MATERIALS CUSTOM)) brushSize this
        = None)
  /\ (forall m, MATERIALS_at (MaterialType_value m) = Some m).
Proof.
  split; [|split; [|split; [|split]]].
  - intros m Hm. destruct m; try congruence; (split; [reflexivity|intros; reflexivity]).
  - reflexivity.
  - reflexivity.
  - intros. reflexivity.
  - intros m. destruct m; reflexivity.
Qed.

(** ** Drawing the material map *)

Lemma render_inv_cell (canvas_width : R) (solver : WaveSolver) (y x : Z)
    (calls : list CanvasCall) :
  0 <= y -> 0 <= x < size solver ->
  render_inv canvas_width solver y x calls ->
  render_inv canvas_width solver y (x + 1)
    (calls ++ [cell_call canvas_width solver x y]).
Proof.
  intros Hy Hx [Hlen Hcalls]. split.
  - rewrite length_app. simpl. lia.
  - intros cx cy Hcx Hcy Hlt.
    assert (Hrow : 0 <= cy * size solver) by nia.
    destruct (Z.eq_dec cy y) as [->|Hne];
      [destruct (Z.eq_dec cx x) as [->|Hne]|].
    + apply list_lookup_middle. lia.
    + rewrite lookup_app_l by lia. apply Hcalls; lia.
    + assert (Hbelow : cy * size solver + size solver <= y * size solver) by nia.
      rewrite lookup_app_l by lia. apply Hcalls; lia.
Qed.

Lemma renderMaterialMap_calls (canvas_width canvas_height : R) (solver : WaveSolver) :
  0 <= size solver ->
  render_inv canvas_width solver (size solver) 0
    (renderMaterialMap (Some (canvas_width, canvas_height)) solver).
Proof.
  intros Hs. unfold renderMaterialMap. cbv zeta.
  apply (for_range_ind (fun y => render_inv canvas_width solver y 0)); [exact Hs| |].
  - split; [reflexivity|]. intros cx cy Hcx Hcy Hlt. lia.
  - intros y calls Hy Hrow.
    change (render_inv canvas_width solver (y + 1) 0
              (for_range 0 (size solver) (fun x calls =>
                 calls ++ [cell_call canvas_width solver x y]) calls)).
    assert (Hend : render_inv canvas_width solver y (size solver)
              (for_range 0 (size solver) (fun x calls =>
                 calls ++ [cell_call canvas_width solver x y]) calls)).
    { apply (for_range_ind (fun x => render_inv canvas_width solver y x));
        [exact Hs|exact Hrow|].
      intros x calls' Hx. apply render_inv_cell; lia. }
    destruct Hend as [Hlen Hcalls]. split; [lia|].
    intros cx cy Hcx Hcy Hlt. apply Hcalls; lia.
Qed.

(** X21.  [renderMaterialMap] clears the canvas and then draws every cell
    of the grid once, row by row: it makes [1 + size * size] calls, and the
    call for the cell [(cx, cy)] fills the square of side
    [canvas.width / size] at [(cx, cy)] times that side with the colour
    picked for the cell's velocity. *)
Theorem renderMaterialMap_draws_every_cell
    (canvas_width canvas_height : R) (solver : WaveSolver) :
  0 <= size solver ->
  let calls := renderMaterialMap (Some (canvas_width, canvas_height)) solver in
  let pixelSize := (canvas_width / IZR (size solver))%R in
  Z.of_nat (List.length calls) = 1 + size solver * size solver
  /\ (0 < size solver -> calls !! 0%nat = Some (clearRect 0 0 canvas_width canvas_height))
  /\ forall cx cy,
       in_grid (size solver) cx cy ->
       calls !! Z.to_nat (1 + cy * size solver + cx)
       = Some (fillRect (cellColor (F.get (velocityMap solver) (cy * size solver + cx)))
                        (IZR cx * pixelSize) (IZR cy * pixelSize) pixelSize pixelSize).
Proof.
  intros Hs calls pixelSize.
  destruct (renderMaterialMap_calls canvas_width canvas_height solver Hs)
    as [Hlen Hcalls].
  fold calls in Hlen, Hcalls.
  split; [lia|]. split.
  - intros Hpos. unfold calls, renderMaterialMap. cbv zeta.
    apply (for_range_inv (fun calls => calls !! 0%nat
                                       = Some (clearRect 0 0 canvas_width canvas_height)));
      [reflexivity|].
    intros y calls' _ Hc. apply for_range_inv; [exact Hc|].
    intros x calls'' _ Hc'. apply lookup_app_l_Some. exact Hc'.
  - intros cx cy [Hcx Hcy]. apply Hcalls; lia.
Qed.

(** X21 at the sample grid. *)
Lemma renderMaterialMap_draws_every_cell_witness :
  Z.of_nat (List.length (renderMaterialMap (Some (600, 600)%R) sample_grid))
  = 1 + 3 * 3.
Proof.
  refine (proj1 (renderMaterialMap_draws_every_cell 600 600 sample_grid _)).
  simpl. lia.
Defined.

Ltac decide_close_to :=
  match goal with
  | |- context [Rlt_dec (Rabs ?e) ?b] =>
      let Hclose := fresh "Hclose" in
      let Hfar := fresh "Hfar" in
      destruct (Rlt_dec (Rabs e) b) as [Hclose|Hfar];
      [ try (exfalso; apply Rabs_def2 in Hclose; lra)
      | try (exfalso; apply Hfar; apply Rabs_def1; lra) ]
  end.

Lemma cellColor_of_material (m : MaterialType) :
  cellColor (speedOfSound (MATERIALS m) ^ 2) = color (MATERIALS (drawn_as m)).
Proof.
  unfold cellColor.
  destruct m; simpl speedOfSound; simpl drawn_as; repeat decide_close_to; reflexivity.
Qed.

(** X22.  What is painted is what is drawn, except for the fourth
    material.  On a grid whose velocity map has [size * size] cells, after a
    stroke with material [m] the call [renderMaterialMap] makes for a cell
    under the brush uses the colour of [m] for Air, Water and Steel, and the
    colour of Air for CUSTOM. *)
Theorem renderMaterialMap_after_paint
    (canvas_width canvas_height : R) (x y brushSize : Z) (m : MaterialType)
    (g : WaveSolver) (cx cy : Z) :
  F.length (velocityMap g) = size g * size g ->
  in_brush (size g) x y (brushSize / 2) cx cy ->
  let pixelSize := (canvas_width / IZR (size g))%R in
  renderMaterialMap (Some (canvas_width, canvas_height))
    (updateMaterial x y m brushSize g) !! Z.to_nat (1 + cy * size g + cx)
  = Some (fillRect (color (MATERIALS (drawn_as m)))
                   (IZR cx * pixelSize) (IZR cy * pixelSize) pixelSize pixelSize).
Proof.
  intros Hlen Hb pixelSize.
  destruct (updateMaterial_inv x y brushSize m g) as (Hs & _ & _ & _ & (_ & HA & _)).
  set (g' := updateMaterial x y m brushSize g) in *.
  assert (Hin : in_grid (size g) cx cy) by apply Hb.
  assert (Hs0 : 0 <= size g') by (rewrite Hs; unfold in_grid in Hin; lia).
  destruct (renderMaterialMap_calls canvas_width canvas_height g' Hs0) as [_ Hcalls].
  rewrite Hs in Hcalls. rewrite Hcalls by (unfold in_grid in Hin; lia).
  unfold cell_call. cbv zeta. rewrite Hs. fold pixelSize.
  rewrite HA.
  - replace (speedOfSound (MATERIALS m) * speedOfSound (MATERIALS m))%R
      with (speedOfSound (MATERIALS m) ^ 2)%R by ring.
    rewrite cellColor_of_material. reflexivity.
  - exists cx, cy. split; [exact Hb|reflexivity].
  - rewrite Hlen. apply cell_index_range, Hin.
Qed.

(** X22 for a CUSTOM stroke at the centre of the sample grid. *)
Lemma renderMaterialMap_after_paint_witness :
  renderMaterialMap (Some (600, 600)%R) (updateMaterial 1 1 CUSTOM 1 sample_grid)
    !! Z.to_nat (1 + 1 * 3 + 1)
  = Some (fillRect "#0f172a" (IZR 1 * (600 / IZR 3)) (IZR 1 * (600 / IZR 3))
                   (600 / IZR 3) (600 / IZR 3)).
Proof.
  apply (renderMaterialMap_after_paint 600 600 1 1 1 CUSTOM sample_grid 1 1).
  - reflexivity.
  - change (1 / 2) with 0. change (size sample_grid) with 3.
    unfold in_brush, in_grid. lia.
Defined.

(** ** The further properties at the sample grid *)

Lemma sample_grid_at_rest (sx sy r : Z) : at_rest_beyond sample_grid sx sy r.
Proof.
  intros cx cy _ _. split; exact (F_get_zeros 9 _).
Qed.

(** X10 at the sample grid at rest, source at the centre. *)
Lemma stepOptimized_propagates_one_cell_witness :
  exists g',
    stepOptimized 1000 1 0.5 0.5 0 sample_grid = Some g'
    /\ at_rest_beyond g' (Zfloor (0.5 * IZR (3 - 1))) (Zfloor (0.5 * IZR (3 - 1))) (0 + 1).
Proof.
  assert (Hwf : well_formed sample_grid) by (repeat split; reflexivity).
  assert (Hs : 0 < size sample_grid) by (simpl; lia).
  assert (Hx : (0 <= 0.5 <= 1)%R) by lra.
  destruct (stepOptimized_propagates_one_cell 1000 1 0.5 0.5 0 sample_grid 0
              Hwf Hs Hx Hx ltac:(lia) (sample_grid_at_rest _ _ 0))
    as (g' & Hstep & _ & _ & Hrest).
  exists g'. split; [exact Hstep|exact Hrest].
Defined.

(** X11 for a paused frame. *)
Lemma renderLoop_physics_frozen_witness :
  renderLoop_physics sample_config false (7, sample_grid) = Some (7, sample_grid).
Proof.
  apply (renderLoop_physics_frozen sample_config false 7 sample_grid).
  left. reflexivity.
Defined.

(** X12 at the default configuration: speed 0.5, three steps. *)
Lemma renderLoop_physics_advances_witness :
  exists solver',
    renderLoop_physics sample_config true (0, sample_grid)
    = Some (0 + Z.max 0 (Zceil (0.5 * 5)), solver')
    /\ stepOptimized_iter 2000 1.0 0.1 0.5 (frame_time 0)
         (Z.to_nat (Z.max 0 (Zceil (0.5 * 5)))) sample_grid
       = Some solver'
    /\ well_formed solver'.
Proof.
  assert (Hwf : well_formed sample_grid) by (repeat split; reflexivity).
  destruct (renderLoop_physics_advances sample_config 0 sample_grid Hwf)
    as (solver' & Hframe & Hrun & Hwf' & _).
  exists solver'. split; [exact Hframe|]. split; [exact Hrun|exact Hwf'].
Defined.

(** X13 at the default configuration, from rest. *)
Lemma renderLoop_physics_wave_front_witness :
  exists solver',
    renderLoop_physics sample_config true (0, sample_grid)
    = Some (0 + Z.max 0 (Zceil (0.5 * 5)), solver')
    /\ at_rest_beyond solver'
         (Zfloor (0.1 * IZR (3 - 1))) (Zfloor (0.5 * IZR (3 - 1)))
         (0 + Z.max 0 (Zceil (0.5 * 5))).
Proof.
  assert (Hwf : well_formed sample_grid) by (repeat split; reflexivity).
  assert (Hs : 0 < size sample_grid) by (simpl; lia).
  assert (Hx : (0 <= sourceX sample_config <= 1)%R) by (simpl; lra).
  assert (Hy : (0 <= sourceY sample_config <= 1)%R) by (simpl; lra).
  destruct (renderLoop_physics_wave_front sample_config 0 sample_grid 0
              Hwf Hs Hx Hy ltac:(lia) (sample_grid_at_rest _ _ 0))
    as (solver' & Hrun & _ & Hrest).
  exists solver'. split; [exact Hrun|exact Hrest].
Defined.

(** X15 for the sample grid combined with itself. *)
Lemma stepOptimized_superposition_witness :
  exists g1' g2',
    stepOptimized 1000 1 0.5 0.5 0.001 sample_grid = Some g1'
    /\ stepOptimized 1000 3 0.5 0.5 0.001 sample_grid = Some g2'
    /\ stepOptimized 1000 (2 * 1 + 5 * 3) 0.5 0.5 0.001
         (superpose 2 sample_grid 5 sample_grid)
       = Some (superpose 2 g1' 5 g2').
Proof.
  assert (Hwf : well_formed sample_grid) by (repeat split; reflexivity).
  exact (stepOptimized_superposition 1000 1 3 2 5 0.5 0.5 0.001
           sample_grid sample_grid Hwf Hwf eq_refl eq_refl eq_refl).
Defined.

(** X17 at the sample grid with a value in the corner. *)
Lemma handleClearFields_rest_witness :
  stepOptimized 1000 0 0.5 0.5 0.001 (handleClearFields sample_grid_corner)
  = Some (handleClearFields sample_grid_corner).
Proof.
  assert (Hwf : well_formed sample_grid_corner) by (repeat split; reflexivity).
  apply (handleClearFields_rest 1000 0.5 0.5 0.001 sample_grid_corner Hwf).
Defined.

(** ** The field image *)

Lemma ToUint8Clamp_range (x : R) : 0 <= ToUint8Clamp x <= 255.
Proof.
  unfold ToUint8Clamp.
  destruct (Rle_dec x 0) as [|Hpos]; [lia|].
  destruct (Rle_dec 255 x) as [|Hlt]; [lia|].
  pose proof (Zfloor_bound x) as [Hlo Hhi].
  assert (H0 : 0 <= Zfloor x) by (apply Zfloor_lub; simpl; lra).
  assert (H254 : Zfloor x < 255) by (apply lt_IZR; lra).
  cbv zeta. repeat destruct Rlt_dec; try destruct (Z.even (Zfloor x)); lia.
Qed.

Lemma ToUint8Clamp_nearest (x : R) :
  (0 <= x <= 255)%R -> (Rabs (IZR (ToUint8Clamp x) - x) <= 0.5)%R.
Proof.
  intros [H0 H255]. unfold ToUint8Clamp.
  destruct (Rle_dec x 0) as [Hle|Hpos].
  { replace x with 0%R by lra. rewrite Rminus_0_r, Rabs_R0. lra. }
  destruct (Rle_dec 255 x) as [Hge|Hlt].
  { replace x with 255%R by lra. rewrite Rminus_diag, Rabs_R0. lra. }
  pose proof (Zfloor_bound x) as [Hlo Hhi]. cbv zeta.
  destruct (Rlt_dec (IZR (Zfloor x) + 0.5) x) as [Hup|Hnup].
  - rewrite plus_IZR. apply Rabs_le. simpl. lra.
  - destruct (Rlt_dec x (IZR (Zfloor x) + 0.5)) as [Hdown|Hndown].
    + apply Rabs_le. lra.
    + destruct (Z.even (Zfloor x)); [|rewrite plus_IZR]; apply Rabs_le; simpl; lra.
Qed.

Lemma pixel_bytes_length (val : R) : List.length (pixel_bytes val) = 4%nat.
Proof. unfold pixel_bytes. destruct Rlt_dec; reflexivity. Qed.

Lemma pixels_inv_cell (solver : WaveSolver) (len : nat) (i : Z) (data : list Z) :
  0 <= i -> (Z.to_nat (i * 4) + 3 < len)%nat ->
  pixels_inv solver len i data ->
  pixels_inv solver len (i + 1)
    (let val := F.get (u solver) i in
     let intensity := Rmin 255 (Rabs (val * 2000)) in
     let pixelIndex := i * 4 in
     if Rlt_dec 0 val then
       let data := Uint8ClampedArray_put data pixelIndex 255 in
       let data := Uint8ClampedArray_put data (pixelIndex + 1) 50 in
       let data := Uint8ClampedArray_put data (pixelIndex + 2) 50 in
       Uint8ClampedArray_put data (pixelIndex + 3) (ToUint8Clamp intensity)
     else
       let data := Uint8ClampedArray_put data pixelIndex 50 in
       let data := Uint8ClampedArray_put data (pixelIndex + 1) 100 in
       let data := Uint8ClampedArray_put data (pixelIndex + 2) 255 in
       Uint8ClampedArray_put data (pixelIndex + 3) (ToUint8Clamp intensity)).
Proof.
  intros Hi Hroom [Hlen Hdata]. cbv zeta.
  set (val := F.get (u solver) i).
  assert (Hput : forall r g b,
            pixel_bytes val = [r; g; b; pixel_alpha val] ->
            pixels_inv solver len (i + 1)
              (Uint8ClampedArray_put
                 (Uint8ClampedArray_put
                    (Uint8ClampedArray_put
                       (Uint8ClampedArray_put data (i * 4) r) (i * 4 + 1) g)
                    (i * 4 + 2) b)
                 (i * 4 + 3) (pixel_alpha val))).
  { intros r g b Hbytes. unfold Uint8ClampedArray_put.
    destruct (Z.leb_spec 0 (i * 4)); [|lia].
    destruct (Z.leb_spec 0 (i * 4 + 1)); [|lia].
    destruct (Z.leb_spec 0 (i * 4 + 2)); [|lia].
    destruct (Z.leb_spec 0 (i * 4 + 3)); [|lia].
    replace (Z.to_nat (i * 4 + 1)) with (Z.to_nat (i * 4) + 1)%nat by lia.
    replace (Z.to_nat (i * 4 + 2)) with (Z.to_nat (i * 4) + 2)%nat by lia.
    replace (Z.to_nat (i * 4 + 3)) with (Z.to_nat (i * 4) + 3)%nat by lia.
    split; [rewrite !length_insert; exact Hlen|].
    intros i' k Hi' Hk.
    destruct (Z.eq_dec i' i) as [->|Hne].
    - fold val. rewrite Hbytes.
      destruct k as [|[|[|[|k]]]]; [| | | |lia];
        rewrite ?Nat.add_0_r;
        repeat first [ rewrite list_lookup_insert_eq by (rewrite ?length_insert; lia)
                     | rewrite list_lookup_insert_ne by lia ];
        reflexivity.
    - rewrite !list_lookup_insert_ne by lia. apply Hdata; lia. }
  unfold pixel_bytes, pixel_alpha in Hput. fold val.
  destruct (Rlt_dec 0 val); apply Hput; reflexivity.
Qed.

Lemma renderLoop_pixels_inv (solver : WaveSolver) (data : list Z) :
  Z.of_nat (List.length data) = 4 * (size solver * size solver) ->
  pixels_inv solver (List.length data) (size solver * size solver)
    (renderLoop_pixels solver data).
Proof.
  intros Hlen. unfold renderLoop_pixels. cbv zeta.
  apply (for_range_ind (fun i => pixels_inv solver (List.length data) i)); [nia| |].
  - split; [reflexivity|]. intros i' k Hi'. lia.
  - intros i data' Hi. apply pixels_inv_cell; lia.
Qed.

(** X23.  The pixel loop of [renderLoop] draws every cell from its own
    field value.  For image data of [4 * size * size] bytes, the four bytes
    of cell [i] are red (255, 50, 50) when [u[i] > 0] and blue (50, 100, 255)
    otherwise, with the alpha byte [2000 * |u[i]|] clamped to 255 and
    rounded; the length of the data is unchanged. *)
Theorem renderLoop_pixels_image (solver : WaveSolver) (data : list Z) (i : Z) :
  Z.of_nat (List.length data) = 4 * (size solver * size solver) ->
  0 <= i < size solver * size solver ->
  let image := renderLoop_pixels solver data in
  let val := F.get (u solver) i in
  List.length image = List.length data
  /\ image !! Z.to_nat (i * 4) = Some (if Rlt_dec 0 val then 255 else 50)
  /\ image !! Z.to_nat (i * 4 + 1) = Some (if Rlt_dec 0 val then 50 else 100)
  /\ image !! Z.to_nat (i * 4 + 2) = Some (if Rlt_dec 0 val then 50 else 255)
  /\ image !! Z.to_nat (i * 4 + 3)
     = Some (ToUint8Clamp (Rmin 255 (Rabs (val * 2000)))).
Proof.
  intros Hlen Hi image val.
  destruct (renderLoop_pixels_inv solver data Hlen) as [Hl Hdata].
  fold image in Hl, Hdata.
  split; [exact Hl|].
  pose proof (Hdata i 0%nat Hi ltac:(lia)) as H0.
  pose proof (Hdata i 1%nat Hi ltac:(lia)) as H1.
  pose proof (Hdata i 2%nat Hi ltac:(lia)) as H2.
  pose proof (Hdata i 3%nat Hi ltac:(lia)) as H3.
  rewrite Nat.add_0_r in H0.
  replace (Z.to_nat (i * 4) + 1)%nat with (Z.to_nat (i * 4 + 1)) in H1 by lia.
  replace (Z.to_nat (i * 4) + 2)%nat with (Z.to_nat (i * 4 + 2)) in H2 by lia.
  replace (Z.to_nat (i * 4) + 3)%nat with (Z.to_nat (i * 4 + 3)) in H3 by lia.
  rewrite H0, H1, H2, H3. fold val. unfold pixel_bytes, pixel_alpha.
  destruct (Rlt_dec 0 val); repeat split; reflexivity.
Qed.

(** X23 at the centre cell of the sample grid. *)
Lemma renderLoop_pixels_image_witness :
  renderLoop_pixels sample_grid (replicate 36 0) !! Z.to_nat (4 * 4 + 3)
  = Some (ToUint8Clamp (Rmin 255 (Rabs (F.get (u sample_grid) 4 * 2000)))).
Proof.
  refine (proj2 (proj2 (proj2 (proj2
            (renderLoop_pixels_image sample_grid (replicate 36 0) 4 _ _)))));
    simpl; lia.
Defined.

(** X24.  The alpha byte of a pixel is between 0 and 255, the same for a
    field value and its opposite, 0 for a zero field, 255 as soon as
    [|val| >= 0.1275], and below that within half a level of
    [2000 * |val|]. *)
Theorem pixel_alpha_scale (val : R) :
  0 <= pixel_alpha val <= 255
  /\ pixel_alpha (- val) = pixel_alpha val
  /\ pixel_alpha 0 = 0
  /\ ((0.1275 <= Rabs val)%R -> pixel_alpha val = 255)
  /\ ((Rabs val <= 0.1275)%R ->
      (Rabs (IZR (pixel_alpha val) - 2000 * Rabs val) <= 0.5)%R).
Proof.
  unfold pixel_alpha.
  assert (Hscale : Rabs (val * 2000) = (2000 * Rabs val)%R).
  { rewrite Rabs_mult, (Rabs_pos_eq 2000) by lra. ring. }
  split; [apply ToUint8Clamp_range|]. split; [|split; [|split]].
  - replace (- val * 2000)%R with (- (val * 2000))%R by ring.
    rewrite Rabs_Ropp. reflexivity.
  - rewrite Rmult_0_l, Rabs_R0, Rmin_right by lra.
    unfold ToUint8Clamp. destruct (Rle_dec 0 0); [reflexivity|lra].
  - intros Hbig. rewrite Hscale, Rmin_left by lra.
    unfold ToUint8Clamp. destruct (Rle_dec 255 0); [lra|].
    destruct (Rle_dec 255 255); [|lra].
    destruct (Rle_dec 255 0); [lra|reflexivity].
  - intros Hsmall. rewrite Hscale, Rmin_right by lra.
    apply ToUint8Clamp_nearest. pose proof (Rabs_pos val). lra.
Qed.

(** ** The transmission graph *)

Lemma iter_by_ind {St : Type} (P : Z -> St -> Prop) (body : Z -> St -> St)
    (stride : Z) (n : nat) (i : Z) (st : St) :
  P 0 st ->
  (forall k st, 0 <= k < Z.of_nat n -> P k st -> P (k + 1) (body (i + k * stride) st)) ->
  P (Z.of_nat n) (iter_by n i stride body st).
Proof.
  revert P i st. induction n as [|n IH]; intros P i st H0 Hstep; simpl iter_by.
  - exact H0.
  - replace (Z.of_nat (S n)) with (Z.of_nat n + 1) by lia.
    apply (IH (fun k => P (k + 1))).
    + replace i with (i + 0 * stride) at 1 by lia. apply Hstep; [lia|exact H0].
    + intros k st' Hk HP.
      replace (i + stride + k * stride) with (i + (k + 1) * stride) by lia.
      apply Hstep; [lia|exact HP].
Qed.

Lemma for_range_by_ind {St : Type} (P : Z -> St -> Prop) (lo hi stride : Z)
    (body : Z -> St -> St) (st : St) :
  P 0 st ->
  (forall k st,
     0 <= k < (hi - lo + stride - 1) / stride ->
     P k st -> P (k + 1) (body (lo + k * stride) st)) ->
  P (Z.max 0 ((hi - lo + stride - 1) / stride)) (for_range_by lo hi stride body st).
Proof.
  intros H0 Hstep. unfold for_range_by.
  replace (Z.max 0 ((hi - lo + stride - 1) / stride))
    with (Z.of_nat (Z.to_nat ((hi - lo + stride - 1) / stride))) by lia.
  apply iter_by_ind; [exact H0|].
  intros k st' Hk. apply Hstep. lia.
Qed.

(** The frequency loop makes 97 points, one per iteration. *)
Lemma frequency_loop_points (random : nat -> R) (hasBandgap : bool)
    (contrast centerFreq gapWidth : R) :
  snd (for_range_by 200 5001 50 (fun f '(calls, newData) =>
    let db := (-2 - random calls * 2)%R in
    let db := (db - (IZR f / 5000) * 3)%R in
    let db :=
      if hasBandgap then
        let dist := Rabs (IZR f - centerFreq) in
        if Rlt_dec dist (gapWidth / 2) then
          let depth := (20 + contrast * 3)%R in
          let normalizedDist := (dist / (gapWidth / 2))%R in
          let shape := (1 - normalizedDist ^ 2)%R in
          (db - depth * shape)%R
        else db
      else db in
    (S calls, newData ++ [{| freq := f; db := db |}])) (O, []))
  = map (graph_point random hasBandgap contrast centerFreq gapWidth) (seq 0 97).
Proof.
  match goal with
  | |- snd ?loop = _ =>
      assert (Hloop : loop
                      = (97%nat,
                         map (graph_point random hasBandgap contrast centerFreq gapWidth)
                             (seq 0 97)))
  end.
  { apply (for_range_by_ind
             (fun k st => st = (Z.to_nat k,
                                map (graph_point random hasBandgap contrast centerFreq gapWidth)
                                    (seq 0 (Z.to_nat k))))
             200 5001 50); [reflexivity|].
    change ((5001 - 200 + 50 - 1) / 50) with 97.
    intros k st Hk ->.
    replace (Z.to_nat (k + 1)) with (S (Z.to_nat k)) by lia.
    rewrite seq_S, map_app. simpl. do 3 f_equal.
    unfold graph_point. rewrite Z2Nat.id by lia. reflexivity. }
  rewrite Hloop. reflexivity.
Qed.

(** What [updateTransmissionGraph] returns: 97 points computed from one
    band-gap decision, which is only positive for a contrast above 1.2. *)
Lemma updateTransmissionGraph_points (random : nat -> R) (solver : WaveSolver) :
  exists hasBandgap contrast centerFreq gapWidth,
    (hasBandgap = true -> (1.2 < contrast)%R)
    /\ updateTransmissionGraph random solver
       = map (graph_point random hasBandgap contrast centerFreq gapWidth) (seq 0 97).
Proof.
  unfold updateTransmissionGraph. cbv zeta.
  match goal with
  | |- context [for_range_by 0 _ 4 ?body0 ?st0] =>
      set (scan := for_range_by 0 (size solver * size solver) 4 body0 st0)
  end.
  set (contrast := (match maxC scan with None => 343 | Some m => m end
                    / match minC scan with None => 343 | Some m => m end)%R).
  eexists. exists contrast. eexists. eexists.
  split; [|apply frequency_loop_points].
  destruct (Rlt_dec 1.2 contrast) as [Hc|Hc]; [intros _; exact Hc|discriminate].
Qed.

Lemma graph_point_loss (random : nat -> R) (hasBandgap : bool)
    (contrast centerFreq gapWidth : R) (k : nat) :
  (hasBandgap = true -> (1.2 < contrast)%R) ->
  (0 <= random k)%R ->
  let p := graph_point random hasBandgap contrast centerFreq gapWidth k in
  freq p = 200 + Z.of_nat k * 50
  /\ (db p <= -2 - 3 * IZR (freq p) / 5000)%R.
Proof.
  intros Hgap Hrand p. split; [reflexivity|].
  unfold p, graph_point. cbv zeta. simpl freq. simpl db.
  set (f := IZR (200 + Z.of_nat k * 50)).
  destruct hasBandgap; [|lra].
  destruct (Rlt_dec (Rabs (f - centerFreq)) (gapWidth / 2)) as [Hin|Hout]; [|lra].
  specialize (Hgap eq_refl).
  set (dist := Rabs (f - centerFreq)) in *.
  assert (Hd0 : (0 <= dist)%R) by apply Rabs_pos.
  assert (Hhalf : (0 < gapWidth / 2)%R) by lra.
  set (nd := (dist / (gapWidth / 2))%R).
  assert (Hnd : (0 <= nd < 1)%R).
  { assert (Hmul : (nd * (gapWidth / 2) = dist)%R) by (unfold nd; field; lra).
    split; nra. }
  assert (Hshape : (0 <= 1 - nd ^ 2)%R) by nra.
  assert (Hdepth : (0 <= 20 + contrast * 3)%R) by lra.
  pose proof (Rmult_le_pos _ _ Hdepth Hshape). lra.
Qed.

(** X25.  The transmission curve always has 97 points, at 200, 250, ...,
    5000 Hz, whatever the solver holds; and with [Math.random()] never
    negative every point is a loss of at least 2 dB plus the absorption
    term: [db <= -2 - 3 * freq / 5000], so never above -2.12 dB. *)
Theorem updateTransmissionGraph_curve
    (random : nat -> R) (solver : WaveSolver) (k : nat) :
  (k < 97)%nat ->
  (0 <= random k)%R ->
  List.length (updateTransmissionGraph random solver) = 97%nat
  /\ exists p,
       updateTransmissionGraph random solver !! k = Some p
       /\ freq p = 200 + Z.of_nat k * 50
       /\ (db p <= -2 - 3 * IZR (freq p) / 5000)%R
       /\ (db p <= -2.12)%R.
Proof.
  intros Hk Hrand.
  destruct (updateTransmissionGraph_points random solver)
    as (hb & contrast & cf & gw & Hgap & ->).
  split; [rewrite length_map, length_seq; reflexivity|].
  eexists. split.
  - rewrite list_lookup_fmap, lookup_seq_lt by exact Hk. reflexivity.
  - destruct (graph_point_loss random hb contrast cf gw k Hgap Hrand) as [Hf Hdb].
    split; [exact Hf|]. split; [exact Hdb|].
    eapply Rle_trans; [exact Hdb|]. rewrite Hf.
    assert (Hlow : (200 <= IZR (200 + Z.of_nat k * 50))%R) by (apply IZR_le; lia).
    lra.
Qed.

(** X25 for the first point of the curve of the sample grid. *)
Lemma updateTransmissionGraph_curve_witness :
  List.length (updateTransmissionGraph (fun _ => 0.5%R) sample_grid) = 97%nat.
Proof.
  refine (proj1 (updateTransmissionGraph_curve (fun _ => 0.5%R) sample_grid 0 _ _)).
  - lia.
  - lra.
Defined.

(** X26.  A uniform material shows no band gap.  When every cell of the
    velocity map of a well-formed solver holds the same positive value (as
    after the constructor, [resetMaterialMap] or [handleReset]), the curve
    is the baseline at all 97 frequencies:
    [db = -2 - 2 * random - 3 * freq / 5000]. *)
Theorem updateTransmissionGraph_uniform
    (random : nat -> R) (solver : WaveSolver) (v : R) :
  (0 < v)%R ->
  (forall j, 0 <= j < size solver * size solver -> F.get (velocityMap solver) j = v) ->
  updateTransmissionGraph random solver = map (baseline_point random) (seq 0 97).
Proof.
  intros Hv Huniform.
  unfold updateTransmissionGraph. cbv zeta.
  match goal with
  | |- context [for_range_by 0 _ 4 ?body0 ?st0] =>
      set (scan := for_range_by 0 (size solver * size solver) 4 body0 st0)
  end.
  assert (Hscan : minC scan = maxC scan
                  /\ (minC scan = None \/ minC scan = Some (sqrt v))).
  { pose proof (for_range_by_ind
                  (fun (_ : Z) scan =>
                     minC scan = maxC scan
                     /\ (minC scan = None \/ minC scan = Some (sqrt v)))
                  0 (size solver * size solver) 4) as Hloop.
    apply Hloop; clear Hloop.
    - split; [reflexivity|left; reflexivity].
    - intros k st Hk [Heq Hmin]. simpl minC. simpl maxC.
      assert (Hidx : 0 <= 0 + k * 4 < size solver * size solver).
      { pose proof (Z.mul_div_le (size solver * size solver - 0 + 4 - 1) 4 ltac:(lia)).
        lia. }
      rewrite (Huniform _ Hidx). rewrite <- Heq.
      destruct Hmin as [->| ->].
      + split; [reflexivity|right; reflexivity].
      + destruct (Rlt_dec (sqrt v) (sqrt v)) as [Hlt|_]; [lra|].
        split; [reflexivity|right; reflexivity]. }
  destruct Hscan as [Heq Hmin]. rewrite <- Heq.
  assert (Hcontrast : (match minC scan with None => 343 | Some m => m end
                       / match minC scan with None => 343 | Some m => m end = 1)%R).
  { pose proof (sqrt_lt_R0 v Hv).
    destruct Hmin as [->| ->]; field; lra. }
  rewrite Hcontrast.
  destruct (Rlt_dec 1.2 1) as [Hlt|_]; [lra|].
  exact (frequency_loop_points random false 1 (2500 * (totalC scan / IZR (count scan) / 343)) 0).
Qed.

(** X26 at the sample grid, all air. *)
Lemma updateTransmissionGraph_uniform_witness :
  updateTransmissionGraph (fun _ => 0.5%R) sample_grid
  = map (baseline_point (fun _ => 0.5%R)) (seq 0 97).
Proof.
  apply (updateTransmissionGraph_uniform (fun _ => 0.5%R) sample_grid (343 * 343)).
  - lra.
  - intros j Hj. change (size sample_grid * size sample_grid) with 9 in Hj.
    assert (Hcases : j = 0 \/ j = 1 \/ j = 2 \/ j = 3 \/ j = 4
                     \/ j = 5 \/ j = 6 \/ j = 7 \/ j = 8) by lia.
    destruct Hcases as [-> | [-> | [-> | [-> | [-> | [-> | [-> | [-> | ->]]]]]]]];
      reflexivity.
Defined.

(** ** Stability of the scheme

    Sums over the cells. *)

Lemma sum_from_ext (f g : Z -> R) (n : nat) (lo : Z) :
  (forall i, lo <= i < lo + Z.of_nat n -> f i = g i) ->
  sum_from lo n f = sum_from lo n g.
Proof.
  revert lo. induction n as [|n IH]; intros lo H; simpl; [reflexivity|].
  rewrite (H lo) by lia. f_equal. apply IH. intros i Hi. apply H. lia.
Qed.

Lemma sum_from_le (f g : Z -> R) (n : nat) (lo : Z) :
  (forall i, lo <= i < lo + Z.of_nat n -> (f i <= g i)%R) ->
  (sum_from lo n f <= sum_from lo n g)%R.
Proof.
  revert lo. induction n as [|n IH]; intros lo H; simpl; [lra|].
  apply Rplus_le_compat; [apply H; lia|]. apply IH. intros i Hi. apply H. lia.
Qed.

Lemma sum_from_zero (f : Z -> R) (n : nat) (lo : Z) :
  (forall i, lo <= i < lo + Z.of_nat n -> f i = 0%R) -> sum_from lo n f = 0%R.
Proof.
  revert lo. induction n as [|n IH]; intros lo H; simpl; [reflexivity|].
  rewrite (H lo) by lia. rewrite IH; [lra|]. intros i Hi. apply H. lia.
Qed.

Lemma sum_from_plus (f g : Z -> R) (n : nat) (lo : Z) :
  sum_from lo n (fun i => f i + g i)%R = (sum_from lo n f + sum_from lo n g)%R.
Proof. revert lo. induction n as [|n IH]; intros lo; simpl; [lra|rewrite IH; lra]. Qed.

Lemma sum_from_scal (c : R) (f : Z -> R) (n : nat) (lo : Z) :
  sum_from lo n (fun i => c * f i)%R = (c * sum_from lo n f)%R.
Proof. revert lo. induction n as [|n IH]; intros lo; simpl; [lra|rewrite IH; lra]. Qed.

Lemma sum_from_shift (f : Z -> R) (d : Z) (n : nat) (lo : Z) :
  sum_from lo n (fun i => f (i + d)) = sum_from (lo + d) n f.
Proof.
  revert lo. induction n as [|n IH]; intros lo; simpl; [reflexivity|].
  rewrite IH. do 2 f_equal. lia.
Qed.

Lemma sum_from_app (f : Z -> R) (n1 n2 : nat) (lo : Z) :
  sum_from lo (n1 + n2) f
  = (sum_from lo n1 f + sum_from (lo + Z.of_nat n1) n2 f)%R.
Proof.
  revert lo. induction n1 as [|n1 IH]; intros lo.
  - simpl. rewrite Z.add_0_r. lra.
  - cbn [Nat.add sum_from]. rewrite IH.
    replace (lo + 1 + Z.of_nat n1) with (lo + Z.of_nat (S n1)) by lia. lra.
Qed.

Lemma sum_range_split (f : Z -> R) (lo mid hi : Z) :
  lo <= mid <= hi ->
  sum_range lo hi f = (sum_range lo mid f + sum_range mid hi f)%R.
Proof.
  intros H. unfold sum_range.
  replace (Z.to_nat (hi - lo)) with (Z.to_nat (mid - lo) + Z.to_nat (hi - mid))%nat by lia.
  rewrite sum_from_app. do 2 f_equal. lia.
Qed.

Lemma sum_range_zero (f : Z -> R) (lo hi : Z) :
  (forall i, lo <= i < hi -> f i = 0%R) -> sum_range lo hi f = 0%R.
Proof. intros H. apply sum_from_zero. intros i Hi. apply H. lia. Qed.

(** A sum over a range that contains the support is the sum over the
    support. *)
Lemma sum_range_support (f : Z -> R) (lo hi A B : Z) :
  lo <= A -> A <= B -> B <= hi ->
  (forall i, ~ A <= i < B -> f i = 0%R) ->
  sum_range lo hi f = sum_range A B f.
Proof.
  intros H1 H2 H3 Hz.
  rewrite (sum_range_split f lo A hi) by lia.
  rewrite (sum_range_split f A B hi) by lia.
  rewrite (sum_range_zero f lo A) by (intros i Hi; apply Hz; lia).
  rewrite (sum_range_zero f B hi) by (intros i Hi; apply Hz; lia).
  lra.
Qed.

Lemma supported_zero (s : Z) (h : Z -> R) :
  supported s h -> s < 3 -> forall i, h i = 0%R.
Proof. intros Hh Hs i. apply Hh. unfold inner_range. nia. Qed.

(** Moving by one cell or by one row inside the grid does not change the
    sum of a function that vanishes outside the inner cells. *)
Lemma cells_sum_shift (s d : Z) (h : Z -> R) :
  supported s h -> Z.abs d <= s ->
  cells_sum s (fun i => h (i + d)) = cells_sum s h.
Proof.
  intros Hh Hd. unfold cells_sum.
  destruct (Z.lt_ge_cases s 3) as [Hs|Hs].
  - rewrite !sum_range_zero; [reflexivity| |]; intros i _; apply supported_zero with s; assumption.
  - unfold sum_range at 1. rewrite sum_from_shift.
    change (sum_from (0 + d) (Z.to_nat (s * s - 0)) h)
      with (sum_from (0 + d) (Z.to_nat (s * s - 0)) h).
    replace (Z.to_nat (s * s - 0)) with (Z.to_nat (s * s + d - (0 + d))) by lia.
    change (sum_range (0 + d) (s * s + d) h = sum_range 0 (s * s) h).
    assert (Hz : forall i, ~ s + 1 <= i < s * s - s - 1 -> h i = 0%R).
    { intros i Hi. apply Hh. unfold inner_range. lia. }
    rewrite (sum_range_support h (0 + d) (s * s + d) (s + 1) (s * s - s - 1)); [|nia..|exact Hz].
    rewrite (sum_range_support h 0 (s * s) (s + 1) (s * s - s - 1)); [reflexivity|nia..|exact Hz].
Qed.

Lemma cells_sum_ext (s : Z) (f g : Z -> R) :
  (forall i, 0 <= i < s * s -> f i = g i) -> cells_sum s f = cells_sum s g.
Proof. intros H. apply sum_from_ext. intros i Hi. apply H. lia. Qed.

Lemma cells_sum_le (s : Z) (f g : Z -> R) :
  (forall i, 0 <= i < s * s -> (f i <= g i)%R) -> (cells_sum s f <= cells_sum s g)%R.
Proof. intros H. apply sum_from_le. intros i Hi. apply H. lia. Qed.

Lemma cells_sum_plus (s : Z) (f g : Z -> R) :
  cells_sum s (fun i => f i + g i)%R = (cells_sum s f + cells_sum s g)%R.
Proof. apply sum_from_plus. Qed.

Lemma cells_sum_scal (s : Z) (c : R) (f : Z -> R) :
  cells_sum s (fun i => c * f i)%R = (c * cells_sum s f)%R.
Proof. apply sum_from_scal. Qed.

Lemma cells_sum_nonneg (s : Z) (f : Z -> R) :
  (forall i, 0 <= i < s * s -> (0 <= f i)%R) -> (0 <= cells_sum s f)%R.
Proof.
  intros H. rewrite <- (sum_from_zero (fun _ => 0%R) (Z.to_nat (s * s - 0)) 0) by reflexivity.
  apply sum_from_le. intros i Hi. apply H. lia.
Qed.

(** A term of a sum of non-negative terms is at most the sum. *)
Lemma cells_sum_term (s : Z) (f : Z -> R) (k : Z) :
  (forall i, 0 <= i < s * s -> (0 <= f i)%R) -> 0 <= k < s * s ->
  (f k <= cells_sum s f)%R.
Proof.
  intros H Hk. unfold cells_sum.
  rewrite (sum_range_split f 0 k (s * s)) by lia.
  rewrite (sum_range_split f k (k + 1) (s * s)) by lia.
  assert (H1 : (0 <= sum_range 0 k f)%R).
  { rewrite <- (sum_from_zero (fun _ => 0%R) (Z.to_nat (k - 0)) 0) by reflexivity.
    apply sum_from_le. intros i Hi. apply H. lia. }
  assert (H2 : (0 <= sum_range (k + 1) (s * s) f)%R).
  { rewrite <- (sum_from_zero (fun _ => 0%R) (Z.to_nat (s * s - (k + 1))) (k + 1)) by reflexivity.
    apply sum_from_le. intros i Hi. apply H. lia. }
  assert (H3 : sum_range k (k + 1) f = f k).
  { unfold sum_range. replace (Z.to_nat (k + 1 - k)) with 1%nat by lia. simpl. lra. }
  lra.
Qed.

(** At most one cell has a given index. *)
Lemma sum_from_point (c : Z) (n : nat) (lo : Z) :
  (sum_from lo n (fun i => if i =? c then 1 else 0) <= 1)%R
  /\ (c < lo -> sum_from lo n (fun i => if i =? c then 1 else 0)%R = 0%R).
Proof.
  revert lo. induction n as [|n IH]; intros lo; simpl; [split; [lra|reflexivity]|].
  destruct (IH (lo + 1)) as [IH1 IH2].
  destruct (Z.eqb_spec lo c) as [->|Hne].
  - split; [rewrite IH2 by lia; lra|lia].
  - split; [lra|]. intros Hlt. rewrite IH2 by lia. lra.
Qed.

Lemma cells_sum_zero (s : Z) (f : Z -> R) :
  (forall i, f i = 0%R) -> cells_sum s f = 0%R.
Proof. intros H. apply sum_from_zero. intros i _. apply H. Qed.

Lemma supported_product_l (s : Z) (a b : Z -> R) :
  supported s a -> supported s (fun i => a i * b i)%R.
Proof. intros Ha i Hi. rewrite (Ha i Hi). lra. Qed.

Lemma shift_product (s d : Z) (a b : Z -> R) :
  supported s a -> Z.abs d <= s ->
  cells_sum s (fun i => b i * a (i + d)%Z)%R = cells_sum s (fun i => a i * b (i - d)%Z)%R.
Proof.
  intros Ha Hd.
  rewrite <- (cells_sum_shift s d (fun j => a j * b (j - d)%Z)%R);
    [|apply (supported_product_l s a (fun j => b (j - d)%Z)); exact Ha|exact Hd].
  apply cells_sum_ext. intros i _. cbv beta.
  replace (i + d - d) with i by lia. lra.
Qed.

Lemma shift_product_back (s d : Z) (a b : Z -> R) :
  supported s a -> Z.abs d <= s ->
  cells_sum s (fun i => b i * a (i - d)%Z)%R = cells_sum s (fun i => a i * b (i + d)%Z)%R.
Proof.
  intros Ha Hd.
  rewrite (cells_sum_ext s (fun i => b i * a (i - d)%Z)%R (fun i => b i * a (i + - d)%Z)%R)
    by (intros i _; replace (i + - d) with (i - d) by lia; reflexivity).
  rewrite (shift_product s (- d) a b Ha) by lia.
  apply cells_sum_ext. intros i _. replace (i - - d) with (i + d) by lia. reflexivity.
Qed.

Lemma stencil_sum (s : Z) (r : R) (a b : Z -> R) :
  cells_sum s (fun i => b i * stencil s r a i)%R
  = ((2 - 4 * r) * cells_sum s (fun i => b i * a i)
     + r * (cells_sum s (fun i => b i * a (i + 1)%Z)
            + cells_sum s (fun i => b i * a (i - 1)%Z)
            + cells_sum s (fun i => b i * a (i + s)%Z)
            + cells_sum s (fun i => b i * a (i - s)%Z)))%R.
Proof.
  unfold cells_sum, sum_range. generalize (Z.to_nat (s * s - 0)) as n. generalize 0 as lo.
  intros lo n. revert lo. induction n as [|n IH]; intros lo; cbn [sum_from]; [lra|].
  rewrite IH. unfold stencil. lra.
Qed.

(** The stencil is symmetric. *)
Lemma stencil_symmetric (s : Z) (r : R) (a b : Z -> R) :
  supported s a -> supported s b ->
  cells_sum s (fun i => b i * stencil s r a i)%R
  = cells_sum s (fun i => a i * stencil s r b i)%R.
Proof.
  intros Ha Hb. rewrite !stencil_sum.
  destruct (Z.lt_ge_cases s 3) as [Hs|Hs].
  { pose proof (supported_zero s a Ha Hs) as Hz.
    rewrite !cells_sum_zero by (intros i; rewrite ?Hz; lra). reflexivity. }
  rewrite (shift_product s 1 a b Ha) by lia.
  rewrite (shift_product_back s 1 a b Ha) by lia.
  rewrite (shift_product s s a b Ha) by lia.
  rewrite (shift_product_back s s a b Ha) by lia.
  rewrite (cells_sum_ext s (fun i => b i * a i)%R (fun i => a i * b i)%R)
    by (intros; lra).
  lra.
Qed.

Lemma cells_sum_square_shift (s d : Z) (a : Z -> R) :
  supported s a -> Z.abs d <= s ->
  cells_sum s (fun i => a (i + d)%Z ^ 2)%R = cells_sum s (fun i => a i ^ 2)%R.
Proof.
  intros Ha Hd. apply (cells_sum_shift s d (fun i => a i ^ 2)%R); [|exact Hd].
  intros i Hi. rewrite (Ha i Hi). lra.
Qed.

Lemma cells_sum_cross (s d : Z) (a b : Z -> R) :
  supported s a -> Z.abs d <= s ->
  (2 * cells_sum s (fun i => b i * a (i + d)%Z)
   <= cells_sum s (fun i => b i ^ 2) + cells_sum s (fun i => a i ^ 2))%R.
Proof.
  intros Ha Hd. rewrite <- (cells_sum_square_shift s d a Ha Hd).
  rewrite <- cells_sum_plus, <- cells_sum_scal.
  apply cells_sum_le. intros i _. cbv beta.
  generalize (a (i + d)) (b i). intros x y.
  pose proof (pow2_ge_0 (y - x)). nra.
Qed.

Lemma cells_sum_cross_back (s d : Z) (a b : Z -> R) :
  supported s a -> Z.abs d <= s ->
  (2 * cells_sum s (fun i => b i * a (i - d)%Z)
   <= cells_sum s (fun i => b i ^ 2) + cells_sum s (fun i => a i ^ 2))%R.
Proof.
  intros Ha Hd.
  rewrite (cells_sum_ext s (fun i => b i * a (i - d)%Z)%R (fun i => b i * a (i + - d)%Z)%R)
    by (intros i _; replace (i + - d) with (i - d) by lia; reflexivity).
  apply cells_sum_cross; [exact Ha|lia].
Qed.

Lemma energy_split (s : Z) (r : R) (e a b : Z -> R) :
  energy s r e a b
  = (cells_sum s (fun i => (e i + 1) / 2 * (a i ^ 2 + b i ^ 2))
     - cells_sum s (fun i => b i * stencil s r a i))%R.
Proof.
  unfold energy, cells_sum, sum_range. generalize (Z.to_nat (s * s - 0)) as n.
  generalize 0 as lo. intros lo n. revert lo.
  induction n as [|n IH]; intros lo; cbn [sum_from]; [lra|]. rewrite IH. lra.
Qed.

Lemma square_diff_sum (s : Z) (a b : Z -> R) :
  cells_sum s (fun i => (a i - b i) ^ 2)%R
  = (cells_sum s (fun i => a i ^ 2) + cells_sum s (fun i => b i ^ 2)
     - 2 * cells_sum s (fun i => b i * a i))%R.
Proof.
  unfold cells_sum, sum_range. generalize (Z.to_nat (s * s - 0)) as n.
  generalize 0 as lo. intros lo n. revert lo.
  induction n as [|n IH]; intros lo; cbn [sum_from]; [lra|]. rewrite IH. lra.
Qed.

(** The energy bounds the squared difference of its two fields (the
    kinetic part) as soon as [2 * r < 1]. *)
Lemma energy_coercive (s : Z) (r : R) (e a b : Z -> R) :
  (0 <= r)%R -> (forall i, 1 <= e i)%R ->
  supported s a -> supported s b ->
  ((1 - 2 * r) * cells_sum s (fun i => (a i - b i) ^ 2) <= energy s r e a b)%R.
Proof.
  intros Hr He Ha Hb.
  rewrite energy_split, stencil_sum, square_diff_sum.
  assert (Hm : (cells_sum s (fun i => a i ^ 2) + cells_sum s (fun i => b i ^ 2)
                <= cells_sum s (fun i => (e i + 1) / 2 * (a i ^ 2 + b i ^ 2)))%R).
  { rewrite <- cells_sum_plus. apply cells_sum_le. intros i _.
    pose proof (He i). nra. }
  destruct (Z.lt_ge_cases s 3) as [Hs|Hs].
  { pose proof (supported_zero s a Ha Hs) as Hza.
    pose proof (supported_zero s b Hb Hs) as Hzb.
    rewrite !cells_sum_zero by (intros i; rewrite ?Hza, ?Hzb; lra). lra. }
  pose proof (cells_sum_cross s 1 a b Ha ltac:(lia)) as H1.
  pose proof (cells_sum_cross_back s 1 a b Ha ltac:(lia)) as H2.
  pose proof (cells_sum_cross s s a b Ha ltac:(lia)) as H3.
  pose proof (cells_sum_cross_back s s a b Ha ltac:(lia)) as H4.
  nra.
Qed.

(** One step of the damped scheme: the energy grows by no more than the
    work of the forcing. *)
Lemma energy_step (s : Z) (r : R) (e a b c f : Z -> R) :
  (forall i, 1 <= e i)%R ->
  supported s a -> supported s b -> supported s c ->
  (forall i, 0 <= i < s * s ->
     (a i = 0 /\ c i = 0)%R
     \/ (e i * a i = stencil s r b i - c i + f i)%R) ->
  (energy s r e a b
   <= energy s r e b c + cells_sum s (fun i => f i * (a i - c i)))%R.
Proof.
  intros He Ha Hb Hc Hrel.
  rewrite !energy_split.
  rewrite (stencil_symmetric s r a b Ha Hb).
  assert (H : (cells_sum s (fun i => (e i + 1) / 2 * (a i ^ 2 + b i ^ 2))
               + cells_sum s (fun i => -1 * (a i * stencil s r b i))
               <= (cells_sum s (fun i => (e i + 1) / 2 * (b i ^ 2 + c i ^ 2))
                   + cells_sum s (fun i => -1 * (c i * stencil s r b i)))
                  + cells_sum s (fun i => f i * (a i - c i)))%R).
  { rewrite <- !cells_sum_plus. apply cells_sum_le. intros i Hi.
    pose proof (He i) as Hei.
    destruct (Hrel i Hi) as [[-> ->]|Heq].
    - lra.
    - assert (Hst : (stencil s r b i = e i * a i + c i - f i)%R) by lra.
      rewrite Hst.
      assert (0 <= (e i - 1) * (a i - c i) ^ 2)%R
        by (apply Rmult_le_pos; [lra|apply pow2_ge_0]).
      generalize dependent (e i). generalize (a i) (b i) (c i) (f i).
      intros x y z w k _ _ _ Hk. lra. }
  rewrite !cells_sum_scal in H. lra.
Qed.

(** The growth of the energy under a forcing whose squares sum to at most
    [Phi]: with [kappa = 1 - 2 * r], [kappa * energy] after [n] steps from
    rest is at most [2 * Phi * n^2]. *)
Lemma energy_growth (s : Z) (r : R) (e a b c f : Z -> R) (Phi : R) (n : nat) :
  (0 <= r)%R -> (2 * r < 1)%R ->
  (forall i, 1 <= e i)%R ->
  supported s a -> supported s b -> supported s c ->
  (forall i, 0 <= i < s * s ->
     (a i = 0 /\ c i = 0)%R
     \/ (e i * a i = stencil s r b i - c i + f i)%R) ->
  (cells_sum s (fun i => f i ^ 2) <= Phi)%R ->
  ((1 - 2 * r) * energy s r e b c <= 2 * Phi * INR n ^ 2)%R ->
  ((1 - 2 * r) * energy s r e a b <= 2 * Phi * INR (S n) ^ 2)%R.
Proof.
  intros Hr Hr2 He Ha Hb Hc Hrel HPhi Hprev.
  rewrite S_INR. pose proof (pos_INR n) as Hn.
  set (k := (INR n + 1)%R). assert (Hk : (1 <= k)%R) by (unfold k; lra).
  replace (INR n) with (k - 1)%R in Hprev by (unfold k; lra).
  set (kappa := (1 - 2 * r)%R) in *. assert (Hkappa : (0 < kappa)%R) by (unfold kappa; lra).
  pose proof (energy_step s r e a b c f He Ha Hb Hc Hrel) as Hstep.
  pose proof (energy_coercive s r e a b Hr He Ha Hb) as Hab.
  pose proof (energy_coercive s r e b c Hr He Hb Hc) as Hbc.
  fold kappa in Hab, Hbc.
  assert (HY : (kappa * (2 * k) * cells_sum s (fun i => f i * (a i - c i))
                <= 2 * k ^ 2 * cells_sum s (fun i => f i ^ 2)
                   + kappa ^ 2 * (cells_sum s (fun i => (a i - b i) ^ 2)
                                  + cells_sum s (fun i => (b i - c i) ^ 2)))%R).
  { rewrite <- !cells_sum_plus, <- !cells_sum_scal, <- cells_sum_plus.
    apply cells_sum_le. intros i _. cbv beta.
    generalize (a i) (b i) (c i) (f i). intros x y z w.
    pose proof (pow2_ge_0 (k * w - kappa * (x - y))).
    pose proof (pow2_ge_0 (k * w - kappa * (y - z))). nra. }
  assert (HF0 : (0 <= cells_sum s (fun i => f i ^ 2))%R)
    by (apply cells_sum_nonneg; intros i _; apply pow2_ge_0).
  set (Eab := energy s r e a b) in *. set (Ebc := energy s r e b c) in *.
  set (SF := cells_sum s (fun i => f i * (a i - c i))%R) in *.
  set (SF2 := cells_sum s (fun i => f i ^ 2)%R) in *.
  set (Sab := cells_sum s (fun i => (a i - b i) ^ 2)%R) in *.
  set (Sbc := cells_sum s (fun i => (b i - c i) ^ 2)%R) in *.
  assert (H1 : (kappa * (2 * k) * Eab <= kappa * (2 * k) * Ebc + kappa * (2 * k) * SF)%R).
  { rewrite <- Rmult_plus_distr_l. apply Rmult_le_compat_l; [nra|exact Hstep]. }
  assert (H2 : (kappa ^ 2 * (Sab + Sbc) <= kappa * (Eab + Ebc))%R) by nra.
  assert (H3 : (2 * k ^ 2 * SF2 <= 2 * k ^ 2 * Phi)%R) by nra.
  assert (H4 : (kappa * Eab * (2 * k - 1)
                <= kappa * Ebc * (2 * k + 1) + 2 * k ^ 2 * Phi)%R) by nra.
  assert (H5 : (kappa * Ebc * (2 * k + 1) <= 2 * Phi * (k - 1) ^ 2 * (2 * k + 1))%R)
    by (apply Rmult_le_compat_r; [lra|exact Hprev]).
  assert (H6 : (kappa * Eab * (2 * k - 1) <= 2 * Phi * k ^ 2 * (2 * k - 1))%R).
  { assert (0 <= Phi * (k ^ 2 - 1))%R by (apply Rmult_le_pos; [lra|nra]). nra. }
  apply Rmult_le_reg_r with (2 * k - 1)%R; [lra|exact H6].
Qed.

(** ** The free cells *)

Lemma freeb_true (s src i : Z) :
  freeb s src i = true ->
  interior s (i mod s) (i / s) /\ i = (i / s) * s + i mod s /\ i <> src
  /\ inner_range s i /\ 0 <= i < s * s.
Proof.
  unfold freeb. rewrite !andb_true_iff, negb_true_iff.
  intros ((((H1 & H2) & H3) & H4) & H5).
  apply Z.ltb_lt in H1, H2, H3, H4. apply Z.eqb_neq in H5.
  assert (Hs : 3 <= s) by lia.
  pose proof (Z.div_mod i s ltac:(lia)) as Hdm.
  unfold interior, inner_range. repeat split; try lia; nia.
Qed.

Lemma freeb_cell (s src cx cy : Z) :
  interior s cx cy -> cy * s + cx <> src -> freeb s src (cy * s + cx) = true.
Proof.
  intros [Hx Hy] Hne. unfold freeb.
  rewrite cell_index_mod, cell_index_div by lia.
  rewrite !andb_true_iff, negb_true_iff.
  repeat split; try (apply Z.ltb_lt; lia). apply Z.eqb_neq. exact Hne.
Qed.

Lemma free_field_supported (s src : Z) (a : F.t) : supported s (free_field s src a).
Proof.
  intros i Hi. unfold free_field. destruct (freeb s src i) eqn:E; [|reflexivity].
  exfalso. apply Hi. apply freeb_true in E. tauto.
Qed.

Lemma free_field_out (s src : Z) (a : F.t) (i : Z) :
  ~ 0 <= i < s * s -> free_field s src a i = 0%R.
Proof.
  intros Hi. unfold free_field. destruct (freeb s src i) eqn:E; [|reflexivity].
  exfalso. apply Hi. apply freeb_true in E. tauto.
Qed.

(** The field the sweep reads at a cell of the grid, on a grid whose edge
    cells hold 0: the free field, or the source value at the source
    cell. *)
Lemma presweep_cell (g : WaveSolver) (src : Z) (sigma : R) (cx cy : Z) :
  well_formed g ->
  (forall cx cy, edge (size g) cx cy -> F.get (u g) (cy * size g + cx) = 0%R) ->
  in_grid (size g) cx cy ->
  F.get (F.put (u g) src sigma) (cy * size g + cx)
  = (free_field (size g) src (u g) (cy * size g + cx)
     + sigma * at_source src (cy * size g + cx))%R.
Proof.
  intros (Hu & _) Hedge Hin. unfold free_field, at_source.
  pose proof (cell_index_range _ _ _ Hin) as Hr.
  destruct (Z.eqb_spec (cy * size g + cx) src) as [Heq|Hne].
  - rewrite <- Heq. rewrite F_get_put_eq by (rewrite Hu; exact Hr).
    unfold freeb. rewrite Z.eqb_refl. simpl. rewrite andb_false_r. lra.
  - rewrite F_get_put_ne by congruence.
    destruct (freeb (size g) src (cy * size g + cx)) eqn:E; [lra|].
    rewrite Hedge; [lra|]. split; [exact Hin|].
    assert (Hni : ~ interior (size g) cx cy).
    { intros Hint. rewrite (freeb_cell _ _ _ _ Hint Hne) in E. discriminate. }
    unfold interior in Hni. unfold in_grid in Hin. lia.
Qed.

(** The value the sweep stores at a free cell, in terms of the free
    fields: the undamped update plus the pull of the source cell when it is
    a neighbour, times the damping. *)
Lemma sweep_free_cell (sourceFreq sourceAmp sourceX sourceY time : R)
    (g : WaveSolver) (v : R) (i : Z) :
  let s := size g in
  let src := sourceIdx s sourceX sourceY in
  let sigma := sourceValue sourceFreq sourceAmp time in
  let r := (v * ((DT * DT) / (DX * DX)))%R in
  let g1 := injectSource sourceFreq sourceAmp sourceX sourceY time g in
  well_formed g ->
  (forall cx cy, edge s cx cy -> F.get (u g) (cy * s + cx) = 0%R) ->
  (forall j, 0 <= j < s * s -> F.get (velocityMap g) j = v) ->
  (forall j, 0 <= j < s * s -> (0 < F.get (dampingMap g) j <= 1)%R) ->
  freeb s src i = true ->
  (inverse_damping s src (dampingMap g) i
   * free_field s src (sweep g1 (replicate (Z.to_nat (s * s)) 0%R)) i
   = stencil s r (free_field s src (u g)) i - free_field s src (uPrev g) i
     + r * sigma * source_coupling s src i)%R.
Proof.
  intros s src sigma r g1 Hwf Hedge Hv Hd Hfree.
  pose proof (freeb_true _ _ _ Hfree) as (Hint & Hi & Hne & _ & Hrange).
  set (cx := i mod s) in *. set (cy := i / s) in *.
  unfold inverse_damping, source_coupling, stencil.
  unfold free_field at 1 7. rewrite Hfree.
  destruct (sweep_written g1 (replicate (Z.to_nat (s * s)) 0%R)) as (_ & HA & _).
  rewrite HA;
    [|exists cx, cy; split; [exact Hint|exact Hi]
     |rewrite F_length_zeros by nia; exact Hrange].
  unfold cell_update. cbv zeta.
  change (size g1) with s. change (velocityMap g1) with (velocityMap g).
  change (dampingMap g1) with (dampingMap g). change (uPrev g1) with (uPrev g).
  change (u g1) with (F.put (u g) src sigma).
  rewrite (Hv i Hrange).
  pose proof (Hd i Hrange) as Hdi.
  assert (Hin : forall x y, 0 <= x < s -> 0 <= y < s -> in_grid (size g) x y)
    by (intros x y Hx Hy; split; assumption).
  unfold interior in Hint.
  pose proof (presweep_cell g src sigma cx cy Hwf Hedge
                (Hin cx cy ltac:(lia) ltac:(lia))) as H0.
  pose proof (presweep_cell g src sigma (cx + 1) cy Hwf Hedge
                (Hin (cx + 1) cy ltac:(lia) ltac:(lia))) as H1.
  pose proof (presweep_cell g src sigma (cx - 1) cy Hwf Hedge
                (Hin (cx - 1) cy ltac:(lia) ltac:(lia))) as H2.
  pose proof (presweep_cell g src sigma cx (cy + 1) Hwf Hedge
                (Hin cx (cy + 1) ltac:(lia) ltac:(lia))) as H3.
  pose proof (presweep_cell g src sigma cx (cy - 1) Hwf Hedge
                (Hin cx (cy - 1) ltac:(lia) ltac:(lia))) as H4.
  fold s in H0, H1, H2, H3, H4.
  replace (cy * s + cx) with i in H0 by lia.
  replace (cy * s + (cx + 1)) with (i + 1) in H1 by lia.
  replace (cy * s + (cx - 1)) with (i - 1) in H2 by lia.
  replace ((cy + 1) * s + cx) with (i + s) in H3 by lia.
  replace ((cy - 1) * s + cx) with (i - s) in H4 by lia.
  rewrite H0, H1, H2, H3, H4.
  assert (Hsrc : at_source src i = 0%R).
  { unfold at_source. destruct (Z.eqb_spec i src); [contradiction|reflexivity]. }
  rewrite Hsrc. fold r. field. lra.
Qed.

(** ** The forcing by the source *)

Lemma at_source_sum (s src d : Z) :
  (cells_sum s (fun i => at_source src (i + d)) <= 1)%R.
Proof.
  unfold cells_sum, sum_range. rewrite (sum_from_shift (at_source src) d).
  unfold at_source. apply sum_from_point.
Qed.

Lemma at_source_range (src j : Z) : (0 <= at_source src j <= 1)%R.
Proof. unfold at_source. destruct (j =? src); lra. Qed.

(** A free cell has the source cell as a neighbour on one side at most, and
    the source cell has four neighbours. *)
Lemma source_coupling_sum (s src : Z) :
  (cells_sum s (fun i => source_coupling s src i ^ 2) <= 4)%R.
Proof.
  pose proof (at_source_sum s src 1) as H1.
  pose proof (at_source_sum s src (-1)) as H2.
  pose proof (at_source_sum s src s) as H3.
  pose proof (at_source_sum s src (- s)) as H4.
  assert (H : (cells_sum s (fun i => source_coupling s src i ^ 2)
               <= cells_sum s (fun i => at_source src (i + 1))
                  + cells_sum s (fun i => at_source src (i + -1))
                  + cells_sum s (fun i => at_source src (i + s))
                  + cells_sum s (fun i => at_source src (i + - s)))%R).
  { rewrite <- !cells_sum_plus. apply cells_sum_le. intros i _. cbv beta.
    unfold source_coupling.
    pose proof (at_source_range src (i + 1)).
    pose proof (at_source_range src (i + -1)).
    pose proof (at_source_range src (i + s)).
    pose proof (at_source_range src (i + - s)).
    destruct (freeb s src i) eqn:E; [|lra].
    apply freeb_true in E as ([Hx _] & _).
    assert (Hs : 3 <= s) by lia.
    replace (i - 1) with (i + -1) by lia. replace (i - s) with (i + - s) by lia.
    unfold at_source.
    destruct (Z.eqb_spec (i + 1) src), (Z.eqb_spec (i + -1) src),
      (Z.eqb_spec (i + s) src), (Z.eqb_spec (i + - s) src); try lia; lra. }
  lra.
Qed.

Lemma sourceValue_bound (sourceFreq sourceAmp time : R) :
  (Rabs (sourceValue sourceFreq sourceAmp time) <= Rabs sourceAmp)%R.
Proof.
  unfold sourceValue. rewrite Rabs_mult.
  pose proof (SIN_bound (2 * PI * sourceFreq * time)) as [Hlo Hhi].
  assert (Rabs (sin (2 * PI * sourceFreq * time)) <= 1)%R by (apply Rabs_le; lra).
  pose proof (Rabs_pos sourceAmp). nra.
Qed.

Lemma F_get_out (a : F.t) (i : Z) : ~ 0 <= i < F.length a -> F.get a i = 0%R.
Proof.
  unfold F.get, F.length. intros Hi.
  destruct (Z.leb_spec 0 i) as [H0|]; [|reflexivity].
  rewrite lookup_ge_None_2 by lia. reflexivity.
Qed.

Lemma energy_ext (s : Z) (r : R) (e e' a a' b b' : Z -> R) :
  (forall i, e i = e' i) -> (forall i, a i = a' i) -> (forall i, b i = b' i) ->
  energy s r e a b = energy s r e' a' b'.
Proof.
  intros He Ha Hb. unfold energy. apply cells_sum_ext. intros i _.
  unfold stencil. rewrite He, !Ha, Hb. reflexivity.
Qed.

Lemma energy_rest (s : Z) (r : R) (e a b : Z -> R) :
  (forall i, a i = 0%R) -> (forall i, b i = 0%R) -> energy s r e a b = 0%R.
Proof.
  intros Ha Hb. unfold energy. apply cells_sum_zero. intros i.
  unfold stencil. rewrite !Ha, Hb. lra.
Qed.

(** ** Growth from rest *)

Lemma Rabs_between (x b : R) : (Rabs x <= b)%R -> (- b <= x <= b)%R.
Proof.
  intros H. pose proof (Rle_abs x). pose proof (Rle_abs (- x)) as H1.
  rewrite Rabs_Ropp in H1. lra.
Qed.

(** A field increment is bounded once its square is bounded by the
    energy. *)
Lemma increment_bound (r A k d : R) :
  (0 <= r <= 3 / 100)%R -> (0 <= A)%R -> (0 <= k)%R ->
  (((1 - 2 * r) * d) ^ 2 <= 2 * (4 * r ^ 2 * A ^ 2) * k ^ 2)%R ->
  (Rabs d <= A * k / 10)%R.
Proof.
  intros Hr HA Hk H.
  assert (HX : (0 <= A * k)%R) by (apply Rmult_le_pos; assumption).
  set (X := (A * k)%R) in *.
  assert (Hy : (((1 - 2 * r) * d) ^ 2 <= (9 / 100 * X) ^ 2)%R).
  { assert (r ^ 2 <= (3 / 100) ^ 2)%R by nra.
    assert (0 <= X ^ 2)%R by apply pow2_ge_0.
    replace (2 * (4 * r ^ 2 * A ^ 2) * k ^ 2)%R with (8 * r ^ 2 * X ^ 2)%R in H
      by (unfold X; ring).
    nra. }
  apply Rabs_le.
  assert (Hy1 : (- (9 / 100 * X) <= (1 - 2 * r) * d <= 9 / 100 * X)%R) by (split; nra).
  unfold Rdiv. fold X. split; nra.
Qed.

(** The value the sweep stores at the source cell when it is an interior
    cell. *)
Lemma source_cell_bound (r A B sigma p f1 f2 f3 f4 d : R) :
  (0 <= r <= 3 / 100)%R -> (0 <= A)%R -> (0 <= B)%R ->
  (Rabs sigma <= A)%R -> (Rabs p <= A)%R ->
  (Rabs f1 <= B)%R -> (Rabs f2 <= B)%R -> (Rabs f3 <= B)%R -> (Rabs f4 <= B)%R ->
  (0 < d <= 1)%R ->
  (Rabs ((2 * sigma - p + r * (f1 + f2 + f3 + f4 - 4 * sigma)) * d)
   <= 3 * A + 12 / 100 * B)%R.
Proof.
  intros Hr HA HB Hs Hp H1 H2 H3 H4 Hd.
  apply Rabs_between in Hs, Hp, H1, H2, H3, H4.
  rewrite Rabs_mult, (Rabs_pos_eq d) by lra.
  assert (Hval : (Rabs (2 * sigma - p + r * (f1 + f2 + f3 + f4 - 4 * sigma))
                  <= 3 * A + 12 / 100 * B)%R).
  { apply Rabs_le.
    assert (- (4 * B) <= f1 + f2 + f3 + f4 <= 4 * B)%R by lra.
    assert (- (3 / 100 * (4 * B)) <= r * (f1 + f2 + f3 + f4) <= 3 / 100 * (4 * B))%R
      by (split; nra).
    assert (- (2 * A) <= (2 - 4 * r) * sigma <= 2 * A)%R by (split; nra).
    split; nra. }
  pose proof (Rabs_pos (2 * sigma - p + r * (f1 + f2 + f3 + f4 - 4 * sigma))).
  nra.
Qed.

(** One more step keeps the growth bounds. *)
Lemma growth_step (sourceFreq sourceAmp sourceX sourceY time : R)
    (v : R) (g : WaveSolver) (n : nat) :
  let s := size g in
  let src := sourceIdx s sourceX sourceY in
  (0 <= v * ((DT * DT) / (DX * DX)) <= 3 / 100)%R ->
  growth_inv src v (Rabs sourceAmp) s n g ->
  exists g',
    stepOptimized sourceFreq sourceAmp sourceX sourceY time g = Some g'
    /\ growth_inv src v (Rabs sourceAmp) s (S n) g'.
Proof.
  intros s src Hr Hinv. unfold growth_inv in Hinv. cbv zeta in Hinv.
  destruct Hinv as (Hwf & _ & Hv & Hd & Hedge & Hprev & Hen & Hfree & Hall).
  set (A := Rabs sourceAmp) in *. set (r := (v * (DT * DT / (DX * DX)))%R) in *.
  set (sigma := sourceValue sourceFreq sourceAmp time).
  assert (Hsig : (Rabs sigma <= A)%R) by apply sourceValue_bound.
  assert (HA : (0 <= A)%R) by apply Rabs_pos.
  set (g1 := injectSource sourceFreq sourceAmp sourceX sourceY time g).
  set (zeros := replicate (Z.to_nat (s * s)) 0%R).
  set (a' := free_field s src (sweep g1 zeros)).
  set (b := free_field s src (u g)).
  set (c := free_field s src (uPrev g)).
  set (e := inverse_damping s src (dampingMap g)).
  set (f := fun i => (r * sigma * source_coupling s src i)%R).
  assert (He : forall i, (1 <= e i)%R).
  { intros i. unfold e, inverse_damping. destruct (freeb s src i) eqn:E; [|lra].
    apply freeb_true in E as (_ & _ & _ & _ & Hi).
    pose proof (Hd i Hi) as [Hd0 Hd1].
    rewrite <- Rinv_1. apply Rinv_le_contravar; assumption. }
  assert (Hrel : forall i, 0 <= i < s * s ->
            (a' i = 0 /\ c i = 0)%R
            \/ (e i * a' i = stencil s r b i - c i + f i)%R).
  { intros i Hi. destruct (freeb s src i) eqn:E.
    - right. apply sweep_free_cell; assumption.
    - left. unfold a', c, free_field. rewrite E. split; reflexivity. }
  assert (HPhi : (cells_sum s (fun i => f i ^ 2) <= 4 * r ^ 2 * A ^ 2)%R).
  { rewrite (cells_sum_ext s _ (fun i => (r * sigma) ^ 2 * source_coupling s src i ^ 2)%R)
      by (intros i _; unfold f; ring).
    rewrite cells_sum_scal.
    pose proof (source_coupling_sum s src) as H4.
    assert (H0 : (0 <= cells_sum s (fun i => source_coupling s src i ^ 2))%R)
      by (apply cells_sum_nonneg; intros i _; apply pow2_ge_0).
    assert (Hs2 : (sigma ^ 2 <= A ^ 2)%R).
    { apply Rabs_between in Hsig. nra. }
    assert (Hrs : ((r * sigma) ^ 2 <= r ^ 2 * A ^ 2)%R).
    { replace ((r * sigma) ^ 2)%R with (r ^ 2 * sigma ^ 2)%R by ring.
      apply Rmult_le_compat_l; [apply pow2_ge_0|exact Hs2]. }
    assert (0 <= (r * sigma) ^ 2)%R by apply pow2_ge_0.
    nra. }
  assert (Hen' : ((1 - 2 * r) * energy s r e a' b
                  <= 2 * (4 * r ^ 2 * A ^ 2) * INR (S n) ^ 2)%R).
  { apply (energy_growth s r e a' b c f); try assumption; try lra;
      apply free_field_supported. }
  assert (Hinc : forall i, (Rabs (a' i - b i) <= A * (INR n + 1) / 10)%R).
  { intros i.
    destruct (Z_le_dec 0 i) as [Hi0|Hi0]; [destruct (Z_lt_dec i (s * s)) as [Hi1|Hi1]|].
    - apply (increment_bound r); [exact Hr|exact HA|pose proof (pos_INR n); lra|].
      rewrite S_INR in Hen'.
      pose proof (energy_coercive s r e a' b ltac:(lra) He
                    (free_field_supported _ _ _) (free_field_supported _ _ _)) as Hco.
      pose proof (cells_sum_term s (fun i => (a' i - b i) ^ 2)%R i
                    ltac:(intros; apply pow2_ge_0) ltac:(lia)) as Hterm.
      cbv beta in Hterm.
      pose proof (pow2_ge_0 (a' i - b i)).
      replace (((1 - 2 * r) * (a' i - b i)) ^ 2)%R
        with ((1 - 2 * r) * ((1 - 2 * r) * (a' i - b i) ^ 2))%R by ring.
      apply Rle_trans with ((1 - 2 * r) * energy s r e a' b)%R; [|exact Hen'].
      apply Rmult_le_compat_l; [lra|].
      apply Rle_trans with ((1 - 2 * r) * cells_sum s (fun i => (a' i - b i) ^ 2))%R;
        [|exact Hco].
      apply Rmult_le_compat_l; [lra|exact Hterm].
    - unfold a', b. rewrite !free_field_out by lia.
      rewrite Rminus_diag, Rabs_R0. pose proof (pos_INR n). nra.
    - unfold a', b. rewrite !free_field_out by lia.
      rewrite Rminus_diag, Rabs_R0. pose proof (pos_INR n). nra. }
  assert (Hfree' : forall i,
            (Rabs (a' i) <= A * (INR (S n) * (INR (S n) + 1) / 20))%R).
  { intros i. rewrite S_INR.
    replace (a' i) with (b i + (a' i - b i))%R by ring.
    eapply Rle_trans; [apply Rabs_triang|].
    pose proof (Hfree i) as Hb. fold b in Hb. pose proof (Hinc i). lra. }
  eexists. split; [apply stepOptimized_spec; exact Hwf|].
  fold g1 s zeros.
  destruct (sweep_written g1 zeros) as (Hlen & HAw & HBw).
  assert (Hsq : 0 <= s * s) by nia.
  assert (Hzl : F.length zeros = s * s) by (apply F_length_zeros; exact Hsq).
  rewrite Hzl in Hlen, HAw, HBw.
  pose proof (injectSource_well_formed sourceFreq sourceAmp sourceX sourceY time g Hwf)
    as (Hu1 & _).
  fold g1 in Hu1. change (size g1) with s in Hu1, HAw, HBw.
  unfold growth_inv. cbv zeta. cbn [u uPrev velocityMap dampingMap size].
  fold r A.
  split.
  { destruct Hwf as (Hu & Hp & Hvl & Hdl). unfold well_formed.
    cbn [u uPrev velocityMap dampingMap size]. fold s. auto. }
  split; [reflexivity|]. split; [exact Hv|]. split; [exact Hd|]. split.
  { intros cx cy Hedge'. apply (sweep_edge_zero g1). exact Hedge'. }
  split.
  { change (u g1) with (F.put (u g) src sigma).
    destruct (Z_le_dec 0 src) as [H0|H0];
      [destruct (Z_lt_dec src (F.length (u g))) as [H1|H1]|].
    - rewrite F_get_put_eq by lia. exact Hsig.
    - rewrite F_get_put_out, F_get_out by lia. rewrite Rabs_R0. exact HA.
    - rewrite F_get_put_out, F_get_out by lia. rewrite Rabs_R0. exact HA. }
  split.
  { unfold solver_energy. cbn [u uPrev velocityMap dampingMap size]. fold s r e a'.
    rewrite (energy_ext s r e e a' a' _ b); [exact Hen'|reflexivity|reflexivity|].
    intros i. unfold b, free_field. destruct (freeb s src i) eqn:E; [|reflexivity].
    apply freeb_true in E as (_ & _ & Hne & _).
    change (u g1) with (F.put (u g) src sigma).
    apply F_get_put_ne. congruence. }
  split; [exact Hfree'|].
  intros j.
  assert (Hquad : (0 <= INR n * (INR n + 1) / 20)%R).
  { pose proof (pos_INR n). nra. }
  assert (Hgrow : (INR n * (INR n + 1) / 20 <= INR (S n) * (INR (S n) + 1) / 20)%R).
  { rewrite S_INR. pose proof (pos_INR n). nra. }
  destruct (HBw j) as [Hz|[(cx & cy & Hint & ->) Hrange]].
  { rewrite Hz. unfold zeros. rewrite F_get_zeros, Rabs_R0. nra. }
  destruct (Z.eq_dec (cy * s + cx) src) as [Hsrc|Hsrc].
  - rewrite HAw; [|exists cx, cy; split; [exact Hint|reflexivity]|exact Hrange].
    unfold cell_update. cbv zeta.
    change (size g1) with s. change (velocityMap g1) with (velocityMap g).
    change (dampingMap g1) with (dampingMap g). change (uPrev g1) with (uPrev g).
    change (u g1) with (F.put (u g) src sigma).
    rewrite (Hv _ Hrange). fold r.
    assert (Hin : forall x y, 0 <= x < s -> 0 <= y < s -> in_grid (size g) x y)
      by (intros x y Hx Hy; split; assumption).
    unfold interior in Hint.
    pose proof (presweep_cell g src sigma cx cy Hwf Hedge
                  (Hin cx cy ltac:(lia) ltac:(lia))) as H0.
    pose proof (presweep_cell g src sigma (cx + 1) cy Hwf Hedge
                  (Hin (cx + 1) cy ltac:(lia) ltac:(lia))) as H1.
    pose proof (presweep_cell g src sigma (cx - 1) cy Hwf Hedge
                  (Hin (cx - 1) cy ltac:(lia) ltac:(lia))) as H2.
    pose proof (presweep_cell g src sigma cx (cy + 1) Hwf Hedge
                  (Hin cx (cy + 1) ltac:(lia) ltac:(lia))) as H3.
    pose proof (presweep_cell g src sigma cx (cy - 1) Hwf Hedge
                  (Hin cx (cy - 1) ltac:(lia) ltac:(lia))) as H4.
    fold s in H0, H1, H2, H3, H4.
    replace (cy * s + (cx + 1)) with (cy * s + cx + 1) in H1 by lia.
    replace (cy * s + (cx - 1)) with (cy * s + cx - 1) in H2 by lia.
    replace ((cy + 1) * s + cx) with (cy * s + cx + s) in H3 by lia.
    replace ((cy - 1) * s + cx) with (cy * s + cx - s) in H4 by lia.
    rewrite H0, H1, H2, H3, H4. rewrite Hsrc.
    assert (Hat : forall d, d <> 0 -> at_source src (src + d) = 0%R).
    { intros d Hd0. unfold at_source. destruct (Z.eqb_spec (src + d) src); [lia|reflexivity]. }
    replace (src - 1) with (src + -1) by lia. replace (src - s) with (src + - s) by lia.
    rewrite !Hat by lia.
    assert (Hat0 : at_source src src = 1%R) by (unfold at_source; rewrite Z.eqb_refl; reflexivity).
    rewrite Hat0.
    assert (Hff : free_field s src (u g) src = 0%R).
    { unfold free_field, freeb. rewrite Z.eqb_refl. cbn [negb]. rewrite andb_false_r. reflexivity. }
    rewrite Hff.
    pose proof (Hfree (src + 1)) as B1. pose proof (Hfree (src + -1)) as B2.
    pose proof (Hfree (src + s)) as B3. pose proof (Hfree (src + - s)) as B4.
    rewrite Hsrc in Hrange.
    pose proof (Hd src Hrange) as Hdsrc.
    pose proof (source_cell_bound r A (A * (INR n * (INR n + 1) / 20)) sigma
                  (F.get (uPrev g) src)
                  (free_field s src (u g) (src + 1)) (free_field s src (u g) (src + -1))
                  (free_field s src (u g) (src + s)) (free_field s src (u g) (src + - s))
                  (F.get (dampingMap g) src)
                  Hr HA ltac:(nra) Hsig Hprev B1 B2 B3 B4 Hdsrc) as Hb.
    match goal with
    | |- (Rabs ?x <= _)%R =>
        match type of Hb with
        | (Rabs ?y <= _)%R => replace x with y by ring
        end
    end.
    nra.
  - pose proof (Hfree' (cy * s + cx)) as Hb. unfold a', free_field in Hb.
    rewrite (freeb_cell _ _ _ _ Hint Hsrc) in Hb.
    nra.
Qed.

Lemma growth_from_rest (sourceFreq sourceAmp sourceX sourceY : R) (time : nat -> R)
    (v : R) (g : WaveSolver) (n : nat) :
  well_formed g ->
  (forall j, F.get (u g) j = 0%R) ->
  (forall j, F.get (uPrev g) j = 0%R) ->
  (forall j, 0 <= j < size g * size g -> F.get (velocityMap g) j = v) ->
  (0 <= v * ((DT * DT) / (DX * DX)) <= 3 / 100)%R ->
  (forall j, 0 <= j < size g * size g -> (0 < F.get (dampingMap g) j <= 1)%R) ->
  exists g',
    stepOptimized_iter sourceFreq sourceAmp sourceX sourceY time n g = Some g'
    /\ growth_inv (sourceIdx (size g) sourceX sourceY) v (Rabs sourceAmp) (size g) n g'.
Proof.
  intros Hwf Hu0 Hp0 Hv Hr Hd.
  induction n as [|n (g' & Hrun & Hinv)].
  - exists g. split; [reflexivity|].
    unfold growth_inv. cbv zeta. simpl INR.
    pose proof (Rabs_pos sourceAmp) as HA.
    split; [exact Hwf|]. split; [reflexivity|]. split; [exact Hv|]. split; [exact Hd|].
    split; [intros cx cy _; apply Hu0|].
    split; [rewrite Hp0, Rabs_R0; exact HA|].
    split.
    { unfold solver_energy. rewrite energy_rest; [lra| |];
        intros i; unfold free_field; destruct (freeb _ _ i); auto. }
    split.
    + intros i. unfold free_field. destruct (freeb _ _ i); rewrite ?Hu0, Rabs_R0; lra.
    + intros j. rewrite Hu0, Rabs_R0. nra.
  - cbn [stepOptimized_iter]. rewrite Hrun. cbn [mbind option_bind].
    pose proof Hinv as (_ & Hs & _).
    pose proof (growth_step sourceFreq sourceAmp sourceX sourceY (time n) v g' n) as Hstep.
    cbv zeta in Hstep. rewrite Hs in Hstep. exact (Hstep Hr Hinv).
Qed.

Lemma air_courant :
  (0 <= speedOfSound (MATERIALS AIR) * speedOfSound (MATERIALS AIR)
        * ((DT * DT) / (DX * DX)) <= 3 / 100)%R.
Proof. unfold DT, DX. simpl. lra. Qed.

(** C7.  Uniform air at rest, driven by a sinusoidal source, does not
    diverge.  On a well-formed grid whose velocity map holds the squared
    sound speed of air everywhere, with a damping between 0 (excluded) and
    1 at every cell (as [applyBoundaries] gives) and both fields zero, [n]
    successive calls of [stepOptimized] with one frequency, amplitude and
    source position, at any times, throw nothing, and afterwards every
    cell of [u] is at most [(3 + n * (n + 1) / 20) * |sourceAmp|] in absolute
    value, whatever the size of the grid: the field grows at most like the
    square of the number of steps.  Over the first 1000 steps no cell
    exceeds [50053 * |sourceAmp|]. *)
Theorem stepOptimized_air_bounded
    (sourceFreq sourceAmp sourceX sourceY : R) (time : nat -> R)
    (g : WaveSolver) (n : nat) :
  well_formed g ->
  (forall j, F.get (u g) j = 0%R) ->
  (forall j, F.get (uPrev g) j = 0%R) ->
  (forall j, 0 <= j < size g * size g ->
     F.get (velocityMap g) j
     = (speedOfSound (MATERIALS AIR) * speedOfSound (MATERIALS AIR))%R) ->
  (forall j, 0 <= j < size g * size g -> (0 < F.get (dampingMap g) j <= 1)%R) ->
  exists g',
    stepOptimized_iter sourceFreq sourceAmp sourceX sourceY time n g = Some g'
    /\ (forall j,
          (Rabs (F.get (u g') j)
           <= (3 + INR n * (INR n + 1) / 20) * Rabs sourceAmp)%R)
    /\ ((n <= 1000)%nat ->
        forall j, (Rabs (F.get (u g') j) <= 50053 * Rabs sourceAmp)%R).
Proof.
  intros Hwf Hu0 Hp0 Hv Hd.
  destruct (growth_from_rest sourceFreq sourceAmp sourceX sourceY time _ g n
              Hwf Hu0 Hp0 Hv air_courant Hd) as (g' & Hrun & Hinv).
  destruct Hinv as (_ & _ & _ & _ & _ & _ & _ & _ & Hall).
  exists g'. split; [exact Hrun|]. split.
  - intros j. rewrite Rmult_comm. apply Hall.
  - intros Hn j. eapply Rle_trans; [apply Hall|].
    pose proof (Rabs_pos sourceAmp). pose proof (pos_INR n).
    assert (INR n <= 1000)%R.
    { replace 1000%R with (INR 1000) by (rewrite INR_IZR_INZ; reflexivity).
      apply le_INR. exact Hn. }
    assert (INR n * (INR n + 1) <= 1000 * 1001)%R by nra.
    rewrite (Rmult_comm 50053). apply Rmult_le_compat_l; [assumption|lra].
Qed.

Lemma sample_grid_air (j : Z) :
  0 <= j < size sample_grid * size sample_grid ->
  F.get (velocityMap sample_grid) j
  = (speedOfSound (MATERIALS AIR) * speedOfSound (MATERIALS AIR))%R.
Proof.
  simpl. intros Hj.
  assert (H : j = 0 \/ j = 1 \/ j = 2 \/ j = 3 \/ j = 4 \/ j = 5 \/ j = 6 \/ j = 7 \/ j = 8)
    by lia.
  destruct H as [-> | [-> | [-> | [-> | [-> | [-> | [-> | [-> | ->]]]]]]]]; reflexivity.
Qed.

Lemma sample_grid_damping (j : Z) :
  0 <= j < size sample_grid * size sample_grid ->
  (0 < F.get (dampingMap sample_grid) j <= 1)%R.
Proof.
  simpl. intros Hj.
  assert (H : j = 0 \/ j = 1 \/ j = 2 \/ j = 3 \/ j = 4 \/ j = 5 \/ j = 6 \/ j = 7 \/ j = 8)
    by lia.
  destruct H as [-> | [-> | [-> | [-> | [-> | [-> | [-> | [-> | ->]]]]]]]];
    cbv [F.get Z.leb Z.compare Z.to_nat Pos.to_nat Pos.iter_op Nat.add lookup list_lookup
         default from_option id]; simpl; lra.
Qed.

(** C7 on the sample grid: 1000 steps at the times of the animation, with
    the source of the default configuration. *)
Lemma stepOptimized_air_bounded_witness :
  exists g',
    stepOptimized_iter 2000 1 0.1 0.5 (frame_time 0) 1000 sample_grid = Some g'
    /\ forall j, (Rabs (F.get (u g') j) <= 50053 * Rabs 1)%R.
Proof.
  assert (Hwf : well_formed sample_grid) by (repeat split; reflexivity).
  destruct (stepOptimized_air_bounded 2000 1 0.1 0.5 (frame_time 0) sample_grid 1000
              Hwf (F_get_zeros 9) (F_get_zeros 9) sample_grid_air sample_grid_damping)
    as (g' & Hrun & _ & Hbound).
  exists g'. split; [exact Hrun|]. apply Hbound. lia.
Defined.

(** ** A fresh solver *)

(** After [resetMaterialMap] every cell of the damping map lies between 0.8
    and 1, inside the grid and outside. *)
Lemma resetMaterialMap_damping_range (m : MaterialType) (g : WaveSolver) (j : Z) :
  F.length (dampingMap g) = F.length (velocityMap g) ->
  0 <= j < F.length (dampingMap g) ->
  (0.8 <= F.get (dampingMap (resetMaterialMap m g)) j <= 1)%R.
Proof.
  intros Hlen Hj.
  destruct (resetMaterialMap_inv m g)
    as (damp1 & _ & _ & _ & _ & (Hl1 & HA1 & _) & (Hl2 & HA2 & HB2)).
  destruct (HB2 j) as [Heq|[HV Hr]].
  - rewrite Heq, HA1 by lia. lra.
  - rewrite (HA2 j HV Hr).
    destruct HV as (cx & cy & ([Hx Hy] & Hdist) & ->).
    unfold layer_value. rewrite cell_index_mod, cell_index_div by exact Hx.
    pose proof (edge_distance_nonneg (size g) cx cy (conj Hx Hy)) as Hd0.
    rewrite minus_IZR. apply IZR_le in Hd0. apply IZR_lt in Hdist.
    unfold Rmax. destruct (Rle_dec 0.8 _); lra.
Qed.

(** The solver the constructor returns is uniform air at rest, with a
    damping between 0.8 and 1 at every cell. *)
Lemma constructor_air_at_rest (n : Z) (g : WaveSolver) :
  constructor n = Some g ->
  well_formed g
  /\ (forall j, F.get (u g) j = 0%R)
  /\ (forall j, F.get (uPrev g) j = 0%R)
  /\ (forall j, 0 <= j < size g * size g ->
        F.get (velocityMap g) j
        = (speedOfSound (MATERIALS AIR) * speedOfSound (MATERIALS AIR))%R)
  /\ (forall j, 0 <= j < size g * size g -> (0 < F.get (dampingMap g) j <= 1)%R).
Proof.
  intros Hg.
  destruct (constructor_returns n) as (g0 & Hg0 & Hs & Hwf & Hu0 & Hp0).
  assert (g0 = g) by congruence. subst g0.
  split; [exact Hwf|]. split; [exact Hu0|]. split; [exact Hp0|].
  rewrite constructor_spec in Hg. injection Hg as <-.
  set (fresh := {| u := replicate (Z.to_nat (n * n)) 0%R;
                   uPrev := replicate (Z.to_nat (n * n)) 0%R;
                   velocityMap := replicate (Z.to_nat (n * n)) 0%R;
                   dampingMap := replicate (Z.to_nat (n * n)) 0%R;
                   size := n |}) in *.
  assert (Hlen : F.length (replicate (Z.to_nat (n * n)) 0%R) = n * n)
    by (apply F_length_zeros; nia).
  rewrite Hs. split.
  - destruct (resetMaterialMap_inv AIR fresh) as (_ & _ & _ & _ & (_ & HAv & _) & _).
    simpl in HAv. rewrite Hlen in HAv.
    intros j Hj. apply HAv; exact Hj.
  - intros j Hj.
    pose proof (resetMaterialMap_damping_range AIR fresh j eq_refl) as H.
    simpl in H. rewrite Hlen in H. specialize (H Hj). lra.
Qed.

(** X27.  A fresh solver does not diverge.  Whatever the size, on the
    solver the constructor returns [n] successive calls of [stepOptimized]
    with one source, at any times, throw nothing and leave every cell of
    [u] at most [(3 + n * (n + 1) / 20) * |sourceAmp|] in absolute value. *)
Theorem fresh_solver_bounded
    (size : Z) (g : WaveSolver)
    (sourceFreq sourceAmp sourceX sourceY : R) (time : nat -> R) (n : nat) :
  constructor size = Some g ->
  exists g',
    stepOptimized_iter sourceFreq sourceAmp sourceX sourceY time n g = Some g'
    /\ forall j,
         (Rabs (F.get (u g') j)
          <= (3 + INR n * (INR n + 1) / 20) * Rabs sourceAmp)%R.
Proof.
  intros Hg.
  destruct (constructor_air_at_rest size g Hg) as (Hwf & Hu0 & Hp0 & Hv & Hd).
  destruct (growth_from_rest sourceFreq sourceAmp sourceX sourceY time _ g n
              Hwf Hu0 Hp0 Hv air_courant Hd) as (g' & Hrun & Hinv).
  destruct Hinv as (_ & _ & _ & _ & _ & _ & _ & _ & Hall).
  exists g'. split; [exact Hrun|].
  intros j. rewrite Rmult_comm. apply Hall.
Qed.

(** X27 for the default size, ten steps. *)
Lemma fresh_solver_bounded_witness :
  exists g g',
    constructor GRID_SIZE = Some g
    /\ stepOptimized_iter 2000 1 0.1 0.5 (frame_time 0) 10 g = Some g'
    /\ forall j, (Rabs (F.get (u g') j) <= (3 + INR 10 * (INR 10 + 1) / 20) * Rabs 1)%R.
Proof.
  eexists.
  destruct (fresh_solver_bounded GRID_SIZE _ 2000 1 0.1 0.5 (frame_time 0) 10
              (constructor_spec GRID_SIZE)) as (g' & Hrun & Hbound).
  exists g'. split; [apply constructor_spec|]. split; [exact Hrun|exact Hbound].
Defined.

(** ** Steel: the scheme beyond its stability limit *)

Lemma sourceIdx_west : sourceIdx 3 0 0.5 = 3.
Proof.
  unfold sourceIdx. cbv zeta. change (IZR (3 - 1)) with 2%R.
  rewrite (Zfloor_eq 1 (0.5 * 2)) by lra. rewrite (Zfloor_eq 0 (0 * 2)) by lra.
  reflexivity.
Qed.

(** One step on a grid of three by three cells of steel with the source at
    the cell west of the centre: the centre cell. *)
Lemma steel_step (sourceFreq sourceAmp time : R) (g : WaveSolver) :
  well_formed g -> size g = 3 ->
  (forall j, 0 <= j < 9 ->
     F.get (velocityMap g) j
     = (speedOfSound (MATERIALS STEEL) * speedOfSound (MATERIALS STEEL))%R) ->
  (forall j, 0 <= j < 9 -> (0.9 <= F.get (dampingMap g) j <= 1)%R) ->
  (forall cx cy, edge 3 cx cy -> F.get (u g) (cy * 3 + cx) = 0%R) ->
  exists g',
    stepOptimized sourceFreq sourceAmp 0 0.5 time g = Some g'
    /\ well_formed g' /\ size g' = 3
    /\ velocityMap g' = velocityMap g /\ dampingMap g' = dampingMap g
    /\ (forall cx cy, edge 3 cx cy -> F.get (u g') (cy * 3 + cx) = 0%R)
    /\ F.get (uPrev g') 4 = F.get (u g) 4
    /\ F.get (u g') 4
       = ((2 * F.get (u g) 4 - F.get (uPrev g) 4
           + 8.8804 * (sourceValue sourceFreq sourceAmp time - 4 * F.get (u g) 4))
          * F.get (dampingMap g) 4)%R.
Proof.
  intros Hwf Hs Hv Hd Hedge.
  eexists. split; [apply stepOptimized_spec; exact Hwf|].
  cbn [u uPrev velocityMap dampingMap size].
  set (g1 := injectSource sourceFreq sourceAmp 0 0.5 time g).
  destruct (sweep_written g1 (replicate (Z.to_nat (size g * size g)) 0%R)) as (Hlen & _).
  rewrite F_length_zeros in Hlen by nia.
  pose proof (injectSource_well_formed sourceFreq sourceAmp 0 0.5 time g Hwf) as (Hu1 & _).
  fold g1 in Hu1. change (size g1) with (size g) in Hu1.
  pose proof Hwf as (Hgu & Hgp & Hgv & Hgd).
  split; [unfold well_formed; cbn [u uPrev velocityMap dampingMap size]; auto|].
  split; [exact Hs|]. do 2 (split; [reflexivity|]).
  split.
  { intros cx cy He. pose proof (sweep_edge_zero g1 (Z.to_nat (size g * size g)) cx cy) as H.
    change (size g1) with (size g) in H. rewrite Hs in H. rewrite Hs. apply H. exact He. }
  split.
  { unfold g1, injectSource. cbn [u with_u]. rewrite Hs, sourceIdx_west.
    apply F_get_put_ne. lia. }
  pose proof (sweep_free_cell sourceFreq sourceAmp 0 0.5 time g
                (speedOfSound (MATERIALS STEEL) * speedOfSound (MATERIALS STEEL)) 4) as H.
  cbv zeta in H. fold g1 in H. rewrite Hs, sourceIdx_west in H.
  specialize (H Hwf Hedge Hv).
  assert (Hd' : forall j, 0 <= j < 3 * 3 -> (0 < F.get (dampingMap g) j <= 1)%R).
  { intros j Hj. pose proof (Hd j Hj). lra. }
  specialize (H Hd' eq_refl).
  unfold inverse_damping, free_field, stencil, source_coupling, at_source in H.
  change (freeb 3 3 4) with true in H.
  change (freeb 3 3 (4 + 1)) with false in H. change (freeb 3 3 (4 - 1)) with false in H.
  change (freeb 3 3 (4 + 3)) with false in H. change (freeb 3 3 (4 - 3)) with false in H.
  change (4 + 1 =? 3) with false in H. change (4 - 1 =? 3) with true in H.
  change (4 + 3 =? 3) with false in H. change (4 - 3 =? 3) with false in H.
  cbv iota in H.
  pose proof (Hd 4 ltac:(lia)) as Hd4.
  unfold DT, DX in H. simpl speedOfSound in H.
  apply (Rmult_eq_reg_l (/ F.get (dampingMap g) 4)); [|apply Rinv_neq_0_compat; lra].
  rewrite Hs. rewrite H.
  set (D := F.get (dampingMap g) 4) in *.
  assert (HD : (/ D * D = 1)%R) by (apply Rinv_l; lra).
  match goal with
  | |- _ = (/ D * (?val * D))%R =>
      replace (/ D * (val * D))%R with ((/ D * D) * val)%R by ring
  end.
  rewrite HD. lra.
Qed.

(** The centre cell grows at least 21-fold in a step once it has outgrown
    the source and its own previous value. *)
Lemma steel_cell_growth (d x p sigma A : R) :
  (0.9 <= d <= 1)%R -> (Rabs sigma <= A)%R -> (Rabs p <= Rabs x)%R -> (A <= Rabs x)%R ->
  (21 * Rabs x <= Rabs ((2 * x - p + 8.8804 * (sigma - 4 * x)) * d))%R.
Proof.
  intros Hd Hs Hp HA.
  apply Rabs_between in Hs, Hp.
  rewrite Rabs_mult, (Rabs_pos_eq d) by lra.
  assert (Hval : (2364 / 100 * Rabs x
                  <= Rabs (2 * x - p + 8.8804 * (sigma - 4 * x)))%R).
  { destruct (Rle_dec 0 x) as [Hx|Hx].
    - rewrite (Rabs_pos_eq x) in * by exact Hx.
      rewrite Rabs_left1 by lra. lra.
    - rewrite (Rabs_left x) in * by lra.
      rewrite Rabs_pos_eq by lra. lra. }
  pose proof (Rabs_pos x).
  pose proof (Rabs_pos (2 * x - p + 8.8804 * (sigma - 4 * x))).
  nra.
Qed.

Lemma steel_cell_start (d sigma A : R) :
  (0.9 <= d <= 1)%R -> (A / 4 <= Rabs sigma)%R ->
  (A <= Rabs ((2 * 0 - 0 + 8.8804 * (sigma - 4 * 0)) * d))%R.
Proof.
  intros Hd Hs.
  rewrite Rabs_mult, (Rabs_pos_eq d) by lra.
  replace (2 * 0 - 0 + 8.8804 * (sigma - 4 * 0))%R with (8.8804 * sigma)%R by ring.
  rewrite Rabs_mult, (Rabs_pos_eq 8.8804) by lra.
  pose proof (Rabs_pos sigma). nra.
Qed.

Lemma steel_growth (sourceFreq sourceAmp : R) (time : nat -> R) (g : WaveSolver)
    (n : nat) :
  well_formed g -> size g = 3 ->
  (forall j, F.get (u g) j = 0%R) ->
  (forall j, F.get (uPrev g) j = 0%R) ->
  (forall j, 0 <= j < 9 ->
     F.get (velocityMap g) j
     = (speedOfSound (MATERIALS STEEL) * speedOfSound (MATERIALS STEEL))%R) ->
  (forall j, 0 <= j < 9 -> (0.9 <= F.get (dampingMap g) j <= 1)%R) ->
  (1 / 4 <= Rabs (sin (2 * PI * sourceFreq * time O)))%R ->
  exists g',
    stepOptimized_iter sourceFreq sourceAmp 0 0.5 time (S n) g = Some g'
    /\ well_formed g' /\ size g' = 3
    /\ velocityMap g' = velocityMap g /\ dampingMap g' = dampingMap g
    /\ (forall cx cy, edge 3 cx cy -> F.get (u g') (cy * 3 + cx) = 0%R)
    /\ (Rabs (F.get (uPrev g') 4) <= Rabs (F.get (u g') 4))%R
    /\ (21 ^ n * Rabs sourceAmp <= Rabs (F.get (u g') 4))%R.
Proof.
  intros Hwf Hs Hu0 Hp0 Hv Hd Hsin.
  pose proof (Rabs_pos sourceAmp) as HA.
  induction n as [|n (g' & Hrun & Hwf' & Hs' & Hv' & Hd' & Hedge & Hprev & Hgrow)].
  - cbn [stepOptimized_iter mbind option_bind].
    destruct (steel_step sourceFreq sourceAmp (time O) g Hwf Hs Hv Hd
                ltac:(intros; apply Hu0))
      as (g' & Hstep & Hwf' & Hs' & Hv' & Hd' & Hedge & Hprev & Hnew).
    exists g'. split; [exact Hstep|]. do 5 (split; [assumption|]).
    rewrite Hprev, Hnew, !Hu0, Hp0.
    assert (Hstart : (Rabs sourceAmp
                      <= Rabs ((2 * 0 - 0
                                + 8.8804 * (sourceValue sourceFreq sourceAmp (time O) - 4 * 0))
                               * F.get (dampingMap g) 4))%R).
    { apply steel_cell_start; [apply Hd; lia|].
      unfold sourceValue. rewrite Rabs_mult. nra. }
    rewrite Rabs_R0. split; [lra|]. simpl. lra.
  - cbn [stepOptimized_iter] in *. rewrite Hrun. cbn [mbind option_bind].
    rewrite <- Hv' in Hv. rewrite <- Hd' in Hd.
    destruct (steel_step sourceFreq sourceAmp (time (S n)) g' Hwf' Hs' Hv Hd Hedge)
      as (g'' & Hstep & Hwf'' & Hs'' & Hv'' & Hd'' & Hedge' & Hprev' & Hnew).
    exists g''. split; [exact Hstep|]. do 2 (split; [assumption|]).
    split; [congruence|]. split; [congruence|]. split; [exact Hedge'|].
    assert (Hpow : (1 <= 21 ^ n)%R) by (apply pow_R1_Rle; lra).
    pose proof (steel_cell_growth (F.get (dampingMap g') 4) (F.get (u g') 4)
                  (F.get (uPrev g') 4) (sourceValue sourceFreq sourceAmp (time (S n)))
                  (Rabs sourceAmp) ltac:(apply Hd; lia)
                  (sourceValue_bound _ _ _) Hprev ltac:(nra)) as Hstepgrow.
    rewrite <- Hnew in Hstepgrow. rewrite Hprev'.
    pose proof (Rabs_pos (F.get (u g') 4)).
    split; [lra|]. cbn [pow]. nra.
Qed.

(** X28.  Steel diverges.  On a grid of three by three cells of steel
    (5960 in the place of 343 makes [c^2 * dt^2 / dx^2 = 8.8804], far above
    the stability limit 1/2) at rest, with damping between 0.9 and 1 and the
    source at the cell west of the centre, the centre cell grows at least
    21-fold in every step once the first source value is at least a quarter
    of the amplitude: after [n + 1] steps it is at least [21^n * |sourceAmp|]
    in absolute value, whatever the frequency and the later times.  The
    statement is made for the first 21 steps, in which the values stay far
    inside the range of a [Float32Array] cell. *)
Theorem stepOptimized_steel_diverges
    (sourceFreq sourceAmp : R) (time : nat -> R) (g : WaveSolver) (n : nat) :
  well_formed g -> size g = 3 ->
  (forall j, F.get (u g) j = 0%R) ->
  (forall j, F.get (uPrev g) j = 0%R) ->
  (forall j, 0 <= j < 9 ->
     F.get (velocityMap g) j
     = (speedOfSound (MATERIALS STEEL) * speedOfSound (MATERIALS STEEL))%R) ->
  (forall j, 0 <= j < 9 -> (0.9 <= F.get (dampingMap g) j <= 1)%R) ->
  (1 / 4 <= Rabs (sin (2 * PI * sourceFreq * time O)))%R ->
  (n <= 20)%nat ->
  exists g',
    stepOptimized_iter sourceFreq sourceAmp 0 0.5 time (S n) g = Some g'
    /\ (21 ^ n * Rabs sourceAmp <= Rabs (F.get (u g') 4))%R.
Proof.
  intros Hwf Hs Hu0 Hp0 Hv Hd Hsin _.
  destruct (steel_growth sourceFreq sourceAmp time g n Hwf Hs Hu0 Hp0 Hv Hd Hsin)
    as (g' & Hrun & _ & _ & _ & _ & _ & _ & Hgrow).
  exists g'. split; [exact Hrun|exact Hgrow].
Qed.

Lemma sample_grid_steel_velocity (j : Z) :
  0 <= j < 9 ->
  F.get (velocityMap sample_grid_steel) j
  = (speedOfSound (MATERIALS STEEL) * speedOfSound (MATERIALS STEEL))%R.
Proof.
  intros Hj.
  assert (H : j = 0 \/ j = 1 \/ j = 2 \/ j = 3 \/ j = 4 \/ j = 5 \/ j = 6 \/ j = 7 \/ j = 8)
    by lia.
  destruct H as [-> | [-> | [-> | [-> | [-> | [-> | [-> | [-> | ->]]]]]]]]; reflexivity.
Qed.

Lemma sample_grid_steel_damping (j : Z) :
  0 <= j < 9 -> (0.9 <= F.get (dampingMap sample_grid_steel) j <= 1)%R.
Proof.
  intros Hj.
  assert (H : j = 0 \/ j = 1 \/ j = 2 \/ j = 3 \/ j = 4 \/ j = 5 \/ j = 6 \/ j = 7 \/ j = 8)
    by lia.
  destruct H as [-> | [-> | [-> | [-> | [-> | [-> | [-> | [-> | ->]]]]]]]];
    cbv [F.get Z.leb Z.compare Z.to_nat Pos.to_nat Pos.iter_op Nat.add lookup list_lookup
         default from_option id]; simpl; lra.
Qed.

(** X28 on the steel sample grid: four steps with the source at its
    maximum. *)
Lemma stepOptimized_steel_diverges_witness :
  exists g',
    stepOptimized_iter 1 1 0 0.5 (fun _ => 1 / 4)%R 4 sample_grid_steel = Some g'
    /\ (21 ^ 3 * Rabs 1 <= Rabs (F.get (u g') 4))%R.
Proof.
  assert (Hwf : well_formed sample_grid_steel) by (repeat split; reflexivity).
  assert (Hsin : (1 / 4 <= Rabs (sin (2 * PI * 1 * (1 / 4))))%R).
  { rewrite sin_quarter_turn, Rabs_R1. lra. }
  apply (stepOptimized_steel_diverges 1 1 (fun _ => 1 / 4)%R sample_grid_steel 3
           Hwf eq_refl (F_get_zeros 9) (F_get_zeros 9)
           sample_grid_steel_velocity sample_grid_steel_damping Hsin ltac:(lia)).
Defined.
